(** * Slop-score text analytics: a shallow embedding and its verified properties

    The development follows the TypeScript sources of the slop-score skill:
    [lib/utils.ts], [lib/wordfreq.ts], [lib/contrast-detector.ts],
    [lib/pos-tagger.ts] and [lib/metrics.ts].

    Conventions of the embedding:
    - a JavaScript string is the list of its UTF-16 code units ([jsstring]);
      offsets and lengths are offsets and lengths of that list;
    - a JavaScript number that holds a count or an offset is a [nat]; a
      number that holds a score, a rate or a frequency is a rational [Q]
      (finite doubles, idealised: no rounding), except in [HumanProfile],
      where the sign of a rounded sum decides what is stored and the
      numbers are those of the runtime;
    - [Map] objects that are only read through [get] are [gmap]s, [Set]
      objects are [gset]s; a [Map] whose iteration order is observed is an
      insertion-ordered association list ([OrdMap]);
    - [while] loops run on fuel, and each comes with a lemma showing that the
      fuel handed to it is enough. *)

From Stdlib Require Import QArith Qminmax Lqa Lia ZArith NArith Ascii String.
From stdpp Require Import gmap strings list fin_maps sorting.

Local Open Scope nat_scope.

(** ** Host language: strings, arrays, numbers *)

Module Js.

Definition char := N.
Definition jsstring := list char.

(** A string literal of the sources, as code units. *)
Definition lit (s : string) : jsstring :=
  List.map N_of_ascii (list_ascii_of_string s).

Definition char_in (c : char) (lo hi : N) : bool := ((lo <=? c) && (c <=? hi))%N.
Arguments char_in c (lo hi)%_N.

Definition is_lower (c : char) : bool := char_in c 97 122.   (* a-z *)
Definition is_upper (c : char) : bool := char_in c 65 90.    (* A-Z *)
Definition is_digit (c : char) : bool := char_in c 48 57.    (* 0-9 *)
Definition is_alnum (c : char) : bool := is_upper c || is_lower c || is_digit c.
(** [\w] *)
Definition is_word (c : char) : bool := is_alnum c || (c =? 95)%N.

(** WhiteSpace and LineTerminator of ECMAScript: what [trim] strips and
    what [\s] matches. *)
Definition is_space (c : char) : bool :=
  char_in c 9 13 || (c =? 32)%N || (c =? 160)%N || (c =? 5760)%N
  || char_in c 8192 8202 || (c =? 8232)%N || (c =? 8233)%N
  || (c =? 8239)%N || (c =? 8287)%N || (c =? 12288)%N || (c =? 65279)%N.

Fixpoint drop_while (p : char -> bool) (s : jsstring) : jsstring :=
  match s with
  | [] => []
  | c :: s' => if p c then drop_while p s' else s
  end.

Definition drop_while_end (p : char -> bool) (s : jsstring) : jsstring :=
  rev (drop_while p (rev s)).

Definition trim (s : jsstring) : jsstring :=
  drop_while_end is_space (drop_while is_space s).

(** [s.substring(a, b)]: the arguments are swapped when [a > b] and
    clamped to the length. *)
Definition substring (s : jsstring) (a b : nat) : jsstring :=
  take (Nat.max a b - Nat.min a b) (drop (Nat.min a b) s).

(** [arr.slice(a, b)] for non-negative [a] and [b]. *)
Definition slice {A} (l : list A) (a b : nat) : list A :=
  take (b - a) (drop a l).

Fixpoint is_prefix (p s : jsstring) : bool :=
  match p, s with
  | [], _ => true
  | _ :: _, [] => false
  | a :: p', b :: s' => (a =? b)%N && is_prefix p' s'
  end.

Fixpoint index_from (v s : jsstring) (base : nat) : option nat :=
  if is_prefix v s then Some base
  else match s with
       | [] => None
       | _ :: s' => index_from v s' (S base)
       end.

(** [text.indexOf(value, from)]; [None] stands for [-1]. *)
Definition indexOf (text value : jsstring) (from : nat) : option nat :=
  let k := Nat.min from (length text) in
  index_from value (drop k text) k.

(** Maximal non-empty runs of code units satisfying [p], in order: the
    matches of a global regular expression of the shape [[class]+]. *)
Fixpoint runs_aux (p : char -> bool) (s : jsstring) (cur : jsstring)
  : list jsstring :=
  match s with
  | [] => match cur with [] => [] | _ => [cur] end
  | c :: s' =>
      if p c then runs_aux p s' (cur ++ [c])
      else match cur with
           | [] => runs_aux p s' []
           | _ => cur :: runs_aux p s' []
           end
  end.

Definition runs (p : char -> bool) (s : jsstring) : list jsstring :=
  runs_aux p s [].

(** [s.replace(/[class]/g, to)] with a one-unit replacement. *)
Definition replace_class (p : char -> bool) (to : char) (s : jsstring)
  : jsstring :=
  List.map (fun c => if p c then to else c) s.

(** [arr.sort(cmp)]: the sort is stable; [leb a b] is [cmp(a, b) <= 0]. *)
Fixpoint insert_sorted {A} (leb : A -> A -> bool) (x : A) (l : list A)
  : list A :=
  match l with
  | [] => [x]
  | y :: l' => if leb x y then x :: l else y :: insert_sorted leb x l'
  end.

Fixpoint sort {A} (leb : A -> A -> bool) (l : list A) : list A :=
  match l with
  | [] => []
  | x :: l' => insert_sorted leb x (sort leb l')
  end.

Fixpoint join (sep : jsstring) (parts : list jsstring) : jsstring :=
  match parts with
  | [] => []
  | [p] => p
  | p :: rest => p ++ sep ++ join sep rest
  end.

(** [a < b] on numbers. *)
Definition Qlt_bool (a b : Q) : bool := negb (Qle_bool b a).

(** A count or an offset used as a number. *)
Definition num (n : nat) : Q := inject_Z (Z.of_nat n).

End Js.

Import Js.

(** A [Map] whose iteration order is observed: keys in insertion order, an
    update of a present key keeps its place. *)
Module OrdMap.
Section Def.
Context {K V : Type} `{EqDecision K}.

Fixpoint get (m : list (K * V)) (k : K) : option V :=
  match m with
  | [] => None
  | (k', v) :: m' => if decide (k = k') then Some v else get m' k
  end.

Fixpoint set (m : list (K * V)) (k : K) (v : V) : list (K * V) :=
  match m with
  | [] => [(k, v)]
  | (k', v') :: m' =>
      if decide (k = k') then (k, v) :: m' else (k', v') :: set m' k v
  end.

Definition entries (m : list (K * V)) : list (K * V) := m.
Definition values (m : list (K * V)) : list V := List.map snd m.

End Def.
End OrdMap.

(** The parts of the runtime that are tables or libraries outside the
    repository: Unicode case mapping, [Math.pow] and the wink POS tagger. *)
Record TaggedToken := { tok_value : jsstring; tok_pos : option jsstring }.

Class Host := {
  toLowerCase : jsstring -> jsstring;
  toLowerCase_empty : toLowerCase [] = [];
  pow10 : Q -> Q;
  tagSentence : jsstring -> list TaggedToken
}.

(** ** lib/utils.ts *)

Module Utils.
Section WithHost.
Context `{Host}.

Definition is_single_quote_variant (c : char) : bool :=
  (c =? 8216)%N || (c =? 8217)%N || (c =? 8218)%N || (c =? 8219)%N
  || (c =? 8242)%N || (c =? 700)%N || (c =? 65287)%N || (c =? 96)%N.

Definition is_double_quote_variant (c : char) : bool :=
  (c =? 8220)%N || (c =? 8221)%N || (c =? 8222)%N || (c =? 8223)%N
  || (c =? 8243)%N || (c =? 171)%N || (c =? 187)%N || (c =? 65282)%N.

Definition normalizeQuotes (s : jsstring) : jsstring :=
  replace_class is_double_quote_variant 34%N
    (replace_class is_single_quote_variant 39%N s).

(** The replacement table of [normalizeText], in the order of the object
    literal. *)
Definition replacements : list (char * char) :=
  [ (8220, 34); (8221, 34); (8216, 39); (8217, 39); (8212, 45); (8211, 45) ]%N.

Definition normalizeText (text : jsstring) : jsstring :=
  fold_left (fun t '(old, newChar) => replace_class (N.eqb old) newChar t)
            replacements text.

Definition is_apostrophe (c : char) : bool := (c =? 39)%N.

(** [t.replace(/^'+|'+$/g, '')] *)
Definition strip_apostrophes (t : jsstring) : jsstring :=
  drop_while_end is_apostrophe (drop_while is_apostrophe t).

Definition wordsOnlyLower (s : jsstring) : list jsstring :=
  let txt := normalizeQuotes (toLowerCase s) in
  let toks := runs (fun c => is_lower c || is_apostrophe c) txt in
  List.filter (fun t => 0 <? length t) (List.map strip_apostrophes toks).

Fixpoint all_lower (t : jsstring) : bool :=
  match t with
  | [] => true
  | c :: t' => is_lower c && all_lower t'
  end.

(** [/^[a-z]+(?:'[a-z]+)?$/.test(t)] *)
Fixpoint alpha_re (t : jsstring) : bool :=
  match t with
  | [] => false
  | c :: t' =>
      is_lower c &&
      match t' with
      | [] => true
      | d :: t'' =>
          if is_apostrophe d
          then (match t'' with [] => false | _ => all_lower t'' end)
          else alpha_re t'
      end
  end.

Definition alphaTokens (tokens : list jsstring) : list jsstring :=
  List.filter alpha_re tokens.

(** *** sentenceSpans *)

Definition is_terminator (c : char) : bool :=
  (c =? 46)%N || (c =? 33)%N || (c =? 63)%N.     (* . ! ? *)

(** [/[^.!?]*[.!?]/] tried at the head of [s]: the length of the match.
    The star takes every non-terminator it finds, and giving units back
    cannot help, since a unit given back is not a terminator. *)
Fixpoint sentSplit_here (s : jsstring) : option nat :=
  match s with
  | [] => None
  | c :: s' =>
      if is_terminator c then Some 1
      else option_map S (sentSplit_here s')
  end.

(** The leftmost match in [s], whose head sits at offset [idx]. *)
Fixpoint sentSplit_search (s : jsstring) (idx : nat) : option (nat * nat) :=
  match sentSplit_here s with
  | Some len => Some (idx, len)
  | None =>
      match s with
      | [] => None
      | _ :: s' => sentSplit_search s' (S idx)
      end
  end.

(** [sentSplit.exec(text)] with [sentSplit.lastIndex = lastIndex]. *)
Definition sentSplit_exec (text : jsstring) (lastIndex : nat)
  : option (nat * nat) :=
  if length text <? lastIndex then None
  else sentSplit_search (drop lastIndex text) lastIndex.

(** The [while] loop; it returns [spans] and [lastEnd]. *)
Fixpoint sentenceSpans_loop (fuel : nat) (text : jsstring) (lastIndex : nat)
    (spans : list (nat * nat)) (lastEnd : nat) : list (nat * nat) * nat :=
  match fuel with
  | 0 => (spans, lastEnd)
  | S fuel' =>
      match sentSplit_exec text lastIndex with
      | Some (index, len) =>
          sentenceSpans_loop fuel' text (index + len)
            (spans ++ [(index, index + len)]) (index + len)
      | None => (spans, lastEnd)
      end
  end.

Definition sentenceSpans (text : jsstring) : list (nat * nat) :=
  let '(spans, lastEnd) :=
    sentenceSpans_loop (S (length text)) text 0 [] 0 in
  if lastEnd <? length text then spans ++ [(lastEnd, length text)]
  else spans.

(** [(m.get(x) || 0) + 1] written back under [x]. *)
Definition bump (m : list (jsstring * nat)) (x : jsstring)
  : list (jsstring * nat) :=
  OrdMap.set m x (default 0 (OrdMap.get m x) + 1).

Definition countItems (arr : list jsstring) : list (jsstring * nat) :=
  fold_left bump arr [].

(** The loop runs for [i = 0 .. words.length - n]. *)
Definition getNgrams (words : list jsstring) (n : nat) : list jsstring :=
  List.map (fun i => join (lit " ") (slice words i (i + n)))
           (seq 0 (length words + 1 - n)).

End WithHost.
End Utils.

(** ** lib/wordfreq.ts *)

(** A call that returns [a] or throws [e]. *)
Inductive result (E A : Type) : Type :=
| Ok (a : A)
| Throw (e : E).
Arguments Ok {E A} a.
Arguments Throw {E A} e.

Module Wordfreq.

Record WordfreqEn := {
  wf_map : gmap jsstring Q;     (* word -> zipf *)
  minZipf : Q                   (* default for OOV *)
}.

(** What [zipfFrequency] may be handed: [string | null | undefined]. *)
Inductive ZipfInput :=
| InNull
| InUndefined
| InString (s : jsstring).

Record MsgpackHeader := { format : jsstring; version : Z }.

(** The decoded file: [data[0]] (absent when it is not a header object)
    and [data.slice(1)], each bin a word list or [null]. *)
Record Cbpack := {
  header : option MsgpackHeader;
  bins : list (option (list jsstring))
}.

Section WithHost.
Context `{Host}.

Definition uncurlQuotes (s : jsstring) : jsstring :=
  replace_class (N.eqb 8221) 34%N
    (replace_class (N.eqb 8220) 34%N
       (replace_class (N.eqb 8217) 39%N
          (replace_class (N.eqb 8216) 39%N s))).

(** [toLocaleLowerCase('en')] is the locale-independent mapping. *)
Definition normalizeWord_en (s : jsstring) : jsstring :=
  trim (toLowerCase (uncurlQuotes s)).

(** The class between two alphanumeric runs of [WORD_RE]: apostrophe or
    hyphen. *)
Definition is_joiner (c : char) : bool := (c =? 39)%N || (c =? 45)%N.

(** [text.match(WORD_RE)], with
    [WORD_RE = /[A-Za-z0-9]+(?:['-][A-Za-z0-9]+)*/g]; [cur] is the match
    under construction, which always ends in an alphanumeric unit. *)
Fixpoint word_re_aux (s : jsstring) (cur : jsstring) : list jsstring :=
  match s with
  | [] => match cur with [] => [] | _ => [cur] end
  | c :: s' =>
      if is_alnum c then word_re_aux s' (cur ++ [c])
      else
        match cur with
        | [] => word_re_aux s' []
        | _ =>
            if is_joiner c
               && match s' with d :: _ => is_alnum d | [] => false end
            then word_re_aux s' (cur ++ [c])
            else cur :: word_re_aux s' []
        end
  end.

Definition word_re (text : jsstring) : list jsstring := word_re_aux text [].

(** [Math.min(z, v)] where [z] may still be [Infinity] ([None]). *)
Definition min_inf (z : option Q) (v : Q) : option Q :=
  Some (match z with None => v | Some z' => Qmin z' v end).

Definition combineZipfSimple (tokens : list jsstring)
    (getZipf : jsstring -> Q) : Q :=
  match tokens with
  | [] => 0
  | _ =>
      match fold_left (fun z t => min_inf z (getZipf t)) tokens None with
      | Some z => z
      | None => 0
      end
  end%Q.

Definition getOr (wf : WordfreqEn) (w : jsstring) : Q :=
  default (minZipf wf) (wf_map wf !! w).

Definition zipfFrequency (wf : WordfreqEn) (input : ZipfInput) : Q :=
  match input with
  | InString ((_ :: _) as s) =>
      let text := normalizeWord_en s in
      let tokens := word_re text in
      if 1 <? length tokens then combineZipfSimple tokens (getOr wf)
      else getOr wf text
  | _ => 0%Q
  end.

Definition frequency (wf : WordfreqEn) (input : jsstring) : Q :=
  let zipf := zipfFrequency wf (InString input) in
  if Qle_bool zipf 0 then 0%Q else pow10 (zipf - 9)%Q.

Definition getFrequency := frequency.
Definition getZipf (wf : WordfreqEn) (input : jsstring) : Q :=
  zipfFrequency wf (InString input).

(** [cB = -i; zipf = (cB + 900) / 100.0] *)
Definition zipf_of_bin (i : nat) : Q :=
  ((inject_Z (- Z.of_nat i) + 900) / 100)%Q.

Definition set_words (words : list jsstring) (zipf : Q)
    (map : gmap jsstring Q) : gmap jsstring Q :=
  fold_left (fun m w => <[w := zipf]> m) words map.

Fixpoint fill_bins (bins : list (option (list jsstring))) (i : nat)
    (map : gmap jsstring Q) : gmap jsstring Q :=
  match bins with
  | [] => map
  | words :: rest =>
      fill_bins rest (S i)
        match words with
        | Some ((_ :: _) as ws) => set_words ws (zipf_of_bin i) map
        | _ => map
        end
  end.

(** The message of an [Error] built from a template literal with one
    interpolation: the fixed text, and the value whose [JSON.stringify]
    follows it. *)
Record ErrorMessage := {
  fixed_text : jsstring;
  stringified : option MsgpackHeader
}.

(** [new Error(`Unexpected format: ${JSON.stringify(header)}`)] *)
Definition unexpected_format (header : option MsgpackHeader)
  : ErrorMessage :=
  {| fixed_text := lit "Unexpected format: "; stringified := header |}.

(** [loadWordfreq] after the file has been read, inflated and decoded. *)
Definition loadWordfreq (data : Cbpack) : result ErrorMessage WordfreqEn :=
  let header := header data in
  match header with
  | Some h =>
      if bool_decide (format h = lit "cB") && (version h =? 1)%Z
      then Ok {| wf_map := fill_bins (bins data) 0 ∅; minZipf := 0 |}
      else Throw (unexpected_format header)
  | None => Throw (unexpected_format header)
  end.

End WithHost.
End Wordfreq.

(** ** lib/pos-tagger.ts *)

Module PosTagger.

Inductive PosType := verb | noun | adj | adv | all.

Definition VERB_TAGS : list jsstring :=
  List.map lit ["VB"; "VBD"; "VBG"; "VBN"; "VBP"; "VBZ"]%string.
Definition NOUN_TAGS : list jsstring :=
  List.map lit ["NN"; "NNS"; "NNP"; "NNPS"]%string.
Definition ADJ_TAGS : list jsstring :=
  List.map lit ["JJ"; "JJR"; "JJS"]%string.
Definition ADV_TAGS : list jsstring :=
  List.map lit ["RB"; "RBR"; "RBS"]%string.

Definition has (tags : list jsstring) (t : jsstring) : bool :=
  bool_decide (t ∈ tags).

(** [[streamStart, streamEnd, rawStart, rawEnd]] *)
Definition piece := (nat * nat * nat * nat)%type.

Record TagStreamResult := {
  stream : jsstring;
  pieces : list piece
}.

(** [tagger] is a module constant initialised at import. *)
Definition hasPosTagger : bool := true.

(** The token as it is written to the stream. *)
Definition tag_out (posType : PosType) (token : TaggedToken) : jsstring :=
  let value := tok_value token in
  match tok_pos token with
  | Some ((_ :: _) as posTag) =>
      match posType with
      | verb => if has VERB_TAGS posTag then lit "VERB" else value
      | noun => if has NOUN_TAGS posTag then lit "NOUN" else value
      | adj => if has ADJ_TAGS posTag then lit "ADJ" else value
      | adv => if has ADV_TAGS posTag then lit "ADV" else value
      | all =>
          if has VERB_TAGS posTag then lit "VERB"
          else if has NOUN_TAGS posTag then lit "NOUN"
          else if has ADJ_TAGS posTag then lit "ADJ"
          else if has ADV_TAGS posTag then lit "ADV"
          else value
      end
  | _ => value
  end.

Section WithHost.
Context `{Host}.

(** The [for] loop of [tagStreamWithOffsets] over the tokens still to
    come. *)
Fixpoint tag_loop (text : jsstring) (posType : PosType)
    (tagged : list TaggedToken) (parts : list jsstring)
    (pieces : list piece) (streamPos rawPos : nat)
  : list jsstring * list piece :=
  match tagged with
  | [] => (parts, pieces)
  | token :: rest =>
      let value := tok_value token in
      match indexOf text value rawPos with
      | None =>
          tag_loop text posType rest parts pieces streamPos
                   (rawPos + length value)
      | Some tokenStart =>
          let out := tag_out posType token in
          let outLen := length out in
          let parts := parts ++ [out] in
          let pieces :=
            pieces ++ [(streamPos, streamPos + outLen,
                        tokenStart, tokenStart + length value)] in
          let streamPos := streamPos + outLen in
          let rawPos := tokenStart + length value in
          match rest with
          | [] => tag_loop text posType rest parts pieces streamPos rawPos
          | nextToken :: _ =>
              match indexOf text (tok_value nextToken) rawPos with
              | Some nextPos =>
                  if rawPos <? nextPos then
                    let whitespace := substring text rawPos nextPos in
                    tag_loop text posType rest (parts ++ [whitespace])
                      (pieces ++ [(streamPos, streamPos + length whitespace,
                                   rawPos, nextPos)])
                      (streamPos + length whitespace) nextPos
                  else
                    tag_loop text posType rest (parts ++ [lit " "])
                      (pieces ++ [(streamPos, streamPos + 1, rawPos, rawPos)])
                      (streamPos + 1) rawPos
              | None =>
                  tag_loop text posType rest (parts ++ [lit " "])
                    (pieces ++ [(streamPos, streamPos + 1, rawPos, rawPos)])
                    (streamPos + 1) rawPos
              end
          end
      end
  end.

Definition tagStreamWithOffsets (text : jsstring) (posType : PosType)
  : TagStreamResult :=
  match trim text with
  | [] => {| stream := []; pieces := [] |}
  | _ =>
      let tagged := tagSentence text in
      let '(parts, pieces) := tag_loop text posType tagged [] [] 0 0 in
      {| stream := join [] parts; pieces := pieces |}
  end.

End WithHost.
End PosTagger.

(** ** lib/contrast-detector.ts *)

Module ContrastDetector.
Import Utils PosTagger.

Record ContrastMatch := {
  sentence : jsstring;
  cm_pattern_name : jsstring;
  cm_match_text : jsstring;
  sentence_count : nat
}.

(** A compiled regular expression of the two registries, seen through
    what the detector asks of it: its [global] flag, the matches of
    [text.matchAll(re)] as (index, matched text) and the first match of
    [text.match(re)]. *)
Record RegExp := {
  re_global : bool;
  re_matchAll : jsstring -> list (nat * jsstring);
  re_match : jsstring -> option (nat * jsstring)
}.

Fixpoint bisectRight_loop (fuel : nat) (arr : list nat) (val lo hi : nat)
  : nat :=
  match fuel with
  | 0 => lo
  | S fuel' =>
      if lo <? hi then
        let mid := (lo + hi) / 2 in
        match arr !! mid with
        | Some x =>
            if x <=? val then bisectRight_loop fuel' arr val (mid + 1) hi
            else bisectRight_loop fuel' arr val lo mid
        | None => bisectRight_loop fuel' arr val lo mid
        end
      else lo
  end.

Definition bisectRight (arr : list nat) (val : nat) : nat :=
  bisectRight_loop (length arr) arr val 0 (length arr).

Fixpoint bisectLeft_loop (fuel : nat) (arr : list nat) (val lo hi : nat)
  : nat :=
  match fuel with
  | 0 => lo
  | S fuel' =>
      if lo <? hi then
        let mid := (lo + hi) / 2 in
        match arr !! mid with
        | Some x =>
            if x <? val then bisectLeft_loop fuel' arr val (mid + 1) hi
            else bisectLeft_loop fuel' arr val lo mid
        | None => bisectLeft_loop fuel' arr val lo mid
        end
      else lo
  end.

Definition bisectLeft (arr : list nat) (val : nat) : nat :=
  bisectLeft_loop (length arr) arr val 0 (length arr).

Definition coveredSentenceRange (spans : list (nat * nat)) (start e : nat)
  : option (nat * nat) :=
  if (length spans =? 0) || (e <=? start) then None
  else
    let starts := List.map fst spans in
    let ends := List.map snd spans in
    let lo := bisectRight ends start in
    let hi := (Z.of_nat (bisectLeft starts e) - 1)%Z in
    if (length spans <=? lo) || (hi <? 0)%Z || (hi <? Z.of_nat lo)%Z
    then None
    else Some (lo, Z.to_nat hi).

Record CandidateInterval := {
  lo : nat;
  hi : nat;
  raw_start : nat;
  raw_end : nat;
  pattern_name : jsstring;
  match_text : jsstring
}.

(** The comparator handed to [sort]. *)
Definition cmp_interval (a b : CandidateInterval) : Z :=
  if negb (lo a =? lo b) then (Z.of_nat (lo a) - Z.of_nat (lo b))%Z
  else if negb (hi a =? hi b) then (Z.of_nat (hi a) - Z.of_nat (hi b))%Z
  else (Z.of_nat (raw_start a) - Z.of_nat (raw_start b))%Z.

Definition extend (cur it : CandidateInterval) : CandidateInterval :=
  {| lo := lo cur;
     hi := Nat.max (hi cur) (hi it);
     raw_start := raw_start cur;
     raw_end := Nat.max (raw_end cur) (raw_end it);
     pattern_name := pattern_name cur;
     match_text := match_text cur |}.

(** The [for] loop of [mergeIntervals] over [itemsSorted[1..]]. *)
Fixpoint merge_loop (items : list CandidateInterval)
    (cur : CandidateInterval) (merged : list CandidateInterval)
  : list CandidateInterval :=
  match items with
  | [] => merged ++ [cur]
  | it :: rest =>
      if lo it <=? hi cur then merge_loop rest (extend cur it) merged
      else merge_loop rest it (merged ++ [cur])
  end.

Definition mergeIntervals (items : list CandidateInterval)
  : list CandidateInterval :=
  match sort (fun a b => (cmp_interval a b <=? 0)%Z) items with
  | [] => []
  | first :: rest => merge_loop rest first []
  end.

Section WithHost.
Context `{Host}.

(** The two registries, [regexes-stage1.ts] and [regexes-stage2.ts], as
    the list [Object.entries] enumerates. *)
Variable STAGE1_REGEXES : list (jsstring * RegExp).
Variable STAGE2_REGEXES : list (jsstring * RegExp).

(** [pregex.global ? Array.from(s.matchAll(pregex)) : (m ? [m] : [])] *)
Definition regex_matches (pregex : RegExp) (s : jsstring)
  : list (nat * jsstring) :=
  if re_global pregex then re_matchAll pregex s
  else match re_match pregex s with
       | Some m => [m]
       | None => []
       end.

Definition stage1_candidates (tNorm : jsstring) (spans : list (nat * nat))
  : list CandidateInterval :=
  flat_map (fun '(pname, pregex) =>
    flat_map (fun '(index, m0) =>
      let rs := index in
      let re := index + length m0 in
      match coveredSentenceRange spans rs re with
      | Some (lo, hi) =>
          [ {| lo := lo; hi := hi; raw_start := rs; raw_end := re;
               pattern_name := lit "S1_" ++ pname;
               match_text := trim m0 |} ]
      | None => []
      end) (regex_matches pregex tNorm)) STAGE1_REGEXES.

(** [Math.min(...xs)] and [Math.max(...xs)] of a non-empty array. *)
Definition min_of (x : nat) (xs : list nat) : nat := fold_left Nat.min xs x.
Definition max_of (x : nat) (xs : list nat) : nat := fold_left Nat.max xs x.

(** The slice is never empty once the guard [j < i] has been passed; the
    last case is there for totality only. *)
Definition streamToRaw (pieces : list piece) (ss se : nat)
  : option (nat * nat) :=
  let streamStarts := List.map (fun p : piece => p.1.1.1) pieces in
  let streamEnds := List.map (fun p : piece => p.1.1.2) pieces in
  let i := bisectRight streamEnds ss in
  let j := (Z.of_nat (bisectLeft streamStarts se) - 1)%Z in
  if (length pieces <=? i) || (j <? Z.of_nat i)%Z then None
  else
    let sl := slice pieces i (Z.to_nat (j + 1)) in
    match List.map (fun p : piece => p.1.2) sl,
          List.map (fun p : piece => p.2) sl with
    | s0 :: ss', e0 :: es' => Some (min_of s0 ss', max_of e0 es')
    | _, _ => None
    end.

Definition stage2_candidates (tNorm : jsstring) (spans : list (nat * nat))
  : list CandidateInterval :=
  if hasPosTagger && (0 <? length STAGE2_REGEXES) then
    let r := tagStreamWithOffsets tNorm verb in
    flat_map (fun '(pname, pregex) =>
      flat_map (fun '(index, m0) =>
        match streamToRaw (pieces r) index (index + length m0) with
        | Some (rs, re) =>
            match coveredSentenceRange spans rs re with
            | Some (lo, hi) =>
                [ {| lo := lo; hi := hi; raw_start := rs; raw_end := re;
                     pattern_name := lit "S2_" ++ pname;
                     match_text := trim (substring tNorm rs re) |} ]
            | None => []
            end
        | None => []
        end) (regex_matches pregex (stream r))) STAGE2_REGEXES
  else [].

Definition candidates (text : jsstring) : list CandidateInterval :=
  let tNorm := normalizeText text in
  let spans := sentenceSpans tNorm in
  stage1_candidates tNorm spans ++ stage2_candidates tNorm spans.

(** [const merged = mergeIntervals(candidates)] *)
Definition merged_groups (text : jsstring) : list CandidateInterval :=
  mergeIntervals (candidates text).

(** [spans[i]]; the indices of a merged group are indices of [spans]
    (lemma [merged_groups_in_range]), so the default is never read. *)
Definition span_at (spans : list (nat * nat)) (i : nat) : nat * nat :=
  default (0, 0) (spans !! i).

Definition build_result (tNorm : jsstring) (spans : list (nat * nat))
    (it : CandidateInterval) : ContrastMatch :=
  let sLo := lo it in
  let sHi := hi it in
  let sentenceSpan := sHi - sLo + 1 in
  let blockStart := fst (span_at spans sLo) in
  let blockEnd := snd (span_at spans sHi) in
  {| sentence := trim (substring tNorm blockStart blockEnd);
     cm_pattern_name := pattern_name it;
     cm_match_text := match_text it;
     sentence_count := sentenceSpan |}.

Definition extractContrastMatches (text : jsstring) : list ContrastMatch :=
  let tNorm := normalizeText text in
  let spans := sentenceSpans tNorm in
  List.map (build_result tNorm spans) (merged_groups text).

Record ContrastResult := {
  hits : nat;
  chars : nat;
  rate_per_1k : Q;
  matches : list ContrastMatch
}.

Definition scoreText (text : jsstring) : ContrastResult :=
  let hits := extractContrastMatches text in
  let chars := length text in
  let rate :=
    if 0 <? chars
    then (inject_Z (Z.of_nat (length hits)) * 1000
          / inject_Z (Z.of_nat chars))%Q
    else 0%Q in
  {| hits := length hits; chars := chars; rate_per_1k := rate;
     matches := hits |}.

End WithHost.
End ContrastDetector.

(** ** lib/metrics.ts *)

Module Metrics.
Import Utils Wordfreq ContrastDetector.

(** NLTK English stopwords, as listed in the source. *)
Definition STOPWORDS : gset jsstring :=
  list_to_set (List.map lit [
    "i";"me";"my";"myself";"we";"our";"ours";"ourselves";"you";"your";"yours";
    "yourself";"yourselves";"he";"him";"his";"himself";"she";"her";"hers";"herself";
    "it";"its";"itself";"they";"them";"their";"theirs";"themselves";"what";"which";
    "who";"whom";"this";"that";"these";"those";"am";"is";"are";"was";"were";"be";
    "been";"being";"have";"has";"had";"having";"do";"does";"did";"doing";"a";"an";
    "the";"and";"but";"if";"or";"because";"as";"until";"while";"of";"at";"by";"for";
    "with";"about";"against";"between";"into";"through";"during";"before";"after";
    "above";"below";"to";"from";"up";"down";"in";"out";"on";"off";"over";"under";
    "again";"further";"then";"once";"here";"there";"when";"where";"why";"how";"all";
    "any";"both";"each";"few";"more";"most";"other";"some";"such";"no";"nor";"not";
    "only";"own";"same";"so";"than";"too";"very";"s";"t";"can";"will";"just";"don";
    "should";"now" ]%string).

(** Known contractions that should not have ['s] removed. *)
Definition KNOWN_CONTRACTIONS_S : gset jsstring :=
  list_to_set (List.map lit [
    "it's"; "that's"; "what's"; "who's"; "he's"; "she's";
    "there's"; "here's"; "where's"; "when's"; "why's"; "how's";
    "let's" ]%string).

(** The module-level state, passed explicitly. *)
Record Stores := {
  wordfreq : option WordfreqEn;
  humanBigramFreq : gmap jsstring Q;
  humanTrigramFreq : gmap jsstring Q;
  slopWords : gset jsstring;
  slopBigrams : gset jsstring;
  slopTrigrams : gset jsstring
}.

(** One entry of [top_bigrams] / [top_trigrams] in the parsed profile;
    [None] is an absent (or, for the frequency, non-numeric) field. *)
Record ProfileEntry := {
  ngram : option jsstring;
  pe_frequency : option Q
}.

Record Profile := {
  top_bigrams : option (list ProfileEntry);
  bigrams : option (list ProfileEntry);
  top_trigrams : option (list ProfileEntry);
  trigrams : option (list ProfileEntry)
}.

(** The parsed JSON [j]: its ["human-authored"] and ["human"] members and
    its own n-gram lists. *)
Record ProfileFile := {
  human_authored : option Profile;
  human : option Profile;
  root : Profile
}.

Record SlopIndexResult := {
  wordScore : Q;
  trigramScore : Q;
  wordHits : option (list (jsstring * nat));
  trigramHits : option (list (jsstring * nat))
}.

Record LexicalDiversity := {
  mattr_500 : Q;
  type_token_ratio : Q;
  unique_words : nat;
  ld_total_words : nat
}.

Record MetricsBlock := {
  slop_words_per_1k : Q;
  slop_trigrams_per_1k : Q;
  ngram_repetition_score : Q;
  not_x_but_y_per_1k_chars : Q;
  lexical_diversity : LexicalDiversity;
  vocab_level : Q;
  avg_sentence_length : Q;
  avg_paragraph_length : Q;
  dialogue_frequency : Q
}.

Record OverRep := { or_phrase : jsstring; or_ratio : Q; or_count : nat }.

Record TopOverRepresented := {
  tor_words : list OverRep;
  tor_bigrams : list OverRep;
  tor_trigrams : list OverRep
}.

Record AnalyzeOptions := {
  file : jsstring;
  includeWordHits : bool;
  includeTrigramHits : bool;
  includeOverRepresented : bool;
  includeContrastMatches : bool
}.

(** An optional field that was not assigned is [None]. *)
Record AnalyzeResult := {
  ar_file : jsstring;
  total_chars : nat;
  total_words : nat;
  slop_score : Q;
  metrics : MetricsBlock;
  slop_word_hits : option (list (jsstring * nat));
  slop_trigram_hits : option (list (jsstring * nat));
  top_over_represented : option TopOverRepresented;
  contrast_matches : option (list ContrastMatch)
}.

Record Range := { rmin : Q; rmax : Q }.

(** Normalization ranges computed from leaderboard_results.json. *)
Definition slop_words_range : Range :=
  {| rmin := 2.1214882577844882; rmax := 43.924784489934034 |}.
Definition slop_trigrams_range : Range :=
  {| rmin := -0.027052241145113065; rmax := 1.2293612202273094 |}.
Definition contrast_range : Range :=
  {| rmin := -0.0323480255696472; rmax := 0.8881555162544392 |}.

Definition normalizeValue (value : Q) (range : Range) : Q :=
  let normalized := ((value - rmin range) / (rmax range - rmin range))%Q in
  Qmax 0 (Qmin 1 normalized).

Definition computeSlopScore (wordScore trigramScore contrastRate : Q) : Q :=
  let normWords := normalizeValue wordScore slop_words_range in
  let normTrigrams := normalizeValue trigramScore slop_trigrams_range in
  let normContrast := normalizeValue contrastRate contrast_range in
  ((normWords * 0.6 + normContrast * 0.25 + normTrigrams * 0.15) * 100)%Q.

(** *** loadHumanProfile *)
Section WithHost.
Context `{Host}.

(** [Number(it.frequency) || 0] *)
Definition freq_of (it : ProfileEntry) : Q := default 0%Q (pe_frequency it).

Definition list_total (list : list ProfileEntry) : Q :=
  fold_left (fun total it => (total + freq_of it)%Q) list 0%Q.

(** [String(it.ngram || "").toLowerCase().match(/[a-z]+/g)] *)
Definition ngram_tokens (it : ProfileEntry) : list jsstring :=
  runs is_lower (toLowerCase (default [] (ngram it))).

(** The second loop of [norm]. *)
Definition norm_step (total : Q) (targetMap : gmap jsstring Q)
    (it : ProfileEntry) : gmap jsstring Q :=
  let toks := ngram_tokens it in
  if length toks <? 2 then targetMap
  else <[ join (lit " ") toks := (freq_of it / total)%Q ]> targetMap.

(** [norm] on numbers without rounding. Its guard and its quotients are
    those of the code when no frequency is negative; for the other lists
    see [HumanProfile.norm], the same function in the arithmetic of the
    runtime. *)
Definition norm (list : list ProfileEntry) (targetMap : gmap jsstring Q)
  : gmap jsstring Q :=
  let total := list_total list in
  if Qle_bool total 0 then targetMap
  else fold_left (norm_step total) list targetMap.

(** [a || b || []] on two optional arrays (an empty array is truthy). *)
Definition first_list (a b : option (list ProfileEntry))
  : list ProfileEntry :=
  match a with
  | Some l => l
  | None => default [] b
  end.

(** [loadHumanProfile] after the file has been read, inflated and parsed. *)
(** [j["human-authored"] || j["human"] || j] *)
Definition select_profile (j : ProfileFile) : Profile :=
  match human_authored j with
  | Some p => p
  | None => default (root j) (human j)
  end.

Definition loadHumanProfile (st : Stores) (j : ProfileFile) : Stores :=
  let hp := select_profile j in
  {| wordfreq := wordfreq st;
     humanBigramFreq := norm (first_list (top_bigrams hp) (bigrams hp)) ∅;
     humanTrigramFreq := norm (first_list (top_trigrams hp) (trigrams hp)) ∅;
     slopWords := slopWords st;
     slopBigrams := slopBigrams st;
     slopTrigrams := slopTrigrams st |}.

(** *** Lookups in the frequency table *)

Definition lookupZipf (st : Stores) (word : jsstring) : option Q :=
  match wordfreq st with
  | None => None
  | Some wf =>
      let zipf := zipfFrequency wf (InString word) in
      if Qlt_bool 0 zipf then Some zipf else None
  end.

Definition lookupFrequency (st : Stores) (word : jsstring) : option Q :=
  match wordfreq st with
  | None => None
  | Some wf =>
      let freq := frequency wf word in
      if Qlt_bool 0 freq then Some freq else None
  end.

(** [word.endsWith("'s")] together with [word.slice(0, -2)]. *)
Definition strip_possessive (word : jsstring) : option jsstring :=
  match rev word with
  | s :: q :: rest =>
      if (s =? 115)%N && (q =? 39)%N then Some (rev rest) else None
  | _ => None
  end.

Definition add_count (merged : list (jsstring * nat)) (k : jsstring)
    (count : nat) : list (jsstring * nat) :=
  OrdMap.set merged k (default 0 (OrdMap.get merged k) + count).

Definition mergePossessives (wordCounts : list (jsstring * nat))
  : list (jsstring * nat) :=
  fold_left (fun merged '(word, count) =>
    match strip_possessive word with
    | Some ((_ :: _) as baseWord) =>
        if bool_decide (word ∈ KNOWN_CONTRACTIONS_S)
        then add_count merged word count
        else add_count merged baseWord count
    | _ => add_count merged word count
    end) wordCounts [].

(** *** computeSlopIndex *)

(** One iteration of a hit-counting loop: the running count and the hit
    map ([null] when hits are not tracked). *)
Definition hit_step (lexicon : gset jsstring) (trackHits : bool)
    (acc : nat * option (list (jsstring * nat))) (t : jsstring)
  : nat * option (list (jsstring * nat)) :=
  if bool_decide (t ∈ lexicon) then
    (S acc.1,
     match acc.2 with
     | Some m => if trackHits then Some (bump m t) else Some m
     | None => None
     end)
  else acc.

(** [tokens[i] + " " + tokens[i + 1] + " " + tokens[i + 2]] for
    [i = 0 .. n - 3]. *)
Fixpoint trigram_windows (tokens : list jsstring) : list jsstring :=
  match tokens with
  | a :: rest =>
      match rest with
      | b :: c :: _ =>
          (a ++ lit " " ++ b ++ lit " " ++ c) :: trigram_windows rest
      | _ => []
      end
  | [] => []
  end.

(** [Array.from(m.entries()).sort((a, b) => b[1] - a[1])] *)
Definition sort_hits (m : list (jsstring * nat)) : list (jsstring * nat) :=
  sort (fun a b => (Z.of_nat b.2 - Z.of_nat a.2 <=? 0)%Z) (OrdMap.entries m).

Definition computeSlopIndex (st : Stores) (tokens : list jsstring)
    (trackHits : bool) : SlopIndexResult :=
  let n := length tokens in
  if n =? 0 then
    {| wordScore := 0; trigramScore := 0;
       wordHits := None; trigramHits := None |}
  else
    let fresh : option (list (jsstring * nat)) :=
      if trackHits then Some [] else None in
    let '(wordHitCount, wordHitMap) :=
      if 0 <? size (slopWords st)
      then fold_left (hit_step (slopWords st) trackHits) tokens (0, fresh)
      else (0, fresh) in
    let '(triHitCount, triHitMap) :=
      if (0 <? size (slopTrigrams st)) && (3 <=? n)
      then fold_left (hit_step (slopTrigrams st) trackHits)
                     (trigram_windows tokens) (0, fresh)
      else (0, fresh) in
    let wordScore := (num wordHitCount / num n * 1000)%Q in
    let trigramScore := (num triHitCount / num n * 1000)%Q in
    if trackHits then
      {| wordScore := wordScore; trigramScore := trigramScore;
         wordHits := Some (from_option sort_hits [] wordHitMap);
         trigramHits := Some (from_option sort_hits [] triHitMap) |}
    else
      {| wordScore := wordScore; trigramScore := trigramScore;
         wordHits := None; trigramHits := None |}.

Definition contentTokens (tokens : list jsstring) : list jsstring :=
  List.filter (fun t => alpha_re t && negb (bool_decide (t ∈ STOPWORDS)))
              tokens.

Definition makeNgrams (tokens : list jsstring) (n : nat) : list jsstring :=
  getNgrams tokens n.

(** *** rankOveruseWithCounts *)

Definition sum_counts (m : list (jsstring * nat)) : nat :=
  fold_left (fun a b => a + b) (OrdMap.values m) 0.

(** The smallest positive value of the table; [None] is [Infinity]. *)
Definition min_positive (humanFreqMap : gmap jsstring Q) : option Q :=
  map_fold (fun _ v minHuman =>
    if Qlt_bool 0 v
       && match minHuman with None => true | Some m => Qlt_bool v m end
    then Some v else minHuman) None humanFreqMap.

Definition tiny : Q := 1 # 1000000000000.       (* 1e-12 *)

(** The ratio is the quotient of the code as long as the divisor
    [human_f + 1e-12] is not 0, as it is for a table without a negative
    frequency; on a divisor 0 the code has [Infinity], which [Q] has
    not. *)
Definition rankOveruseWithCounts (ngrams : list jsstring)
    (humanFreqMap : gmap jsstring Q) (topK : nat)
  : list (jsstring * Q * nat) :=
  if length ngrams =? 0 then []
  else
    let counts := countItems ngrams in
    let total := match sum_counts counts with 0 => 1 | t => t end in
    let minHuman := default tiny (min_positive humanFreqMap) in
    let rows :=
      List.map (fun '(ng, cnt) =>
        let model_f := (num cnt / num total)%Q in
        let human_f := default minHuman (humanFreqMap !! ng) in
        let ratio := (model_f / (human_f + tiny))%Q in
        (ng, ratio, cnt)) (OrdMap.entries counts) in
    slice (sort (fun a b => Qle_bool (b.1.2 - a.1.2) 0) rows) 0 topK.

(** *** Lexical diversity *)

(** [new Set(tokens).size] *)
Definition unique_count (tokens : list jsstring) : nat :=
  length (remove_dups tokens).

(** The window ratios are added without rounding, and [windowSize] is
    meant positive: for 0 the code divides 0 by 0. *)
Definition computeMATTR (tokens : list jsstring) (windowSize : nat) : Q :=
  let totalWords := length tokens in
  if totalWords =? 0 then 0%Q
  else
    let simpleTTR := (num (unique_count tokens) / num totalWords)%Q in
    if windowSize <=? totalWords then
      let '(sumTTR, windowCount) :=
        fold_left (fun '(sumTTR, windowCount) i =>
          let windowTokens := slice tokens i (i + windowSize) in
          let windowTTR :=
            (num (unique_count windowTokens) / num windowSize)%Q in
          ((sumTTR + windowTTR)%Q, S windowCount))
          (seq 0 (totalWords - windowSize + 1)) (0%Q, 0) in
      (sumTTR / num windowCount)%Q
    else simpleTTR.

Definition computeLexicalDiversity (tokens : list jsstring)
  : LexicalDiversity :=
  let totalWords := length tokens in
  if totalWords =? 0 then
    {| mattr_500 := 0; type_token_ratio := 0; unique_words := 0;
       ld_total_words := 0 |}
  else
    {| mattr_500 := computeMATTR tokens 500;
       type_token_ratio := (num (unique_count tokens) / num totalWords)%Q;
       unique_words := unique_count tokens;
       ld_total_words := totalWords |}.

(** *** Readability and structure *)

(** [s.split(re)] for a regular expression that never matches the empty
    string: [here s] is the length of the match of [re] at the head of
    [s], if there is one; [skip] counts the units of the current match
    still to be passed over. *)
Fixpoint split_aux (here : jsstring -> option nat) (s : jsstring)
    (cur : jsstring) (skip : nat) : list jsstring :=
  match s with
  | [] => [cur]
  | c :: s' =>
      match skip with
      | S k => split_aux here s' cur k
      | 0 =>
          match here s with
          | Some (S len') => cur :: split_aux here s' [] len'
          | _ => split_aux here s' (cur ++ [c]) 0
          end
      end
  end.

Definition split (here : jsstring -> option nat) (s : jsstring)
  : list jsstring :=
  split_aux here s [] 0.

Fixpoint take_while (p : char -> bool) (s : jsstring) : jsstring :=
  match s with
  | [] => []
  | c :: s' => if p c then c :: take_while p s' else []
  end.

(** [/[.!?]+/] at the head of [s]. *)
Definition terminators_here (s : jsstring) : option nat :=
  match length (take_while is_terminator s) with
  | 0 => None
  | n => Some n
  end.

(** [/\n\s*\n/] at the head of [s]: a line feed, then white space up to
    the last line feed of the white-space run that follows. *)
Definition blank_line_here (s : jsstring) : option nat :=
  match s with
  | c :: s' =>
      if (c =? 10)%N then
        let w := take_while is_space s' in
        match drop_while (fun d => negb (d =? 10)%N) (rev w) with
        | [] => None
        | upto => Some (1 + length upto)
        end
      else None
  | [] => None
  end.

Definition nonblank (s : jsstring) : bool := 0 <? length (trim s).

(** [text.split(/[.!?]+/).filter(s => s.trim().length > 0)] *)
Definition sentences_of (text : jsstring) : list jsstring :=
  List.filter nonblank (split terminators_here text).

(** [text.match(/\b\w+\b/g) || []] *)
Definition words_of (text : jsstring) : list jsstring := runs is_word text.

Definition is_vowel (c : char) : bool :=
  (c =? 97)%N || (c =? 101)%N || (c =? 105)%N || (c =? 111)%N
  || (c =? 117)%N || (c =? 121)%N.                (* a e i o u y *)

(** [[^laeiouy]] *)
Definition not_l_vowel (c : char) : bool := negb ((c =? 108)%N || is_vowel c).

(** [word.replace(/(?:[^laeiouy]es|ed|[^laeiouy]e)$/, '')], read on the
    reversed word. *)
Definition strip_suffix (word : jsstring) : jsstring :=
  match rev word with
  | c1 :: c2 :: rest =>
      if (c1 =? 115)%N && (c2 =? 101)%N
         && match rest with x :: _ => not_l_vowel x | [] => false end
      then rev (tl rest)
      else if (c1 =? 100)%N && (c2 =? 101)%N then rev rest
      else if (c1 =? 101)%N && not_l_vowel c2 then rev rest
      else word
  | _ => word
  end.

(** [word.replace(/^y/, '')] *)
Definition strip_leading_y (word : jsstring) : jsstring :=
  match word with
  | c :: rest => if (c =? 121)%N then rest else word
  | [] => word
  end.

(** The number of matches of [/[aeiouy]{1,2}/g]. *)
Fixpoint vowel_groups (word : jsstring) : nat :=
  match word with
  | [] => 0
  | c :: rest =>
      if is_vowel c then
        match rest with
        | d :: rest' =>
            if is_vowel d then S (vowel_groups rest')
            else S (vowel_groups rest)
        | [] => 1
        end
      else vowel_groups rest
  end.

Definition countSyllables (word : jsstring) : nat :=
  let word := toLowerCase word in
  if length word <=? 3 then 1
  else
    let word := strip_leading_y (strip_suffix word) in
    match vowel_groups word with
    | 0 => 1
    | n => n
    end.

(** The value of [gradeLevel], computed once sentences and words are
    known to be there. *)
Definition gradeLevel (sentences words : list jsstring) : Q :=
  let totalSyllables :=
    fold_left (fun sum word => sum + countSyllables word) words 0 in
  let avgSyllablesPerWord := (num totalSyllables / num (length words))%Q in
  let avgWordsPerSentence :=
    (num (length words) / num (length sentences))%Q in
  (0.39 * avgWordsPerSentence + 11.8 * avgSyllablesPerWord - 15.59)%Q.

(** Flesch-Kincaid grade level. *)
Definition computeVocabLevel (text : jsstring) : Q :=
  let sentences := sentences_of text in
  let words := words_of text in
  if (length sentences =? 0) || (length words =? 0) then 0%Q
  else Qmax 0 (gradeLevel sentences words).

Definition computeAverageSentenceLength (text : jsstring) : Q :=
  let sentences := sentences_of text in
  let words := words_of text in
  if length sentences =? 0 then 0%Q
  else (num (length words) / num (length sentences))%Q.

Definition computeAverageParagraphLength (text : jsstring) : Q :=
  let paragraphs := List.filter nonblank (split blank_line_here text) in
  let words := words_of text in
  if length paragraphs =? 0 then 0%Q
  else (num (length words) / num (length paragraphs))%Q.

Definition is_double_quote (c : char) : bool :=
  (c =? 34)%N || (c =? 8220)%N || (c =? 8221)%N.

Definition computeDialogueFrequency (text : jsstring) : Q :=
  let quotes := length (List.filter is_double_quote text) in
  let chars := length text in
  if chars =? 0 then 0%Q
  else (num quotes / 2 / num chars * 1000)%Q.

(** *** analyzeText *)

Variable STAGE1_REGEXES : list (jsstring * RegExp).
Variable STAGE2_REGEXES : list (jsstring * RegExp).

Definition zero_metrics : MetricsBlock :=
  {| slop_words_per_1k := 0;
     slop_trigrams_per_1k := 0;
     ngram_repetition_score := 0;
     not_x_but_y_per_1k_chars := 0;
     lexical_diversity :=
       {| mattr_500 := 0; type_token_ratio := 0; unique_words := 0;
          ld_total_words := 0 |};
     vocab_level := 0;
     avg_sentence_length := 0;
     avg_paragraph_length := 0;
     dialogue_frequency := 0 |}.

(** [rows.reduce((s, r) => s + r[2], 0)] *)
Definition sum_row_counts (rows : list (jsstring * Q * nat)) : nat :=
  fold_left (fun s r => s + r.2) rows 0.

Definition to_overrep (row : jsstring * Q * nat) : OverRep :=
  {| or_phrase := row.1.1; or_ratio := row.1.2; or_count := row.2 |}.

(** The block guarded by [options.includeOverRepresented]. *)
Definition over_represented (st : Stores) (toksContent : list jsstring)
    (topBCounts topTCounts : list (jsstring * Q * nat))
  : TopOverRepresented :=
  let wordCounts := mergePossessives (countItems toksContent) in
  let totalWords := sum_counts wordCounts in
  let wordOverrep :=
    flat_map (fun '(w, cnt) =>
      match lookupFrequency st w with
      | None => []
      | Some baselineFreq =>
          let modelFreq := (num cnt / num totalWords)%Q in
          let ratio := (modelFreq / baselineFreq)%Q in
          if Qlt_bool 1.5 ratio && (2 <=? cnt)
          then [ {| or_phrase := w; or_ratio := ratio; or_count := cnt |} ]
          else []
      end) (OrdMap.entries wordCounts) in
  let sorted :=
    sort (fun a b => Qle_bool (or_ratio b - or_ratio a) 0) wordOverrep in
  {| tor_words := slice sorted 0 100;
     tor_bigrams := List.map to_overrep (slice topBCounts 0 100);
     tor_trigrams := List.map to_overrep (slice topTCounts 0 100) |}.

Definition analyzeText (st : Stores) (text : jsstring)
    (options : AnalyzeOptions) : AnalyzeResult :=
  let chars := length text in
  let toks0 := wordsOnlyLower text in
  let toks := alphaTokens toks0 in
  let nWords := length toks in
  if nWords =? 0 then
    {| ar_file := file options;
       total_chars := chars;
       total_words := 0;
       slop_score := 0;
       metrics := zero_metrics;
       slop_word_hits := None;
       slop_trigram_hits := None;
       top_over_represented := None;
       contrast_matches := None |}
  else
    let trackHits := includeWordHits options || includeTrigramHits options in
    let slopResult := computeSlopIndex st toks trackHits in
    let toksContent := contentTokens toks in
    let bigs := makeNgrams toksContent 2 in
    let tris := makeNgrams toksContent 3 in
    let topBCounts := rankOveruseWithCounts bigs (humanBigramFreq st) 40 in
    let topTCounts := rankOveruseWithCounts tris (humanTrigramFreq st) 40 in
    let top_bigram_count := sum_row_counts topBCounts in
    let top_trigram_count := sum_row_counts topTCounts in
    let content_word_count := length toksContent in
    let repetition_score :=
      if 0 <? content_word_count
      then (num (top_bigram_count + top_trigram_count)
            / num content_word_count * 1000)%Q
      else 0%Q in
    let contrastMatches :=
      extractContrastMatches STAGE1_REGEXES STAGE2_REGEXES text in
    let contrastRate :=
      if 0 <? chars
      then (num (length contrastMatches) / num chars * 1000)%Q
      else 0%Q in
    let lexicalDiversity := computeLexicalDiversity toks in
    let vocabLevel := computeVocabLevel text in
    let avgSentenceLength := computeAverageSentenceLength text in
    let avgParagraphLength := computeAverageParagraphLength text in
    let dialogueFrequency := computeDialogueFrequency text in
    let slopScore :=
      computeSlopScore (wordScore slopResult) (trigramScore slopResult)
                       contrastRate in
    {| ar_file := file options;
       total_chars := chars;
       total_words := nWords;
       slop_score := slopScore;
       metrics :=
         {| slop_words_per_1k := wordScore slopResult;
            slop_trigrams_per_1k := trigramScore slopResult;
            ngram_repetition_score := repetition_score;
            not_x_but_y_per_1k_chars := contrastRate;
            lexical_diversity := lexicalDiversity;
            vocab_level := vocabLevel;
            avg_sentence_length := avgSentenceLength;
            avg_paragraph_length := avgParagraphLength;
            dialogue_frequency := dialogueFrequency |};
       slop_word_hits :=
         if includeWordHits options
         then Some (default [] (wordHits slopResult)) else None;
       slop_trigram_hits :=
         if includeTrigramHits options
         then Some (default [] (trigramHits slopResult)) else None;
       top_over_represented :=
         if includeOverRepresented options
         then Some (over_represented st toksContent topBCounts topTCounts)
         else None;
       contrast_matches :=
         if includeContrastMatches options
         then Some (slice contrastMatches 0 100) else None |}.

End WithHost.
End Metrics.

(** A host for closed examples: case mapping of Basic Latin only, no
    tagger output, and a [pow10] that is not looked at. *)
Definition ascii_host : Host := {|
  toLowerCase := List.map (fun c => if is_upper c then (c + 32)%N else c);
  toLowerCase_empty := eq_refl;
  pow10 := fun _ => 0%Q;
  tagSentence := fun _ => []
|}.

(** ** lib/metrics.ts: [loadHumanProfile] in the arithmetic of the runtime

    Whether [norm] fills a table at all is decided by the sign of a sum of
    doubles, and what it stores are quotients of doubles. Rounding can
    change that sign, so here the numbers are those of the runtime, taken
    as a type with the three operations [norm] uses; they may be
    infinite or not a number. [Metrics.norm] is the same function on
    numbers without rounding. *)

Module Runtime.

Class Arith := {
  number : Type;
  (** the number that holds a value read from the file *)
  of_Q : Q -> number;
  (** [a + b] *)
  n_add : number -> number -> number;
  (** [a / b] *)
  n_div : number -> number -> number;
  (** [a <= b] *)
  n_le : number -> number -> bool
}.

(** Numbers without rounding. *)
Definition rational : Arith := {|
  number := Q;
  of_Q := fun q => q;
  n_add := Qplus;
  n_div := Qdiv;
  n_le := Qle_bool
|}.

End Runtime.

Module HumanProfile.
Import Runtime.
Section WithRuntime.
Context `{Host} `{Arith}.

(** [Number(it.frequency) || 0] *)
Definition freq_of (it : Metrics.ProfileEntry) : number :=
  of_Q (Metrics.freq_of it).

(** The first loop of [norm]. *)
Definition list_total (list : list Metrics.ProfileEntry) : number :=
  fold_left (fun total it => n_add total (freq_of it)) list (of_Q 0).

(** The second loop of [norm]. *)
Definition norm_step (total : number) (targetMap : gmap jsstring number)
    (it : Metrics.ProfileEntry) : gmap jsstring number :=
  let toks := Metrics.ngram_tokens it in
  if length toks <? 2 then targetMap
  else <[ join (lit " ") toks := n_div (freq_of it) total ]> targetMap.

Definition norm (list : list Metrics.ProfileEntry)
    (targetMap : gmap jsstring number) : gmap jsstring number :=
  let total := list_total list in
  if n_le total (of_Q 0) then targetMap
  else fold_left (norm_step total) list targetMap.

(** The two tables [loadHumanProfile] assigns, [humanBigramFreq] and
    [humanTrigramFreq], after the file has been read, inflated and
    parsed. *)
Definition loadHumanProfile (j : Metrics.ProfileFile)
  : gmap jsstring number * gmap jsstring number :=
  let hp := Metrics.select_profile j in
  (norm (Metrics.first_list (Metrics.top_bigrams hp) (Metrics.bigrams hp)) ∅,
   norm (Metrics.first_list (Metrics.top_trigrams hp) (Metrics.trigrams hp))
        ∅).

End WithRuntime.
End HumanProfile.

(** ** lib/utils.ts and lib/metrics.ts: exported helpers without a caller
    in the analysis *)

Module UtilsRest.

(** [topKEntries] on the entry array that each of its three input shapes
    (array, [Map], object) is first turned into. *)
Definition topKEntries (entries : list (jsstring * Q)) (k : nat)
    (keyTransform : jsstring -> jsstring) : list (jsstring * Q) :=
  let arr := sort (fun a b => Qle_bool (b.2 - a.2) 0) entries in
  List.map (fun '(w, v) => (keyTransform w, v)) (slice arr 0 k).

End UtilsRest.

Module MetricsRest.

(** [filterNumericWords] on the entries of the [Map] it is given. *)
Definition filterNumericWords (wordCounts : list (jsstring * nat))
  : list (jsstring * nat) :=
  fold_left (fun filtered '(word, count) =>
    let digitCount := length (List.filter is_digit word) in
    if (0 <? length word)
       && Qlt_bool 0.2 (num digitCount / num (length word))
    then filtered
    else OrdMap.set filtered word count) wordCounts [].

End MetricsRest.

(** * Specification predicates *)

Module Spec.
Import Utils Wordfreq ContrastDetector Metrics.

(** ** Sentence spans *)

(** [spans] tiles the half-open range from [from] to [upto]: the first
    span starts at [from], every span is non-empty and starts where the
    one before it ends, and the last one ends at [upto]. *)
Fixpoint tiles (from upto : nat) (spans : list (nat * nat)) : Prop :=
  match spans with
  | [] => from = upto
  | (s, e) :: rest => s = from /\ s < e /\ tiles e upto rest
  end.

(** ** Contrast candidates and merged groups *)

(** Non-decreasing array of numbers. *)
Definition ascending (arr : list nat) : Prop :=
  forall i j x y, i <= j -> arr !! i = Some x -> arr !! j = Some y -> x <= y.

(** [r] splits [arr] into the elements that satisfy [below] and those that
    satisfy [above]. *)
Definition partition_point (below above : nat -> Prop) (arr : list nat)
    (r : nat) : Prop :=
  r <= length arr
  /\ (forall i x, i < r -> arr !! i = Some x -> below x)
  /\ (forall i x, r <= i -> arr !! i = Some x -> above x).

(** A candidate whose span range lies inside [spans] and whose raw start
    lies in its first span. *)
Definition well_placed (spans : list (nat * nat)) (c : CandidateInterval)
  : Prop :=
  lo c <= hi c /\ hi c < length spans
  /\ fst (span_at spans (lo c)) <= raw_start c < snd (span_at spans (lo c)).

(** The span range of [a] ends before the span range of [b] begins. *)
Definition apart (a b : CandidateInterval) : Prop := hi a < lo b.

Definition lo_le (a b : CandidateInterval) : Prop := lo a <= lo b.

(** Merged groups in the order of the result: the span ranges of any two
    are disjoint and do not share or touch an index, and the later one
    starts later, in its first raw offset as in the start of its sentence
    block. *)
Definition disjoint_in_order (spans : list (nat * nat))
    (groups : list CandidateInterval) : Prop :=
  forall i j a b,
    i < j -> groups !! i = Some a -> groups !! j = Some b ->
    hi a < lo b
    /\ raw_start a < raw_start b
    /\ fst (span_at spans (lo a)) < fst (span_at spans (lo b)).

(** ** The frequency table *)

(** The reading of the frequency store in which the lowest bin that
    holds a word decides its value. *)
Definition first_assignment_wins (data : Cbpack) : Prop :=
  forall wf w i ws,
    loadWordfreq data = Ok wf ->
    bins data !! i = Some (Some ws) -> w ∈ ws ->
    (forall j ws', j < i -> bins data !! j = Some (Some ws') -> w ∉ ws') ->
    exists z, wf_map wf !! w = Some z /\ (z == zipf_of_bin i)%Q.

(** [z] is the least of the values [f] gives to [tokens]. *)
Definition is_minimum (f : jsstring -> Q) (tokens : list jsstring) (z : Q)
  : Prop :=
  (forall t, t ∈ tokens -> (z <= f t)%Q) /\ (exists t, t ∈ tokens /\ z = f t).

(** The value of a token: its entry, or the configured default when it
    has none. *)
Definition token_zipf (wf : WordfreqEn) (t : jsstring) : Q :=
  match wf_map wf !! t with
  | Some z => z
  | None => minZipf wf
  end.

(** Null, undefined and the empty string. *)
Definition is_empty_input (input : ZipfInput) : Prop :=
  match input with
  | InString (_ :: _) => False
  | _ => True
  end.

(** The reading in which an empty input is answered with the configured
    default. *)
Definition empty_returns_default `{Host} (wf : WordfreqEn) : Prop :=
  forall input, is_empty_input input ->
                (zipfFrequency wf input == minZipf wf)%Q.

(** ** The human baseline *)

(** The sum of the values stored in a table. *)
Definition sum_values (m : gmap jsstring Q) : Q :=
  map_fold (fun _ v acc => (v + acc)%Q) 0%Q m.

(** The stored values sum to 1. *)
Definition sums_to_one (m : gmap jsstring Q) : Prop :=
  (sum_values m == 1)%Q.

(** The key under which [norm] stores an entry. *)
Definition entry_key `{Host} (it : ProfileEntry) : jsstring :=
  join (lit " ") (ngram_tokens it).

(** An entry that [norm] does not discard. *)
Definition kept `{Host} (it : ProfileEntry) : Prop :=
  2 <= length (ngram_tokens it).

(** What [norm] leaves in a table filled from [list]. *)
Definition normalized_over `{Host} (list : list ProfileEntry)
    (m : gmap jsstring Q) : Prop :=
  (forall k v, m !! k = Some v ->
     exists it, it ∈ list /\ kept it /\ k = entry_key it
                /\ v = (freq_of it / list_total list)%Q)
  /\ ((0 < list_total list)%Q -> Forall kept list ->
      NoDup (entry_key <$> list) -> sums_to_one m).

(** The last entry of [list] that [norm] stores under the key [k]. *)
Definition last_kept `{Host} (list : list ProfileEntry) (k : jsstring)
  : option ProfileEntry :=
  last (List.filter
          (fun it => (2 <=? length (ngram_tokens it))
                     && bool_decide (entry_key it = k)) list).

(** What [norm] leaves in an empty table, in the arithmetic of the
    runtime: nothing when the total of the list is not above 0; otherwise
    every entry it keeps has a value under its key, and the value under a
    key is the frequency of the last kept entry with that key divided by
    the total of the whole list, a key of no kept entry having none. *)
Definition shares_of_total `{Host} `{Runtime.Arith}
    (list : list ProfileEntry) (m : gmap jsstring Runtime.number) : Prop :=
  let total := HumanProfile.list_total list in
  (Runtime.n_le total (Runtime.of_Q 0) = true -> m = ∅)
  /\ (Runtime.n_le total (Runtime.of_Q 0) = false ->
      (forall it, it ∈ list -> kept it -> is_Some (m !! entry_key it))
      /\ forall k,
           m !! k
           = (fun it => Runtime.n_div (HumanProfile.freq_of it) total)
               <$> last_kept list k).

(** ** Scores and results *)

(** A calibration range with its minimum below its maximum. *)
Definition well_formed (r : Range) : Prop := (rmin r < rmax r)%Q.

(** Both hit collections of the result are there and are empty arrays. *)
Definition empty_hit_collections (r : SlopIndexResult) : Prop :=
  wordHits r = Some [] /\ trigramHits r = Some [].

(** Both hit collections of the result are [null]. *)
Definition null_hit_collections (r : SlopIndexResult) : Prop :=
  wordHits r = None /\ trigramHits r = None.

(** The result [analyzeText] builds when it finds no word. *)
Definition all_zero (r : AnalyzeResult) : Prop :=
  total_chars r = 0 /\ total_words r = 0 /\ slop_score r = 0%Q
  /\ slop_words_per_1k (metrics r) = 0%Q
  /\ slop_trigrams_per_1k (metrics r) = 0%Q
  /\ ngram_repetition_score (metrics r) = 0%Q
  /\ not_x_but_y_per_1k_chars (metrics r) = 0%Q
  /\ mattr_500 (lexical_diversity (metrics r)) = 0%Q
  /\ type_token_ratio (lexical_diversity (metrics r)) = 0%Q
  /\ unique_words (lexical_diversity (metrics r)) = 0
  /\ ld_total_words (lexical_diversity (metrics r)) = 0
  /\ vocab_level (metrics r) = 0%Q
  /\ avg_sentence_length (metrics r) = 0%Q
  /\ avg_paragraph_length (metrics r) = 0%Q
  /\ dialogue_frequency (metrics r) = 0%Q.

End Spec.

(** * Concrete inputs *)

Module Examples.
Import Wordfreq.

Definition good_header : MsgpackHeader :=
  {| format := lit "cB"; version := 1 |}.

(** A file with the word ["a"] in bins 0 and 1. *)
Definition twice_a : Cbpack :=
  {| header := Some good_header;
     bins := [Some [lit "a"]; Some [lit "a"]] |}.

Import Metrics.

Definition entry (s : string) (f : Q) : ProfileEntry :=
  {| ngram := Some (lit s); pe_frequency := Some f |}.

Definition no_stores : Stores :=
  {| wordfreq := None; humanBigramFreq := ∅; humanTrigramFreq := ∅;
     slopWords := ∅; slopBigrams := ∅; slopTrigrams := ∅ |}.

Definition profile_of (bi tri : list ProfileEntry) : ProfileFile :=
  {| human_authored :=
       Some {| top_bigrams := Some bi; bigrams := None;
               top_trigrams := Some tri; trigrams := None |};
     human := None;
     root := {| top_bigrams := None; bigrams := None;
                top_trigrams := None; trigrams := None |} |}.

(** One bigram and one entry that is not an n-gram. *)
Definition profile_with_discard : ProfileFile :=
  profile_of [entry "a b" 1; entry "x" 1] [].

Definition profile_all_kept : ProfileFile :=
  profile_of [entry "a b" 1; entry "c d" 3] [entry "a b c" 2].

(** An empty table whose default for unknown words is 1.5. *)
Definition table_default_1_5 : WordfreqEn :=
  {| wf_map := ∅; minZipf := 1.5 |}.
(** ["cat"] at 4.5 and ["the"] at 7.5, default 1. *)
Definition small_table : WordfreqEn :=
  {| wf_map := <[lit "cat" := 4.5%Q]> (<[lit "the" := 7.5%Q]> ∅);
     minZipf := 1 |}.

Import ContrastDetector.

(** A global expression that reports a one-unit match at offsets 0 and
    7 of any text, as [/A/g] does on ["An ox. A cow."]. *)
Definition two_hits : RegExp :=
  {| re_global := true;
     re_matchAll := fun _ => [(0, lit "A"); (7, lit "A")];
     re_match := fun _ => Some (0, lit "A") |}.

Definition with_matches : AnalyzeOptions :=
  {| file := lit "t.txt"; includeWordHits := false;
     includeTrigramHits := false; includeOverRepresented := false;
     includeContrastMatches := true |}.

End Examples.

(** * Further specification predicates *)

Module Shape.
Import Utils Wordfreq PosTagger ContrastDetector Metrics.

(** ** Text utilities *)

(** The code units [normalizeText] replaces: curly quotes and long dashes. *)
Definition is_typographic (c : char) : bool :=
  (c =? 8220)%N || (c =? 8221)%N || (c =? 8216)%N || (c =? 8217)%N
  || (c =? 8212)%N || (c =? 8211)%N.

(** The units a token of [wordsOnlyLower] is made of. *)
Definition is_token_unit (c : char) : bool := is_lower c || is_apostrophe c.

(** A non-empty run of lower-case letters. *)
Definition letters (a : jsstring) : Prop := a <> [] /\ all_lower a = true.

(** The number of elements of [arr] equal to [x]. *)
Definition occurrences (x : jsstring) (arr : list jsstring) : nat :=
  length (List.filter (fun y => bool_decide (y = x)) arr).

(** The span ends in a terminator and holds no other one. *)
Definition terminated (text : jsstring) (span : nat * nat) : Prop :=
  (forall k c, span.1 <= k < span.2 - 1 -> text !! k = Some c ->
               is_terminator c = false)
  /\ exists c, text !! (span.2 - 1) = Some c /\ is_terminator c = true.

(** No terminator at offset [s] of [text] or after it. *)
Definition unterminated_from (text : jsstring) (s : nat) : Prop :=
  forall k c, s <= k -> text !! k = Some c -> is_terminator c = false.

(** Entries in descending order of value. *)
Definition descending (a b : jsstring * Q) : Prop := (b.2 <= a.2)%Q.

(** ** The frequency table *)

(** A header that [loadWordfreq] accepts. *)
Definition valid_header (data : Cbpack) : Prop :=
  exists h, header data = Some h /\ format h = lit "cB" /\ version h = 1%Z.

(** [i] is the last bin of [bins] that holds [w]. *)
Definition last_bin_of (bins : list (option (list jsstring))) (w : jsstring)
    (i : nat) : Prop :=
  (exists ws, bins !! i = Some (Some ws) /\ w ∈ ws)
  /\ forall j ws', i < j -> bins !! j = Some (Some ws') -> w ∉ ws'.

(** The four curly quotes that [uncurlQuotes] straightens. *)
Definition is_curly (c : char) : bool :=
  (c =? 8216)%N || (c =? 8217)%N || (c =? 8220)%N || (c =? 8221)%N.

(** ** Contrast groups and the tagged stream *)

(** The group [g] covers the span range of the candidate [it]. *)
Definition covers (g it : CandidateInterval) : Prop :=
  lo g <= lo it /\ hi it <= hi g.

(** The group [g] is labelled by the candidate [it]. *)
Definition labelled_by (g it : CandidateInterval) : Prop :=
  lo g = lo it /\ raw_start g = raw_start it
  /\ pattern_name g = pattern_name it /\ match_text g = match_text it.

(** Ranges that follow one another from [from] to [upto]; a range may be
    empty. *)
Fixpoint chained (from upto : nat) (ranges : list (nat * nat)) : Prop :=
  match ranges with
  | [] => from = upto
  | (s, e) :: rest => s = from /\ s <= e /\ chained e upto rest
  end.

Definition stream_range (p : piece) : nat * nat := (p.1.1.1, p.1.1.2).
Definition raw_range (p : piece) : nat * nat := (p.1.2, p.2).

(** The raw range of a piece is well formed and lies inside the text. *)
Definition raw_in_text (text : jsstring) (p : piece) : Prop :=
  (raw_range p).1 <= (raw_range p).2 /\ (raw_range p).2 <= length text.

(** ** Metrics *)

(** The items that belong to the lexicon, in order. *)
Definition hits_of (lexicon : gset jsstring) (items : list jsstring)
  : list jsstring :=
  List.filter (fun t => bool_decide (t ∈ lexicon)) items.

(** Hit entries in descending order of count. *)
Definition by_count_desc (a b : jsstring * nat) : Prop := b.2 <= a.2.

(** The hit list reported for [items]: one entry for each phrase of the
    lexicon that occurs, with the number of its occurrences, the most
    frequent first. *)
Definition hit_table (lexicon : gset jsstring) (items : list jsstring)
    (hits : list (jsstring * nat)) : Prop :=
  StronglySorted by_count_desc hits
  /\ NoDup (List.map fst hits)
  /\ forall w c, (w, c) ∈ hits
       <-> w ∈ lexicon /\ 0 < c /\ c = occurrences w items.

(** Rows of an over-use ranking in descending order of ratio. *)
Definition by_ratio_desc (a b : jsstring * Q * nat) : Prop :=
  (b.1.2 <= a.1.2)%Q.

(** [x] is the least positive value of the table. *)
Definition least_positive (m : gmap jsstring Q) (x : Q) : Prop :=
  (0 < x)%Q
  /\ (exists k, m !! k = Some x)
  /\ forall k v, m !! k = Some v -> (0 < v)%Q -> (x <= v)%Q.

(** A table without a negative frequency. *)
Definition no_negative_frequency (m : gmap jsstring Q) : Prop :=
  forall k v, m !! k = Some v -> (0 <= v)%Q.

(** The frequency a phrase is compared with when the table does not list
    it: the least positive frequency of the table, or [1e-12] when the
    table has no positive frequency. *)
Definition floor_frequency (m : gmap jsstring Q) (x : Q) : Prop :=
  least_positive m x
  \/ ((forall k v, m !! k = Some v -> (v <= 0)%Q) /\ x = tiny).

(** The word a count is filed under when possessives are merged: the
    word without its final ['s], unless it is a known contraction or
    nothing else is left of it. *)
Definition merge_key (w : jsstring) : jsstring :=
  let n := length w in
  if bool_decide (drop (n - 2) w = lit "'s" /\ 2 < n
                  /\ w ∉ KNOWN_CONTRACTIONS_S)
  then take (n - 2) w
  else w.

(** The sum of the counts of the entries filed under [k]. *)
Definition merged_total (k : jsstring) (wordCounts : list (jsstring * nat))
  : nat :=
  sum_list (List.map snd
    (List.filter (fun e => bool_decide (merge_key e.1 = k)) wordCounts)).

(** More than one code unit in five is a digit. *)
Definition mostly_digits (w : jsstring) : bool :=
  length w <? 5 * length (List.filter is_digit w).

(** Over-represented words in descending order of ratio. *)
Definition by_overrep_desc (a b : OverRep) : Prop :=
  (or_ratio b <= or_ratio a)%Q.

(** [lo <= q <= hi] *)
Definition within (lo hi q : Q) : Prop := (lo <= q <= hi)%Q.

(** A piece of text that holds no sentence terminator. *)
Definition terminator_free (s : jsstring) : Prop :=
  Forall (fun c => is_terminator c = false) s.

(** A score per thousand tokens. *)
Definition per_mille (hits total : nat) : Q := (num hits / num total * 1000)%Q.

(** ** The human baseline *)

(** What a baseline table filled from [list] holds: probabilities, under
    phrases of at least two lower-case words separated by single spaces;
    nothing at all when the frequencies of the list do not add up to a
    positive total. *)
Definition baseline_table (list : list ProfileEntry) (m : gmap jsstring Q)
  : Prop :=
  (forall k v, m !! k = Some v ->
     (0 <= v <= 1)%Q
     /\ exists toks, 2 <= length toks /\ Forall letters toks
                     /\ k = join (lit " ") toks)
  /\ ((list_total list <= 0)%Q -> m = ∅).

End Shape.

(** * Further concrete inputs *)

Module Inputs.
Import Wordfreq Metrics Examples.

(** ["the"] in bin 1, ["cat"] in bin 3, the bins 0 and 2 empty. *)
Definition two_words : Cbpack :=
  {| header := Some Examples.good_header;
     bins := [None; Some [lit "the"]; None; Some [lit "cat"]] |}.

Definition three_spans : list (nat * nat) := [(0, 6); (6, 13); (13, 20)].

(** A lexicon with one slop word and one slop trigram. *)
Definition slop_stores : Stores :=
  {| wordfreq := None; humanBigramFreq := ∅; humanTrigramFreq := ∅;
     slopWords := {[ lit "delve" ]}; slopBigrams := ∅;
     slopTrigrams := {[ lit "a rich tapestry" ]} |}.

Definition delve_tokens : list jsstring :=
  List.map lit ["we"; "delve"; "into"; "a"; "rich"; "tapestry"]%string.

Definition with_hits : AnalyzeOptions :=
  {| file := lit "t.txt"; includeWordHits := true;
     includeTrigramHits := true; includeOverRepresented := false;
     includeContrastMatches := false |}.

(** Two of three bigrams are ["a b"], which the table lists at 1/2. *)
Definition three_bigrams : list jsstring :=
  List.map lit ["a b"; "c d"; "a b"]%string.
Definition half_table : gmap jsstring Q := {[ lit "a b" := 1 # 2 ]}.

(** Two bigrams of frequencies 1 and 3. *)
Definition two_bigrams : ProfileFile :=
  profile_of [entry "of the" 1; entry "in the" 3] [].

End Inputs.

(** * Properties *)

(** ** The embedding on the inputs of the unit tests *)

Module ModelChecks.
Import Utils Wordfreq Metrics Examples.

Example sentenceSpans_two_sentences :
  sentenceSpans (lit "Hello world. How are you?") = [(0, 12); (12, 25)].
Proof. reflexivity. Qed.

Example sentenceSpans_trailing_text :
  sentenceSpans (lit "Hello. World") = [(0, 6); (6, 12)].
Proof. reflexivity. Qed.

Example wordsOnlyLower_punctuation :
  @wordsOnlyLower ascii_host (lit "It's a test.")
  = [lit "it's"; lit "a"; lit "test"].
Proof. reflexivity. Qed.

Example wordsOnlyLower_strips_apostrophes :
  @wordsOnlyLower ascii_host (lit "'quoted' ''double''")
  = [lit "quoted"; lit "double"].
Proof. reflexivity. Qed.

Example alphaTokens_filters :
  alphaTokens [lit "hello"; lit "123"; lit "world's"; lit "test123"]
  = [lit "hello"; lit "world's"].
Proof. reflexivity. Qed.

Example getNgrams_bigrams :
  getNgrams [lit "a"; lit "b"; lit "c"; lit "d"] 2
  = [lit "a b"; lit "b c"; lit "c d"].
Proof. reflexivity. Qed.

Example getNgrams_too_short : getNgrams [lit "a"; lit "b"] 3 = [].
Proof. reflexivity. Qed.

Example countItems_counts :
  countItems [lit "a"; lit "b"; lit "a"; lit "c"; lit "a"]
  = [(lit "a", 3); (lit "b", 1); (lit "c", 1)].
Proof. reflexivity. Qed.

Example normalizeText_dashes :
  normalizeText (lit "hello" ++ [8212%N] ++ lit "world") = lit "hello-world".
Proof. reflexivity. Qed.

Example contentTokens_stopwords :
  contentTokens [lit "the"; lit "cat"; lit "sat"; lit "on"; lit "the";
                 lit "mat"]
  = [lit "cat"; lit "sat"; lit "mat"].
Proof. vm_compute. reflexivity. Qed.

Example computeMATTR_short_text :
  (computeMATTR [lit "a"; lit "b"; lit "c"] 500 == 1)%Q.
Proof. reflexivity. Qed.

(** A phrase is scored by its least frequent token; ["sat"] is unknown and
    counts for the default, here 1. *)
Example zipfFrequency_phrase :
  @zipfFrequency ascii_host small_table (InString (lit " The CAT sat "))
  = 1%Q.
Proof. vm_compute. reflexivity. Qed.

Example zipfFrequency_single_word :
  @zipfFrequency ascii_host small_table (InString (lit " The "))
  = 7.5%Q.
Proof. vm_compute. reflexivity. Qed.

End ModelChecks.

(** ** The composite score *)

Module ScoreFacts.
Import Metrics Spec.
Local Open Scope Q_scope.

Lemma normalizeValue_bounds v r : 0 <= normalizeValue v r <= 1.
Proof.
  unfold normalizeValue; split.
  - apply Q.le_max_l.
  - apply Q.max_lub; [lra | apply Q.le_min_l].
Qed.

Lemma normalizeValue_mono v w r :
  well_formed r -> v <= w -> normalizeValue v r <= normalizeValue w r.
Proof.
  unfold well_formed, normalizeValue; intros Hr Hvw.
  apply Q.max_le_compat_l, Q.min_le_compat_l.
  unfold Qdiv. apply Qmult_le_compat_r; [lra |].
  apply Qlt_le_weak, Qinv_lt_0_compat. lra.
Qed.

Lemma slop_words_range_wf : well_formed slop_words_range.
Proof. reflexivity. Qed.
Lemma slop_trigrams_range_wf : well_formed slop_trigrams_range.
Proof. reflexivity. Qed.
Lemma contrast_range_wf : well_formed contrast_range.
Proof. reflexivity. Qed.

(** C1. For all rational inputs, [computeSlopScore] lies in [0, 100] and
    does not decrease when any one of [wordScore], [trigramScore],
    [contrastRate] grows while the other two are kept. *)
Theorem computeSlopScore_bounded_monotone (w t c : Q) :
  (0 <= computeSlopScore w t c <= 100)
  /\ (forall w', w <= w' -> computeSlopScore w t c <= computeSlopScore w' t c)
  /\ (forall t', t <= t' -> computeSlopScore w t c <= computeSlopScore w t' c)
  /\ (forall c', c <= c' -> computeSlopScore w t c <= computeSlopScore w t c').
Proof.
  unfold computeSlopScore.
  pose proof (normalizeValue_bounds w slop_words_range) as Bw.
  pose proof (normalizeValue_bounds t slop_trigrams_range) as Bt.
  pose proof (normalizeValue_bounds c contrast_range) as Bc.
  repeat split.
  - lra.
  - lra.
  - intros w' Hw.
    pose proof (normalizeValue_mono w w' _ slop_words_range_wf Hw). lra.
  - intros t' Ht.
    pose proof (normalizeValue_mono t t' _ slop_trigrams_range_wf Ht). lra.
  - intros c' Hc.
    pose proof (normalizeValue_mono c c' _ contrast_range_wf Hc). lra.
Qed.

Lemma computeSlopScore_bounded_monotone_witness :
  10 <= 20 /\ computeSlopScore 10 0 0 <= computeSlopScore 20 0 0.
Proof.
  split; [lra |].
  apply (proj1 (proj2 (computeSlopScore_bounded_monotone 10 0 0)) 20). lra.
Defined.

End ScoreFacts.

(** ** Sentence spans *)

Module SpanFacts.
Import Utils Spec.

Lemma tiles_app a b c l1 l2 :
  tiles a b l1 -> tiles b c l2 -> tiles a c (l1 ++ l2).
Proof.
  revert a; induction l1 as [| [s e] l1 IH]; simpl; intros a H1 H2.
  - subst; assumption.
  - destruct H1 as (-> & Hlt & Hrest). eauto.
Qed.

Lemma tiles_le a b l : tiles a b l -> a <= b.
Proof.
  revert a; induction l as [| [s e] l IH]; simpl; intros a Ht.
  - lia.
  - destruct Ht as (-> & Hlt & Hrest). apply IH in Hrest. lia.
Qed.

Lemma sentSplit_here_bounds s len :
  sentSplit_here s = Some len -> 0 < len <= length s.
Proof.
  revert len; induction s as [| c s IH]; simpl; intros len Hs.
  - discriminate.
  - destruct (is_terminator c).
    + injection Hs as <-. lia.
    + destruct (sentSplit_here s) as [k |]; simpl in Hs; [| discriminate].
      injection Hs as <-. specialize (IH k eq_refl). lia.
Qed.

Lemma sentSplit_here_tail c s :
  sentSplit_here (c :: s) = None -> sentSplit_here s = None.
Proof.
  simpl. destruct (is_terminator c); [discriminate |].
  destruct (sentSplit_here s); [discriminate | reflexivity].
Qed.

Lemma sentSplit_search_unfold c s idx :
  sentSplit_search (c :: s) idx
  = match sentSplit_here (c :: s) with
    | Some len => Some (idx, len)
    | None => sentSplit_search s (S idx)
    end.
Proof. reflexivity. Qed.

(** Where the expression does not match at the head, it matches nowhere
    further on. *)
Lemma sentSplit_search_none s idx :
  sentSplit_here s = None -> sentSplit_search s idx = None.
Proof.
  revert idx; induction s as [| c s IH]; intros idx Hn.
  - reflexivity.
  - rewrite sentSplit_search_unfold, Hn.
    apply IH, (sentSplit_here_tail c), Hn.
Qed.

Lemma sentSplit_search_some s idx i len :
  sentSplit_search s idx = Some (i, len) ->
  i = idx /\ 0 < len <= length s.
Proof.
  destruct s as [| c s]; [discriminate |].
  rewrite sentSplit_search_unfold.
  destruct (sentSplit_here (c :: s)) as [k |] eqn:Hk.
  - intros [= <- <-].
    split; [reflexivity |]. apply (sentSplit_here_bounds (c :: s)), Hk.
  - rewrite sentSplit_search_none; [discriminate |].
    apply (sentSplit_here_tail c). exact Hk.
Qed.

Lemma sentSplit_exec_some text lastIndex i len :
  sentSplit_exec text lastIndex = Some (i, len) ->
  i = lastIndex /\ 0 < len /\ lastIndex + len <= length text.
Proof.
  unfold sentSplit_exec.
  destruct (length text <? lastIndex) eqn:Hlt; [discriminate |].
  apply Nat.ltb_ge in Hlt. intros Hs.
  apply sentSplit_search_some in Hs as (-> & Hpos & Hlen).
  rewrite length_drop in Hlen. lia.
Qed.

Lemma sentenceSpans_loop_tiles fuel text i spans :
  i <= length text -> tiles 0 i spans ->
  let r := sentenceSpans_loop fuel text i spans i in
  tiles 0 r.2 r.1 /\ r.2 <= length text.
Proof.
  revert i spans; induction fuel as [| fuel IH]; simpl; intros i spans Hi Ht.
  - split; assumption.
  - destruct (sentSplit_exec text i) as [[index len] |] eqn:He.
    + apply sentSplit_exec_some in He as (-> & Hpos & Hlen).
      apply IH; [lia |].
      apply (tiles_app 0 i); [assumption |]. simpl. lia.
    + split; assumption.
Qed.

(** The loop leaves through a failed [exec], not through lack of fuel:
    any fuel above the number of units left gives the same result. *)
Lemma sentenceSpans_loop_fuel fuel fuel' text i spans lastEnd :
  i <= length text ->
  length text - i < fuel -> length text - i < fuel' ->
  sentenceSpans_loop fuel text i spans lastEnd
  = sentenceSpans_loop fuel' text i spans lastEnd.
Proof.
  revert fuel' i spans lastEnd.
  induction fuel as [| fuel IH]; intros fuel' i spans lastEnd Hi Hf Hf'.
  - lia.
  - destruct fuel' as [| fuel']; [lia |]. simpl.
    destruct (sentSplit_exec text i) as [[index len] |] eqn:He;
      [| reflexivity].
    apply sentSplit_exec_some in He as (-> & Hpos & Hlen).
    destruct (decide (i + len = length text)) as [Heq | Hne].
    + (* the text is used up: the next [exec] fails whatever the fuel *)
      assert (Hnone : sentSplit_exec text (i + len) = None).
      { destruct (sentSplit_exec text (i + len)) as [[j l] |] eqn:He';
          [| reflexivity].
        apply sentSplit_exec_some in He'. lia. }
      destruct fuel, fuel'; simpl; rewrite ?Hnone; reflexivity.
    + apply IH; lia.
Qed.

Lemma sentenceSpans_tiles text :
  tiles 0 (length text) (sentenceSpans text).
Proof.
  unfold sentenceSpans.
  pose proof (sentenceSpans_loop_tiles (S (length text)) text 0 []
                (Nat.le_0_l _) eq_refl) as Hl.
  destruct (sentenceSpans_loop (S (length text)) text 0 [] 0)
    as [spans lastEnd].
  simpl in Hl. destruct Hl as [Ht Hle].
  destruct (lastEnd <? length text) eqn:Hlt.
  - apply Nat.ltb_lt in Hlt.
    apply (tiles_app 0 lastEnd); [assumption |]. simpl. lia.
  - apply Nat.ltb_ge in Hlt.
    replace (length text) with lastEnd by lia. assumption.
Qed.

(** C3. For every text, the spans returned by [sentenceSpans] tile the
    offsets from 0 to the length of the text: the first span starts at 0,
    each span is non-empty and starts at the end of the one before it,
    and the last span ends at the length of the text. *)
Theorem sentenceSpans_tile_text (text : jsstring) :
  tiles 0 (length text) (sentenceSpans text).
Proof. apply sentenceSpans_tiles. Qed.

End SpanFacts.

(** ** The frequency table *)

Module WordfreqFacts.
Import Wordfreq Spec Examples.

Lemma set_words_lookup (ws : list jsstring) (z : Q) (m : gmap jsstring Q) (w : jsstring) :
  set_words ws z m !! w = if bool_decide (w ∈ ws) then Some z else m !! w.
Proof.
  unfold set_words. revert m; induction ws as [| x ws IH]; intros m;
    cbn [fold_left].
  - case_bool_decide as Hin; [by apply elem_of_nil in Hin | reflexivity].
  - rewrite IH, (bool_decide_ext (w ∈ x :: ws) (w = x \/ w ∈ ws))
      by apply elem_of_cons.
    destruct (decide (w ∈ ws)) as [Hin | Hnin].
    + rewrite !bool_decide_eq_true_2 by auto. reflexivity.
    + rewrite (bool_decide_eq_false_2 _ Hnin).
      destruct (decide (w = x)) as [-> | Hne].
      * rewrite bool_decide_eq_true_2 by auto. apply lookup_insert_eq.
      * rewrite bool_decide_eq_false_2 by tauto.
        apply lookup_insert_ne. congruence.
Qed.

(** Bins that do not hold [w] leave its entry alone. *)
Lemma fill_bins_untouched (bins : list (option (list jsstring))) (k : nat)
    (m : gmap jsstring Q) (w : jsstring) :
  (forall j ws, bins !! j = Some (Some ws) -> w ∉ ws) ->
  fill_bins bins k m !! w = m !! w.
Proof.
  revert k m; induction bins as [| b bins IH]; intros k m Hno; simpl.
  - reflexivity.
  - rewrite IH by (intros j ws Hj; apply (Hno (S j) ws Hj)).
    destruct b as [[| x ws] |]; try reflexivity.
    rewrite set_words_lookup, bool_decide_eq_false_2; [reflexivity |].
    apply (Hno 0 (x :: ws) eq_refl).
Qed.

Lemma fill_bins_last (bins : list (option (list jsstring))) (k : nat)
    (m : gmap jsstring Q) (w : jsstring) (i : nat) (ws : list jsstring) :
  bins !! i = Some (Some ws) -> w ∈ ws ->
  (forall j ws', i < j -> bins !! j = Some (Some ws') -> w ∉ ws') ->
  fill_bins bins k m !! w = Some (zipf_of_bin (k + i)).
Proof.
  revert k m i; induction bins as [| b bins IH]; intros k m i Hi Hin Hlast.
  - discriminate.
  - destruct i as [| i]; simpl in Hi |- *.
    + injection Hi as ->.
      rewrite fill_bins_untouched
        by (intros j ws' Hj; apply (Hlast (S j) ws'); [lia | exact Hj]).
      destruct ws as [| x ws]; [by apply elem_of_nil in Hin |].
      rewrite set_words_lookup, bool_decide_eq_true_2 by assumption.
      by rewrite Nat.add_0_r.
    + rewrite (IH (S k) _ i Hi Hin).
      * f_equal. f_equal. lia.
      * intros j ws' Hj. apply (Hlast (S j) ws'). lia.
Qed.

Lemma loadWordfreq_accepts (data : Cbpack) (h : MsgpackHeader) :
  header data = Some h -> format h = lit "cB" -> version h = 1%Z ->
  loadWordfreq data
  = Ok {| wf_map := fill_bins (bins data) 0 ∅; minZipf := 0 |}.
Proof.
  unfold loadWordfreq. intros -> Hf ->.
  by rewrite bool_decide_eq_true_2.
Qed.

(** C4, as stated, fails: with ["a"] in bins 0 and 1 the table holds the
    value of bin 1, 8.99, and not the value of bin 0, 9. *)
Lemma loadWordfreq_first_assignment_lost : ~ first_assignment_wins twice_a.
Proof.
  intros Hfirst.
  destruct (Hfirst _ (lit "a") 0 [lit "a"]
              (loadWordfreq_accepts twice_a good_header eq_refl eq_refl eq_refl)
              eq_refl) as (z & Hz & Heq).
  - apply list_elem_of_here.
  - intros j ws' Hj. lia.
  - assert (Hv : fill_bins (bins twice_a) 0 ∅ !! lit "a"
                 = Some (zipf_of_bin 1)) by (vm_compute; reflexivity).
    change (fill_bins (bins twice_a) 0 ∅ !! lit "a" = Some z) in Hz.
    rewrite Hv in Hz. injection Hz as <-.
    vm_compute in Heq. discriminate.
Qed.

(** C4, amended. When [loadWordfreq] succeeds, a word keeps the value of
    the last (highest-index) bin that holds it: every later assignment
    overwrites the earlier one. *)
Theorem loadWordfreq_last_assignment_wins (data : Cbpack) (wf : WordfreqEn)
    (w : jsstring) (i : nat) (ws : list jsstring) :
  loadWordfreq data = Ok wf ->
  bins data !! i = Some (Some ws) -> w ∈ ws ->
  (forall j ws', i < j -> bins data !! j = Some (Some ws') -> w ∉ ws') ->
  wf_map wf !! w = Some (zipf_of_bin i).
Proof.
  unfold loadWordfreq. intros Hload Hi Hin Hlast.
  destruct (header data) as [h |]; [| discriminate].
  destruct (bool_decide (format h = lit "cB") && (version h =? 1)%Z);
    [| discriminate].
  injection Hload as <-. simpl.
  apply (fill_bins_last (bins data) 0 ∅ w i ws Hi Hin Hlast).
Qed.

Lemma loadWordfreq_last_assignment_wins_witness :
  wf_map {| wf_map := fill_bins (bins twice_a) 0 ∅; minZipf := 0 |}
    !! lit "a" = Some (zipf_of_bin 1).
Proof.
  apply (loadWordfreq_last_assignment_wins twice_a _ (lit "a") 1 [lit "a"]).
  - reflexivity.
  - reflexivity.
  - apply list_elem_of_In; simpl; auto.
  - intros j ws' Hj Hb. destruct j as [| [| j]]; [lia | lia |].
    simpl in Hb. discriminate.
Defined.

End WordfreqFacts.

(** ** The human baseline *)

Module ProfileFacts.
Import Metrics Spec Examples.
Local Open Scope Q_scope.

Lemma sum_values_insert (m : gmap jsstring Q) (k : jsstring) (v : Q) :
  m !! k = None -> sum_values (<[k := v]> m) == v + sum_values m.
Proof.
  intros Hk. unfold sum_values.
  apply (map_fold_insert Qeq (fun _ v acc => v + acc) 0 k v m).
  - intros j z a b Hab. rewrite Hab. reflexivity.
  - intros j1 j2 z1 z2 y _ _ _. ring.
  - exact Hk.
Qed.

Lemma total_from_acc (l : list ProfileEntry) (a : Q) :
  fold_left (fun total it => total + freq_of it) l a
  == a + list_total l.
Proof.
  unfold list_total. revert a; induction l as [| it l IH]; intros a; simpl.
  - ring.
  - rewrite IH, (IH (0 + freq_of it)). ring.
Qed.

Section WithHost.
Context `{Host}.

Lemma norm_fold_lookup (T : Q) (l : list ProfileEntry)
    (m : gmap jsstring Q) (k : jsstring) (v : Q) :
  fold_left (norm_step T) l m !! k = Some v ->
  m !! k = Some v
  \/ exists it, it ∈ l /\ kept it /\ k = entry_key it
                /\ v = freq_of it / T.
Proof.
  revert m; induction l as [| it l IH]; intros m; simpl.
  - auto.
  - intros Hl. apply IH in Hl as [Hm | (it' & Hin & Hrest)].
    + unfold norm_step in Hm.
      destruct (length (ngram_tokens it) <? 2)%nat eqn:Hlen; [auto |].
      apply Nat.ltb_ge in Hlen.
      destruct (decide (join (lit " ") (ngram_tokens it) = k)) as [<- | Hne].
      * rewrite lookup_insert_eq in Hm. injection Hm as <-.
        right. exists it. split; [apply list_elem_of_here |]. 
        split; [exact Hlen |]. split; reflexivity.
      * rewrite lookup_insert_ne in Hm by exact Hne. auto.
    + right. exists it'. split; [apply list_elem_of_further, Hin | exact Hrest].
Qed.

Lemma norm_fold_sum (T : Q) (l : list ProfileEntry) (m : gmap jsstring Q) :
  ~ T == 0 -> Forall kept l -> NoDup (entry_key <$> l) ->
  (forall it, it ∈ l -> m !! entry_key it = None) ->
  sum_values (fold_left (norm_step T) l m)
  == sum_values m + list_total l / T.
Proof.
  intros HT. revert m; induction l as [| it l IH]; intros m Hkept Hnd Hfresh.
  - simpl. unfold list_total; simpl. field. exact HT.
  - apply Forall_cons in Hkept as [Hk Hkept].
    rewrite fmap_cons in Hnd. apply NoDup_cons in Hnd as [Hnotin Hnd].
    cbn [fold_left].
    assert (Hstep : norm_step T m it = <[entry_key it := freq_of it / T]> m).
    { unfold norm_step. unfold kept in Hk.
      destruct (length (ngram_tokens it) <? 2)%nat eqn:Hlen; [| reflexivity].
      apply Nat.ltb_lt in Hlen. lia. }
    rewrite Hstep, IH; [| assumption | assumption |].
    + rewrite sum_values_insert by (apply Hfresh, list_elem_of_here).
      unfold list_total at 2. cbn [fold_left]. rewrite total_from_acc.
      field. exact HT.
    + intros it' Hin. rewrite lookup_insert_ne.
      * apply Hfresh, list_elem_of_further, Hin.
      * intros Heq. apply Hnotin. rewrite Heq.
        apply list_elem_of_fmap. exists it'. split; [reflexivity | exact Hin].
Qed.

Lemma norm_normalized (l : list ProfileEntry) : normalized_over l (norm l ∅).
Proof.
  unfold normalized_over, norm. split.
  - intros k v Hl.
    destruct (Qle_bool (list_total l) 0); [by rewrite lookup_empty in Hl |].
    apply norm_fold_lookup in Hl as [Hl | Hl]; [| exact Hl].
    by rewrite lookup_empty in Hl.
  - intros Hpos Hkept Hnd. unfold sums_to_one.
    destruct (Qle_bool (list_total l) 0) eqn:Hle.
    + apply Qle_bool_iff in Hle. lra.
    + rewrite norm_fold_sum; try assumption.
      * unfold sum_values. rewrite map_fold_empty. field. lra.
      * lra.
      * intros it _. apply lookup_empty.
Qed.

Lemma norm_rational (l : list ProfileEntry) (m : gmap jsstring Q) :
  @HumanProfile.norm _ Runtime.rational l m = norm l m.
Proof. reflexivity. Qed.

Section WithRuntime.
Context `{Runtime.Arith}.

Lemma last_kept_cons (it : ProfileEntry) (l : list ProfileEntry)
    (k : jsstring) :
  last_kept (it :: l) k
  = match last_kept l k with
    | Some it' => Some it'
    | None =>
        if ((2 <=? length (ngram_tokens it))%nat
            && bool_decide (entry_key it = k))%bool
        then Some it else None
    end.
Proof.
  unfold last_kept. cbn [List.filter].
  destruct ((2 <=? length (ngram_tokens it))%nat
            && bool_decide (entry_key it = k))%bool.
  - generalize (List.filter
      (fun it0 => ((2 <=? length (ngram_tokens it0))%nat
                   && bool_decide (entry_key it0 = k))%bool) l).
    intros l'. destruct l' as [| x l']; [reflexivity |].
    change (last (it :: x :: l')) with (last (x :: l')).
    destruct (last (x :: l')) eqn:Hl; [reflexivity |].
    by apply last_None in Hl.
  - by destruct (last _).
Qed.

Lemma last_kept_is_Some (l : list ProfileEntry) (it : ProfileEntry) :
  it ∈ l -> kept it -> is_Some (last_kept l (entry_key it)).
Proof.
  intros Hin Hkept. unfold last_kept.
  match goal with |- is_Some (last ?f) => destruct (last f) eqn:Hl end;
    [by eexists |].
  exfalso. apply last_None in Hl.
  apply list_elem_of_In in Hin.
  assert (Hf : In it (List.filter
                (fun it0 => ((2 <=? length (ngram_tokens it0))%nat
                             && bool_decide (entry_key it0 = entry_key it))%bool)
                l)).
  { apply filter_In. split; [exact Hin |].
    apply andb_true_iff. split.
    - apply Nat.leb_le. exact Hkept.
    - by apply bool_decide_eq_true_2. }
  rewrite Hl in Hf. destruct Hf.
Qed.

Lemma norm_fold_shares (total : Runtime.number) (l : list ProfileEntry)
    (m : gmap jsstring Runtime.number) (k : jsstring) :
  fold_left (HumanProfile.norm_step total) l m !! k
  = match last_kept l k with
    | Some it => Some (Runtime.n_div (HumanProfile.freq_of it) total)
    | None => m !! k
    end.
Proof.
  revert m; induction l as [| it l IH]; intros m; [reflexivity |].
  cbn [fold_left]. rewrite IH, last_kept_cons.
  destruct (last_kept l k) as [it' |]; [reflexivity |].
  unfold HumanProfile.norm_step, entry_key. cbn zeta.
  destruct (length (ngram_tokens it) <? 2)%nat eqn:Hlen.
  - apply Nat.ltb_lt in Hlen.
    replace (2 <=? length (ngram_tokens it))%nat with false
      by (symmetry; apply Nat.leb_gt; lia).
    reflexivity.
  - apply Nat.ltb_ge in Hlen.
    replace (2 <=? length (ngram_tokens it))%nat with true
      by (symmetry; apply Nat.leb_le; lia).
    cbn [andb]. case_bool_decide as Hk.
    + by rewrite Hk, lookup_insert_eq.
    + by rewrite lookup_insert_ne.
Qed.

Lemma norm_shares (l : list ProfileEntry) :
  shares_of_total l (HumanProfile.norm l ∅).
Proof.
  unfold shares_of_total, HumanProfile.norm. cbn zeta.
  destruct (Runtime.n_le (HumanProfile.list_total l) (Runtime.of_Q 0)).
  - split; [reflexivity | discriminate].
  - split; [discriminate |]. intros _.
    assert (Hk : forall k,
              fold_left (HumanProfile.norm_step (HumanProfile.list_total l))
                        l ∅ !! k
              = (fun it => Runtime.n_div (HumanProfile.freq_of it)
                             (HumanProfile.list_total l))
                  <$> last_kept l k).
    { intros k. rewrite norm_fold_shares. by destruct (last_kept l k). }
    split; [| exact Hk].
    intros it Hin Hkept. rewrite Hk.
    destruct (last_kept_is_Some l it Hin Hkept) as [it' ->]. by eexists.
Qed.

End WithRuntime.


End WithHost.



End ProfileFacts.

(** ** Zipf lookups *)

Module ZipfFacts.
Import Wordfreq Spec Examples.
Local Open Scope Q_scope.

Lemma Qmin_cases (a b : Q) :
  (Qmin a b = a /\ a <= b) \/ (Qmin a b = b /\ b <= a).
Proof.
  unfold Qmin, GenericMinMax.gmin.
  destruct (a ?= b) eqn:Hc.
  - left. split; [reflexivity |]. apply Qeq_alt in Hc. lra.
  - left. split; [reflexivity |]. apply Qlt_alt in Hc. lra.
  - right. split; [reflexivity |]. apply Qgt_alt in Hc. lra.
Qed.

Lemma fold_min_some (f : jsstring -> Q) (tokens : list jsstring) (z0 : Q) :
  exists z,
    fold_left (fun z t => min_inf z (f t)) tokens (Some z0) = Some z
    /\ z <= z0
    /\ (forall t, t ∈ tokens -> z <= f t)
    /\ (z = z0 \/ exists t, t ∈ tokens /\ z = f t).
Proof.
  revert z0; induction tokens as [| t tokens IH]; intros z0; simpl.
  - exists z0. split; [reflexivity |]. split; [lra |].
    split; [| auto]. intros t Ht. by apply elem_of_nil in Ht.
  - destruct (IH (Qmin z0 (f t))) as (z & Hz & Hle & Hall & Hatt).
    exists z. split; [exact Hz |].
    destruct (Qmin_cases z0 (f t)) as [[Hm Hc] | [Hm Hc]];
      rewrite Hm in Hle, Hatt.
    + split; [lra |]. split.
      * intros t' [-> | Hin]%elem_of_cons; [lra | auto].
      * destruct Hatt as [-> | (t' & Hin & ->)]; [auto |].
        right. exists t'. split; [by apply list_elem_of_further | reflexivity].
    + split; [lra |]. split.
      * intros t' [-> | Hin]%elem_of_cons; [lra | auto].
      * right. destruct Hatt as [-> | (t' & Hin & ->)].
        -- exists t. split; [apply list_elem_of_here | reflexivity].
        -- exists t'. split; [by apply list_elem_of_further | reflexivity].
Qed.

Lemma combineZipfSimple_minimum (f : jsstring -> Q) (tokens : list jsstring) :
  tokens <> [] -> is_minimum f tokens (combineZipfSimple tokens f).
Proof.
  destruct tokens as [| t tokens]; [congruence |]. intros _.
  unfold combineZipfSimple. cbn [fold_left].
  change (min_inf None (f t)) with (Some (f t)).
  destruct (fold_min_some f tokens (f t)) as (z & -> & Hle & Hall & Hatt).
  split.
  - intros t' [-> | Hin]%elem_of_cons; [exact Hle | auto].
  - destruct Hatt as [-> | (t' & Hin & ->)].
    + exists t. split; [apply list_elem_of_here | reflexivity].
    + exists t'. split; [by apply list_elem_of_further | reflexivity].
Qed.

Lemma getOr_token_zipf wf t : getOr wf t = token_zipf wf t.
Proof. unfold getOr, token_zipf. by destruct (wf_map wf !! t). Qed.

Section WithHost.
Context `{Host}.


End WithHost.


End ZipfFacts.

(** ** Slop index, analysis result and readability *)

Module MetricsFacts.
Import Utils ContrastDetector Metrics Spec Examples.

(** C7, amended. On an empty token list, whatever [trackHits] is and
    whatever the lexicons hold, [computeSlopIndex] returns (it does not
    throw) [wordScore] 0 and [trigramScore] 0, and both hit collections
    are [null], not empty arrays. *)
Theorem computeSlopIndex_no_tokens (st : Stores) (trackHits : bool) :
  let r := computeSlopIndex st [] trackHits in
  wordScore r = 0%Q /\ trigramScore r = 0%Q /\ null_hit_collections r.
Proof.
  cbn zeta. unfold computeSlopIndex. cbn [length Nat.eqb].
  split; [reflexivity |]. split; [reflexivity |]. by split.
Qed.

(** C7, as stated, fails: on an empty token list, even with hit tracking
    on, the hit collections are not empty arrays. *)
Lemma computeSlopIndex_no_tokens_not_empty_arrays :
  ~ empty_hit_collections (computeSlopIndex no_stores [] true).
Proof. intros [Hw _]. discriminate Hw. Qed.

(** Empty arrays are what a tracked run over tokens without a hit
    returns. *)
Lemma computeSlopIndex_no_hit_empty_arrays :
  empty_hit_collections (computeSlopIndex no_stores [lit "a"] true).
Proof. by split. Qed.

Section WithHost.
Context `{Host}.
Variable STAGE1_REGEXES : list (jsstring * RegExp).
Variable STAGE2_REGEXES : list (jsstring * RegExp).

Lemma wordsOnlyLower_empty : wordsOnlyLower [] = [].
Proof. unfold wordsOnlyLower. rewrite toLowerCase_empty. reflexivity. Qed.

(** C8. [analyzeText] on the empty string returns (it does not throw) a
    result with [total_chars] 0, [total_words] 0, [slop_score] 0 and every
    metric 0, [unique_words] among them; the score is the constant of the
    early return and not [computeSlopScore 0 0 0], which is positive. *)
Theorem analyzeText_empty_all_zero (st : Stores) (options : AnalyzeOptions) :
  all_zero (analyzeText STAGE1_REGEXES STAGE2_REGEXES st [] options)
  /\ (0 < computeSlopScore 0 0 0)%Q.
Proof.
  unfold analyzeText. rewrite wordsOnlyLower_empty.
  split; [repeat split | reflexivity].
Qed.

(** C9. When contrast matches are requested, the [contrast_matches] field
    holds the first 100 matches of [extractContrastMatches] and so at
    most 100 entries; the field is left out only by the early return for
    a text without words. *)
Theorem analyzeText_contrast_matches_capped (st : Stores) (text : jsstring)
    (options : AnalyzeOptions) :
  includeContrastMatches options = true ->
  match contrast_matches
          (analyzeText STAGE1_REGEXES STAGE2_REGEXES st text options) with
  | Some ms =>
      ms = take 100 (extractContrastMatches STAGE1_REGEXES STAGE2_REGEXES
                       text)
      /\ length ms <= 100
  | None => alphaTokens (wordsOnlyLower text) = []
  end.
Proof.
  intros Hreq. unfold analyzeText.
  destruct (length (alphaTokens (wordsOnlyLower text)) =? 0) eqn:Hn.
  - simpl. apply Nat.eqb_eq in Hn. by apply length_zero_iff_nil.
  - cbn [contrast_matches]. rewrite Hreq. unfold slice.
    rewrite drop_0, Nat.sub_0_r. split; [reflexivity |].
    rewrite length_take. lia.
Qed.

(** C10. [computeVocabLevel] is never negative: it is 0 for a text
    without sentences or without words, and otherwise the grade-level
    estimate, or 0 when the estimate is negative. *)
Theorem computeVocabLevel_nonneg (text : jsstring) :
  (0 <= computeVocabLevel text)%Q
  /\ (sentences_of text = [] \/ words_of text = [] ->
      computeVocabLevel text = 0%Q)
  /\ (sentences_of text <> [] -> words_of text <> [] ->
      computeVocabLevel text
      = Qmax 0 (gradeLevel (sentences_of text) (words_of text))
      /\ ((gradeLevel (sentences_of text) (words_of text) < 0)%Q ->
          (computeVocabLevel text == 0)%Q)).
Proof.
  unfold computeVocabLevel.
  destruct (sentences_of text) as [| s ss] eqn:Hs;
    [| destruct (words_of text) as [| w ws] eqn:Hw]; simpl.
  - split; [apply Qle_refl |]. split; [reflexivity | congruence].
  - split; [apply Qle_refl |]. split; [reflexivity | congruence].
  - split; [apply Q.le_max_l |]. split.
    + intros [Hc | Hc]; discriminate.
    + intros _ _. split; [reflexivity |].
      intros Hneg. apply Q.max_l. by apply Qlt_le_weak.
Qed.

End WithHost.

Lemma analyzeText_contrast_matches_capped_witness :
  exists ms,
    contrast_matches
      (@analyzeText ascii_host [(lit "p", two_hits)] [] no_stores
         (lit "An ox. A cow.") with_matches) = Some ms
    /\ length ms <= 100.
Proof.
  pose proof (@analyzeText_contrast_matches_capped ascii_host
                [(lit "p", two_hits)] [] no_stores (lit "An ox. A cow.")
                with_matches eq_refl) as Hc.
  destruct (contrast_matches _) as [ms |] eqn:Hm.
  - exists ms. split; [reflexivity | apply Hc].
  - vm_compute in Hc. discriminate.
Defined.

Lemma computeVocabLevel_nonneg_witness :
  (@computeVocabLevel ascii_host
     (lit "The cat sat on the mat. It was a nice day.") == 0)%Q.
Proof.
  apply (@computeVocabLevel_nonneg ascii_host
           (lit "The cat sat on the mat. It was a nice day.")).
  - vm_compute. discriminate.
  - vm_compute. discriminate.
  - vm_compute. reflexivity.
Defined.

End MetricsFacts.

(** ** Contrast matches *)

Module ContrastFacts.
Import Utils PosTagger ContrastDetector Spec Examples.

(** *** Binary search *)

Lemma bisectRight_loop_spec (fuel : nat) (arr : list nat) (val lo hi : nat) :
  ascending arr -> lo <= hi <= length arr -> hi - lo <= fuel ->
  (forall i x, i < lo -> arr !! i = Some x -> x <= val) ->
  (forall i x, hi <= i -> arr !! i = Some x -> val < x) ->
  partition_point (fun x => x <= val) (fun x => val < x) arr
                  (bisectRight_loop fuel arr val lo hi).
Proof.
  intros Hasc. revert lo hi.
  induction fuel as [| fuel IH]; intros lo hi Hb Hf Hlow Hhigh;
    cbn [bisectRight_loop bisectLeft_loop].
  - assert (lo = hi) as -> by lia. repeat split; [lia | exact Hlow | exact Hhigh].
  - destruct (lo <? hi) eqn:Hlt.
    + apply Nat.ltb_lt in Hlt.
      assert (Hmid : lo <= (lo + hi) / 2 < hi).
      { split; [apply Nat.div_le_lower_bound; lia
               | apply Nat.Div0.div_lt_upper_bound; lia]. }
      destruct (arr !! ((lo + hi) / 2)) as [x |] eqn:Hx.
      * destruct (x <=? val) eqn:Hc.
        -- apply Nat.leb_le in Hc. apply IH; [lia | lia | | exact Hhigh].
           intros i y Hi Hy. pose proof (Hasc i ((lo + hi) / 2) y x ltac:(lia) Hy Hx). lia.
        -- apply Nat.leb_gt in Hc. apply IH; [lia | lia | exact Hlow |].
           intros i y Hi Hy. pose proof (Hasc ((lo + hi) / 2) i x y ltac:(lia) Hx Hy). lia.
      * apply lookup_ge_None in Hx. lia.
    + apply Nat.ltb_ge in Hlt. assert (lo = hi) as -> by lia.
      repeat split; [lia | exact Hlow | exact Hhigh].
Qed.

Lemma bisectRight_spec (arr : list nat) (val : nat) :
  ascending arr ->
  partition_point (fun x => x <= val) (fun x => val < x) arr
                  (bisectRight arr val).
Proof.
  intros Hasc. apply bisectRight_loop_spec; [exact Hasc | lia | lia | lia |].
  intros i x Hi Hx. apply lookup_lt_Some in Hx. lia.
Qed.

Lemma bisectLeft_loop_spec (fuel : nat) (arr : list nat) (val lo hi : nat) :
  ascending arr -> lo <= hi <= length arr -> hi - lo <= fuel ->
  (forall i x, i < lo -> arr !! i = Some x -> x < val) ->
  (forall i x, hi <= i -> arr !! i = Some x -> val <= x) ->
  partition_point (fun x => x < val) (fun x => val <= x) arr
                  (bisectLeft_loop fuel arr val lo hi).
Proof.
  intros Hasc. revert lo hi.
  induction fuel as [| fuel IH]; intros lo hi Hb Hf Hlow Hhigh;
    cbn [bisectRight_loop bisectLeft_loop].
  - assert (lo = hi) as -> by lia. repeat split; [lia | exact Hlow | exact Hhigh].
  - destruct (lo <? hi) eqn:Hlt.
    + apply Nat.ltb_lt in Hlt.
      assert (Hmid : lo <= (lo + hi) / 2 < hi).
      { split; [apply Nat.div_le_lower_bound; lia
               | apply Nat.Div0.div_lt_upper_bound; lia]. }
      destruct (arr !! ((lo + hi) / 2)) as [x |] eqn:Hx.
      * destruct (x <? val) eqn:Hc.
        -- apply Nat.ltb_lt in Hc. apply IH; [lia | lia | | exact Hhigh].
           intros i y Hi Hy. pose proof (Hasc i ((lo + hi) / 2) y x ltac:(lia) Hy Hx). lia.
        -- apply Nat.ltb_ge in Hc. apply IH; [lia | lia | exact Hlow |].
           intros i y Hi Hy. pose proof (Hasc ((lo + hi) / 2) i x y ltac:(lia) Hx Hy). lia.
      * apply lookup_ge_None in Hx. lia.
    + apply Nat.ltb_ge in Hlt. assert (lo = hi) as -> by lia.
      repeat split; [lia | exact Hlow | exact Hhigh].
Qed.

Lemma bisectLeft_spec (arr : list nat) (val : nat) :
  ascending arr ->
  partition_point (fun x => x < val) (fun x => val <= x) arr
                  (bisectLeft arr val).
Proof.
  intros Hasc. apply bisectLeft_loop_spec; [exact Hasc | lia | lia | lia |].
  intros i x Hi Hx. apply lookup_lt_Some in Hx. lia.
Qed.

(** *** Spans that tile *)

Lemma tiles_lookup (a b : nat) (spans : list (nat * nat)) (i s e : nat) :
  tiles a b spans -> spans !! i = Some (s, e) -> a <= s /\ s < e /\ e <= b.
Proof.
  revert a i; induction spans as [| [s0 e0] spans IH]; intros a i Ht Hi.
  - discriminate.
  - destruct Ht as (-> & Hlt & Hrest). destruct i as [| i]; simpl in Hi.
    + injection Hi as -> ->. apply SpanFacts.tiles_le in Hrest. lia.
    + destruct (IH _ _ Hrest Hi) as (? & ? & ?). lia.
Qed.

Lemma tiles_first (a b : nat) (spans : list (nat * nat)) (s e : nat) :
  tiles a b spans -> spans !! 0 = Some (s, e) -> s = a.
Proof.
  destruct spans as [| [s0 e0] spans]; [discriminate |].
  intros (-> & _) [= -> ->]. reflexivity.
Qed.

Lemma tiles_adjacent (a b : nat) (spans : list (nat * nat))
    (i s e s' e' : nat) :
  tiles a b spans -> spans !! i = Some (s, e) ->
  spans !! S i = Some (s', e') -> s' = e.
Proof.
  revert a i; induction spans as [| [s0 e0] spans IH]; intros a i Ht Hi Hi'.
  - discriminate.
  - destruct Ht as (-> & Hlt & Hrest). destruct i as [| i]; simpl in Hi, Hi'.
    + injection Hi as -> ->. by apply (tiles_first _ _ _ _ _ Hrest) in Hi'.
    + eapply IH; eassumption.
Qed.

Lemma tiles_before (a b : nat) (spans : list (nat * nat))
    (i j s e s' e' : nat) :
  tiles a b spans -> i < j -> spans !! i = Some (s, e) ->
  spans !! j = Some (s', e') -> e <= s'.
Proof.
  revert a i j; induction spans as [| [s0 e0] spans IH];
    intros a i j Ht Hij Hi Hj.
  - discriminate.
  - destruct Ht as (-> & Hlt & Hrest).
    destruct j as [| j]; [lia |]. simpl in Hj.
    destruct i as [| i]; simpl in Hi.
    + injection Hi as -> ->.
      destruct (tiles_lookup _ _ _ _ _ _ Hrest Hj). lia.
    + eapply (IH _ i j); [eassumption | lia | eassumption..].
Qed.

Lemma tiles_ends_ascending (a b : nat) (spans : list (nat * nat)) :
  tiles a b spans -> ascending (List.map snd spans).
Proof.
  intros Ht i j x y Hij Hx Hy.
  change (List.map snd spans) with (snd <$> spans) in Hx, Hy.
  apply list_lookup_fmap_Some in Hx as ([s e] & -> & Hi).
  apply list_lookup_fmap_Some in Hy as ([s' e'] & -> & Hj).
  simpl. destruct (decide (i = j)) as [-> | Hne].
  - rewrite Hi in Hj. injection Hj as -> ->. lia.
  - pose proof (tiles_before _ _ _ i j _ _ _ _ Ht ltac:(lia) Hi Hj).
    destruct (tiles_lookup _ _ _ _ _ _ Ht Hj). lia.
Qed.

Lemma tiles_starts_ascending (a b : nat) (spans : list (nat * nat)) :
  tiles a b spans -> ascending (List.map fst spans).
Proof.
  intros Ht i j x y Hij Hx Hy.
  change (List.map fst spans) with (fst <$> spans) in Hx, Hy.
  apply list_lookup_fmap_Some in Hx as ([s e] & -> & Hi).
  apply list_lookup_fmap_Some in Hy as ([s' e'] & -> & Hj).
  simpl. destruct (decide (i = j)) as [-> | Hne].
  - rewrite Hi in Hj. injection Hj as -> ->. lia.
  - pose proof (tiles_before _ _ _ i j _ _ _ _ Ht ltac:(lia) Hi Hj).
    destruct (tiles_lookup _ _ _ _ _ _ Ht Hi). lia.
Qed.

(** *** The covering span range *)

Lemma coveredSentenceRange_some (n : nat) (spans : list (nat * nat))
    (start e l h : nat) :
  tiles 0 n spans ->
  coveredSentenceRange spans start e = Some (l, h) ->
  l <= h /\ h < length spans
  /\ fst (span_at spans l) <= start < snd (span_at spans l).
Proof.
  intros Ht. unfold coveredSentenceRange.
  destruct ((length spans =? 0) || (e <=? start)); [discriminate |].
  cbn zeta.
  destruct (bisectRight_spec (List.map snd spans) start
              (tiles_ends_ascending _ _ _ Ht)) as (_ & Hlow & Hhigh).
  destruct (bisectLeft_spec (List.map fst spans) e
              (tiles_starts_ascending _ _ _ Ht)) as (Hlen & _ & _).
  rewrite length_map in Hlen.
  set (lo := bisectRight (List.map snd spans) start) in *.
  set (b := bisectLeft (List.map fst spans) e) in *.
  destruct (length spans <=? lo) eqn:Hlo; [discriminate |].
  destruct (Z.of_nat b - 1 <? 0)%Z eqn:Hneg; [discriminate |].
  destruct (Z.of_nat b - 1 <? Z.of_nat lo)%Z eqn:Hord; [discriminate |].
  simpl. intros [= <- <-].
  apply Nat.leb_gt in Hlo. apply Z.ltb_ge in Hneg, Hord.
  split; [lia |]. split; [lia |].
  destruct (lookup_lt_is_Some_2 spans lo Hlo) as [[s e0] Hs].
  unfold span_at. rewrite Hs. simpl.
  assert (He : List.map snd spans !! lo = Some e0).
  { change (List.map snd spans) with (snd <$> spans).
    by rewrite list_lookup_fmap, Hs. }
  split; [| apply (Hhigh lo e0 (Nat.le_refl _) He)].
  destruct lo as [| p] eqn:Hp.
  - apply (tiles_first _ _ _ _ _ Ht) in Hs. lia.
  - destruct (lookup_lt_is_Some_2 spans p ltac:(lia)) as [[s1 e1] Hs1].
    pose proof (tiles_adjacent _ _ _ _ _ _ _ _ Ht Hs1 Hs) as ->.
    apply (Hlow p e1); [lia |].
    change (List.map snd spans) with (snd <$> spans).
    by rewrite list_lookup_fmap, Hs1.
Qed.

(** *** Sorting *)

Section Sort.
Context {A : Type} (leb : A -> A -> bool) (R : A -> A -> Prop).
Hypothesis leb_true : forall x y, leb x y = true -> R x y.
Hypothesis leb_false : forall x y, leb x y = false -> R y x.
Hypothesis R_trans : forall x y z, R x y -> R y z -> R x z.

Lemma insert_sorted_Forall (P : A -> Prop) (x : A) (l : list A) :
  P x -> Forall P l -> Forall P (insert_sorted leb x l).
Proof.
  intros Hx; induction 1 as [| y l Hy Hl IH]; simpl.
  - by constructor.
  - destruct (leb x y); repeat constructor; assumption.
Qed.

Lemma sort_Forall (P : A -> Prop) (l : list A) :
  Forall P l -> Forall P (sort leb l).
Proof.
  induction 1 as [| x l Hx Hl IH]; simpl.
  - constructor.
  - by apply insert_sorted_Forall.
Qed.

Lemma insert_sorted_sorted (x : A) (l : list A) :
  StronglySorted R l -> StronglySorted R (insert_sorted leb x l).
Proof.
  induction 1 as [| y l Hs IH Hy]; simpl.
  - repeat constructor.
  - destruct (leb x y) eqn:Hc.
    + constructor; [by constructor |]. constructor; [by apply leb_true |].
      eapply Forall_impl; [exact Hy |]. intros z Hz.
      eapply R_trans; [apply leb_true, Hc | exact Hz].
    + constructor; [exact IH |].
      apply insert_sorted_Forall; [by apply leb_false | exact Hy].
Qed.

Lemma sort_sorted (l : list A) : StronglySorted R (sort leb l).
Proof.
  induction l as [| x l IH]; simpl.
  - constructor.
  - by apply insert_sorted_sorted.
Qed.
End Sort.

Lemma StronglySorted_snoc {A} (R : A -> A -> Prop) (l : list A) (x : A) :
  StronglySorted R l -> Forall (fun a => R a x) l ->
  StronglySorted R (l ++ [x]).
Proof.
  induction 1 as [| y l Hs IH Hy]; intros Hall; simpl.
  - repeat constructor.
  - apply Forall_cons in Hall as [Hyx Hall]. constructor; [by apply IH |].
    apply Forall_app. split; [exact Hy | by apply Forall_singleton].
Qed.

Lemma StronglySorted_lookup {A} (R : A -> A -> Prop) (l : list A)
    (i j : nat) (a b : A) :
  StronglySorted R l -> i < j -> l !! i = Some a -> l !! j = Some b ->
  R a b.
Proof.
  intros Hs; revert i j; induction Hs as [| y l Hs IH Hy]; intros i j Hij Hi Hj.
  - discriminate.
  - destruct j as [| j]; [lia |]. simpl in Hj. destruct i as [| i]; simpl in Hi.
    + injection Hi as ->. rewrite Forall_forall in Hy.
      apply Hy. by eapply list_elem_of_lookup_2.
    + apply (IH i j); [lia | assumption..].
Qed.

Lemma cmp_interval_le (a b : CandidateInterval) :
  (cmp_interval a b <=? 0)%Z = true -> lo_le a b.
Proof.
  unfold cmp_interval, lo_le. intros Hc%Z.leb_le.
  destruct (lo a =? lo b) eqn:He; simpl in Hc.
  - apply Nat.eqb_eq in He. lia.
  - lia.
Qed.

Lemma cmp_interval_gt (a b : CandidateInterval) :
  (cmp_interval a b <=? 0)%Z = false -> lo_le b a.
Proof.
  unfold cmp_interval, lo_le. intros Hc%Z.leb_gt.
  destruct (lo a =? lo b) eqn:He; simpl in Hc.
  - apply Nat.eqb_eq in He. lia.
  - lia.
Qed.

(** *** Merging *)

Section Merge.
Variable spans : list (nat * nat).

Lemma extend_well_placed (cur it : CandidateInterval) :
  well_placed spans cur -> well_placed spans it ->
  well_placed spans (extend cur it).
Proof. unfold well_placed, extend; simpl. lia. Qed.

Lemma merge_loop_apart (items : list CandidateInterval)
    (cur : CandidateInterval) (merged : list CandidateInterval) :
  StronglySorted lo_le items -> Forall (well_placed spans) items ->
  Forall (lo_le cur) items -> well_placed spans cur ->
  StronglySorted apart merged -> Forall (well_placed spans) merged ->
  Forall (fun a => apart a cur) merged ->
  StronglySorted apart (merge_loop items cur merged)
  /\ Forall (well_placed spans) (merge_loop items cur merged).
Proof.
  revert cur merged.
  induction items as [| it rest IH];
    intros cur merged Hs Hwp Hcur Hc Hm Hmw Hma; cbn [merge_loop].
  - split.
    + by apply StronglySorted_snoc.
    + apply Forall_app. split; [exact Hmw | by apply Forall_singleton].
  - apply StronglySorted_inv in Hs as [Hs Hit].
    apply Forall_cons in Hwp as [Hwit Hwp].
    apply Forall_cons in Hcur as [Hcit Hcur].
    destruct (lo it <=? hi cur) eqn:Hov.
    + apply IH; try assumption. by apply extend_well_placed.
    + apply Nat.leb_gt in Hov. apply IH; try assumption.
      * by apply StronglySorted_snoc.
      * apply Forall_app. split; [exact Hmw | by apply Forall_singleton].
      * apply Forall_app. split.
        -- eapply Forall_impl; [exact Hma |]. unfold apart, lo_le in *.
           intros a Ha. lia.
        -- apply Forall_singleton. exact Hov.
Qed.

Lemma mergeIntervals_apart (items : list CandidateInterval) :
  Forall (well_placed spans) items ->
  StronglySorted apart (mergeIntervals items)
  /\ Forall (well_placed spans) (mergeIntervals items).
Proof.
  intros Hwp. unfold mergeIntervals.
  pose proof (sort_sorted (fun a b => (cmp_interval a b <=? 0)%Z) lo_le
                cmp_interval_le cmp_interval_gt
                ltac:(unfold lo_le; lia) items) as Hs.
  pose proof (sort_Forall (fun a b => (cmp_interval a b <=? 0)%Z)
                _ _ Hwp) as Hw.
  destruct (sort _ items) as [| first rest].
  - split; constructor.
  - apply StronglySorted_inv in Hs as [Hs Hfirst].
    apply Forall_cons in Hw as [Hwf Hw].
    apply merge_loop_apart; try assumption; constructor.
Qed.

(** Groups that are apart start in different spans, the later one
    further on. *)
Lemma apart_starts (n : nat) (a b : CandidateInterval) :
  tiles 0 n spans -> well_placed spans a -> well_placed spans b ->
  apart a b ->
  raw_start a < raw_start b
  /\ fst (span_at spans (lo a)) < fst (span_at spans (lo b)).
Proof.
  unfold well_placed, apart, span_at.
  intros Ht (Ha1 & Ha2 & Ha3) (Hb1 & Hb2 & Hb3) Hab.
  destruct (lookup_lt_is_Some_2 spans (lo a) ltac:(lia)) as [[s e] Hsa].
  destruct (lookup_lt_is_Some_2 spans (lo b) ltac:(lia)) as [[s' e'] Hsb].
  rewrite Hsa in Ha3 |- *. rewrite Hsb in Hb3 |- *. simpl in *.
  pose proof (tiles_before _ _ _ (lo a) (lo b) _ _ _ _ Ht ltac:(lia)
                Hsa Hsb).
  lia.
Qed.
End Merge.

(** *** Candidates *)

Lemma Forall_flat_map {A B} (P : B -> Prop) (f : A -> list B) (l : list A) :
  (forall x, Forall P (f x)) -> Forall P (flat_map f l).
Proof.
  intros Hf; induction l as [| x l IH]; simpl.
  - constructor.
  - apply Forall_app. split; [apply Hf | exact IH].
Qed.

Section WithHost.
Context `{Host}.
Variable STAGE1_REGEXES : list (jsstring * RegExp).
Variable STAGE2_REGEXES : list (jsstring * RegExp).

Lemma stage1_candidates_well_placed (n : nat) (tNorm : jsstring)
    (spans : list (nat * nat)) :
  tiles 0 n spans ->
  Forall (well_placed spans) (stage1_candidates STAGE1_REGEXES tNorm spans).
Proof.
  intros Ht. unfold stage1_candidates.
  apply Forall_flat_map; intros [pname pregex].
  apply Forall_flat_map; intros [index m0].
  destruct (coveredSentenceRange spans index (index + length m0))
    as [[l h] |] eqn:Hc; [| constructor].
  apply Forall_singleton.
  apply (coveredSentenceRange_some n) in Hc; [exact Hc | exact Ht].
Qed.

Lemma stage2_candidates_well_placed (n : nat) (tNorm : jsstring)
    (spans : list (nat * nat)) :
  tiles 0 n spans ->
  Forall (well_placed spans) (stage2_candidates STAGE2_REGEXES tNorm spans).
Proof.
  intros Ht. unfold stage2_candidates.
  destruct (hasPosTagger && (0 <? length STAGE2_REGEXES)); [| constructor].
  cbn zeta.
  apply Forall_flat_map; intros [pname pregex].
  apply Forall_flat_map; intros [index m0].
  destruct (streamToRaw _ index (index + length m0)) as [[rs re] |];
    [| constructor].
  destruct (coveredSentenceRange spans rs re) as [[l h] |] eqn:Hc;
    [| constructor].
  apply Forall_singleton.
  apply (coveredSentenceRange_some n) in Hc; [exact Hc | exact Ht].
Qed.

Lemma candidates_well_placed (text : jsstring) :
  Forall (well_placed (sentenceSpans (normalizeText text)))
         (candidates STAGE1_REGEXES STAGE2_REGEXES text).
Proof.
  unfold candidates. cbn zeta.
  pose proof (SpanFacts.sentenceSpans_tiles (normalizeText text)) as Ht.
  apply Forall_app. split.
  - by eapply stage1_candidates_well_placed.
  - by eapply stage2_candidates_well_placed.
Qed.

(** Every index read by [build_result] is an index of [spans]. *)
Lemma merged_groups_in_range (text : jsstring) :
  Forall (fun g => lo g <= hi g
                   /\ hi g < length (sentenceSpans (normalizeText text)))
         (merged_groups STAGE1_REGEXES STAGE2_REGEXES text).
Proof.
  unfold merged_groups.
  destruct (mergeIntervals_apart _ _ (candidates_well_placed text))
    as [_ Hw].
  eapply Forall_impl; [exact Hw |]. unfold well_placed. intros g Hg. lia.
Qed.

(** C2. For every text, the matches returned by [extractContrastMatches]
    are built, in order, from the merged groups; every group covers a
    range [lo .. hi] of span indices, and the ranges of any two groups are
    disjoint and do not touch: the range of the earlier one ends strictly
    before the range of the later one begins. The groups are sorted by
    start offset: a later group has the larger raw start and the larger
    start of its sentence block. *)
Theorem extractContrastMatches_disjoint_sorted (text : jsstring) :
  let tNorm := normalizeText text in
  let spans := sentenceSpans tNorm in
  let groups := merged_groups STAGE1_REGEXES STAGE2_REGEXES text in
  extractContrastMatches STAGE1_REGEXES STAGE2_REGEXES text
  = List.map (build_result tNorm spans) groups
  /\ Forall (fun g => lo g <= hi g /\ hi g < length spans) groups
  /\ disjoint_in_order spans groups.
Proof.
  cbn zeta. split; [reflexivity |].
  split; [apply merged_groups_in_range |].
  unfold merged_groups.
  destruct (mergeIntervals_apart _ _ (candidates_well_placed text))
    as [Hs Hw].
  intros i j a b Hij Ha Hb.
  pose proof (StronglySorted_lookup _ _ _ _ _ _ Hs Hij Ha Hb) as Hab.
  split; [exact Hab |].
  rewrite Forall_forall in Hw.
  apply (apart_starts _ (length (normalizeText text)));
    [apply SpanFacts.sentenceSpans_tiles | | | exact Hab].
  - apply Hw. by eapply list_elem_of_lookup_2.
  - apply Hw. by eapply list_elem_of_lookup_2.
Qed.

End WithHost.

Lemma extractContrastMatches_disjoint_sorted_witness :
  exists a b,
    @merged_groups ascii_host [(lit "p", two_hits)] [] (lit "An ox. A cow.")
    = [a; b]
    /\ hi a < lo b /\ raw_start a < raw_start b.
Proof.
  eexists _, _. split; [vm_compute; reflexivity |].
  destruct (proj2 (proj2 (@extractContrastMatches_disjoint_sorted ascii_host
                     [(lit "p", two_hits)] [] (lit "An ox. A cow.")))
              0 1 _ _ ltac:(lia) eq_refl eq_refl) as (Hgap & Hraw & _).
  split; [exact Hgap | exact Hraw].
Defined.

End ContrastFacts.

(** ** Text utilities *)

Module UtilsFacts.
Import Utils Spec Shape.

Lemma lookup_map {A B} (f : A -> B) (l : list A) (i : nat) :
  List.map f l !! i = f <$> (l !! i).
Proof.
  revert i; induction l as [| x l IH]; intros [| i]; simpl; auto.
Qed.

Lemma normalizeText_map (text : jsstring) :
  normalizeText text
  = List.map (fun c => fold_left (fun d '(old, newChar) =>
                                    if (old =? d)%N then newChar else d)
                                 replacements c) text.
Proof.
  unfold normalizeText, replacements, replace_class. cbn [fold_left].
  rewrite !map_map. reflexivity.
Qed.

Lemma normalize_char_cases (c : char) :
  let d := fold_left (fun d '(old, newChar) =>
                        if (old =? d)%N then newChar else d)
                     replacements c in
  is_typographic d = false
  /\ (is_typographic c = false -> d = c).
Proof.
  cbn zeta. destruct (is_typographic c) eqn:Ht.
  - unfold is_typographic in Ht.
    repeat (apply orb_true_iff in Ht as [Ht | Ht]);
      apply N.eqb_eq in Ht; subst c; (split; [reflexivity | discriminate]).
  - assert (Hc := Ht). unfold is_typographic in Hc.
    repeat (apply orb_false_iff in Hc as [Hc ?]).
    unfold replacements. cbn [fold_left].
    repeat match goal with
           | H : (c =? ?k)%N = false |- _ =>
               rewrite (N.eqb_sym k c), H; clear H
           end.
    auto.
Qed.

(** X1. [normalizeText] keeps every offset: the result has the length of the
    input, holds no curly quote and no long dash, leaves every other code
    unit where it was, and normalizing twice changes nothing more. *)
Theorem normalizeText_keeps_offsets (text : jsstring) :
  length (normalizeText text) = length text
  /\ (forall i c, normalizeText text !! i = Some c ->
        is_typographic c = false)
  /\ (forall i c, text !! i = Some c -> is_typographic c = false ->
        normalizeText text !! i = Some c)
  /\ normalizeText (normalizeText text) = normalizeText text.
Proof.
  rewrite !normalizeText_map.
  split; [apply length_map |]. split; [| split].
  - intros i c Hi. unfold jsstring, char in *. rewrite lookup_map in Hi.
    destruct (text !! i) as [c0 |]; [| discriminate].
    injection Hi as <-. apply normalize_char_cases.
  - intros i c Hi Hc. unfold jsstring, char in *.
    rewrite lookup_map, Hi. simpl. f_equal.
    by apply normalize_char_cases.
  - rewrite map_map. apply map_ext. intros c.
    destruct (normalize_char_cases c) as [Hd _].
    by apply normalize_char_cases.
Qed.

(** *** Tokens *)

Lemma runs_aux_shape (p : char -> bool) (s cur : jsstring) :
  Forall (fun c => p c = true) cur ->
  Forall (fun t => t <> [] /\ Forall (fun c => p c = true) t)
         (runs_aux p s cur).
Proof.
  revert cur; induction s as [| c s IH]; intros cur Hcur; simpl.
  - destruct cur; [constructor |]. apply Forall_singleton. split; [discriminate | exact Hcur].
  - destruct (p c) eqn:Hp.
    + apply IH. apply Forall_app. split; [exact Hcur | by apply Forall_singleton].
    + destruct cur as [| d cur].
      * apply IH. constructor.
      * constructor; [split; [discriminate | exact Hcur] | apply IH; constructor].
Qed.

Lemma drop_while_split (p : char -> bool) (s : jsstring) :
  exists l, s = l ++ drop_while p s.
Proof.
  induction s as [| c s [l IH]]; simpl.
  - by exists [].
  - destruct (p c).
    + exists (c :: l). simpl. by f_equal.
    + by exists [].
Qed.

Lemma drop_while_head (p : char -> bool) (s : jsstring) (c : char) :
  head (drop_while p s) = Some c -> p c = false.
Proof.
  induction s as [| d s IH]; simpl; [discriminate |].
  destruct (p d) eqn:Hp; [exact IH |]. simpl. by intros [= <-].
Qed.

Lemma drop_while_Forall (p : char -> bool) (Q : char -> Prop) (s : jsstring) :
  Forall Q s -> Forall Q (drop_while p s).
Proof.
  induction 1 as [| c s Hc Hs IH]; simpl; [constructor |].
  destruct (p c); [exact IH | by constructor].
Qed.

Lemma drop_while_end_prefix (p : char -> bool) (s : jsstring) :
  exists r, s = drop_while_end p s ++ r.
Proof.
  unfold drop_while_end. destruct (drop_while_split p (rev s)) as [l Hl].
  exists (rev l). rewrite <- rev_app_distr, <- Hl. symmetry. apply rev_involutive.
Qed.

Lemma last_rev (l : jsstring) : last (rev l) = head l.
Proof. destruct l as [| c l]; [reflexivity |]. simpl. apply last_snoc. Qed.

Lemma drop_while_end_last (p : char -> bool) (s : jsstring) (c : char) :
  last (drop_while_end p s) = Some c -> p c = false.
Proof. unfold drop_while_end. rewrite last_rev. apply drop_while_head. Qed.

Lemma drop_while_end_Forall (p : char -> bool) (Q : char -> Prop)
    (s : jsstring) :
  Forall Q s -> Forall Q (drop_while_end p s).
Proof.
  intros Hs. unfold drop_while_end.
  apply Forall_rev, drop_while_Forall, Forall_rev, Hs.
Qed.

Lemma token_unit_not_apostrophe (c : char) :
  is_token_unit c = true -> is_apostrophe c = false -> is_lower c = true.
Proof. unfold is_token_unit. intros H1 H2. rewrite H2, orb_false_r in H1. exact H1. Qed.

Section WithHost.
Context `{Host}.

(** X2. Every token returned by [wordsOnlyLower] is non-empty, is made of
    lower-case letters and apostrophes only, and begins and ends with a
    letter. *)
Theorem wordsOnlyLower_token_shape (s t : jsstring) :
  t ∈ wordsOnlyLower s ->
  t <> []
  /\ Forall (fun c => is_token_unit c = true) t
  /\ (forall c, head t = Some c -> is_lower c = true)
  /\ (forall c, last t = Some c -> is_lower c = true).
Proof.
  unfold wordsOnlyLower. cbn zeta. intros Ht.
  apply list_elem_of_In, filter_In in Ht as [Ht Hlen].
  apply in_map_iff in Ht as (tok & <- & Htok).
  apply Nat.ltb_lt in Hlen.
  pose proof (runs_aux_shape (fun c => is_lower c || is_apostrophe c)
                (normalizeQuotes (toLowerCase s)) [] ltac:(constructor)) as Hr.
  rewrite Forall_forall in Hr.
  destruct (Hr tok) as [_ Hunits]; [by apply list_elem_of_In |].
  assert (Hall : Forall (fun c => is_token_unit c = true)
                        (strip_apostrophes tok)).
  { unfold strip_apostrophes.
    by apply drop_while_end_Forall, drop_while_Forall. }
  split; [intros Hnil; rewrite Hnil in Hlen; simpl in Hlen; lia |].
  split; [exact Hall |]. split.
  - intros c Hc. apply token_unit_not_apostrophe.
    + destruct (strip_apostrophes tok) as [| d r]; [discriminate |].
      injection Hc as ->. by apply Forall_cons in Hall as [? _].
    + unfold strip_apostrophes in Hc.
      destruct (drop_while_end_prefix is_apostrophe
                  (drop_while is_apostrophe tok)) as [r Hr'].
      apply (drop_while_head is_apostrophe tok). rewrite Hr'.
      destruct (drop_while_end is_apostrophe _) as [| d l];
        [discriminate | exact Hc].
  - intros c Hc. apply token_unit_not_apostrophe.
    + rewrite Forall_forall in Hall. apply Hall.
      apply last_Some_elem_of, Hc.
    + apply (drop_while_end_last _ _ _ Hc).
Qed.

End WithHost.

Lemma wordsOnlyLower_token_shape_witness :
  lit "don't" <> []
  /\ Forall (fun c => is_token_unit c = true) (lit "don't")
  /\ (forall c, head (lit "don't") = Some c -> is_lower c = true)
  /\ (forall c, last (lit "don't") = Some c -> is_lower c = true).
Proof.
  apply (@wordsOnlyLower_token_shape ascii_host (lit "'Don't' stop")).
  vm_compute. apply list_elem_of_here.
Defined.

Lemma lower_not_apostrophe (c : char) :
  is_lower c = true -> is_apostrophe c = false.
Proof.
  unfold is_lower, char_in, is_apostrophe.
  intros [H1 H2]%andb_true_iff. apply N.leb_le in H1. apply N.eqb_neq. lia.
Qed.

Lemma alpha_re_letters (t : jsstring) : letters t -> alpha_re t = true.
Proof.
  intros [Hne Hall]. induction t as [| c t IH]; [congruence |].
  simpl in Hall. apply andb_true_iff in Hall as [Hc Ht].
  cbn [alpha_re]. rewrite Hc, andb_true_l.
  destruct t as [| d t']; [reflexivity |].
  assert (Hd : is_lower d = true) by (simpl in Ht; by apply andb_true_iff in Ht as [? _]).
  pose proof (lower_not_apostrophe d Hd) as Hq.
  destruct (is_apostrophe d); [discriminate |].
  apply IH; [discriminate | exact Ht].
Qed.

Lemma alpha_re_spec (t : jsstring) :
  alpha_re t = true <->
  letters t \/ exists a b, letters a /\ letters b /\ t = a ++ 39%N :: b.
Proof.
  split.
  - induction t as [| c t IH]; [discriminate |].
    cbn [alpha_re]. intros [Hc Hrest]%andb_true_iff.
    destruct t as [| d t'].
    + left. split; [discriminate | simpl; by rewrite Hc].
    + destruct (is_apostrophe d) eqn:Hd.
      * right. exists [c], t'. apply N.eqb_eq in Hd. subst d.
        split; [split; [discriminate | simpl; by rewrite Hc] |].
        split; [| reflexivity].
        destruct t'; [discriminate | split; [discriminate | exact Hrest]].
      * destruct (IH Hrest) as [[_ Hl] | (a & b & [Ha1 Ha2] & Hb & Heq)].
        -- left. split; [discriminate |].
           change (is_lower c && all_lower (d :: t') = true). by rewrite Hc.
        -- right. exists (c :: a), b.
           split; [split; [discriminate | simpl; by rewrite Hc] |].
           split; [exact Hb | simpl; by rewrite Heq].
  - intros [Hl | (a & b & Ha & Hb & ->)]; [by apply alpha_re_letters |].
    destruct Ha as [Hne Ha]. induction a as [| c a IH]; [congruence |].
    simpl in Ha. apply andb_true_iff in Ha as [Hc Ha].
    destruct a as [| d a'].
    + change (alpha_re (c :: 39%N :: b) = true). cbn [alpha_re].
      rewrite Hc, andb_true_l. change (is_apostrophe 39%N) with true.
      destruct Hb as [Hbne Hb]. destruct b; [congruence | exact Hb].
    + assert (Hd : is_lower d = true)
        by (simpl in Ha; by apply andb_true_iff in Ha as [? _]).
      change (alpha_re (c :: d :: (a' ++ 39%N :: b)) = true).
      cbn [alpha_re]. rewrite Hc, andb_true_l.
      rewrite (lower_not_apostrophe d Hd).
      apply IH; [discriminate | exact Ha].
Qed.

(** X3. [alphaTokens] keeps exactly the tokens that are a run of lower-case
    letters, or two such runs joined by one apostrophe. *)
Theorem alphaTokens_keeps_words (tokens : list jsstring) (t : jsstring) :
  t ∈ alphaTokens tokens <->
  t ∈ tokens
  /\ (letters t \/ exists a b, letters a /\ letters b /\ t = a ++ 39%N :: b).
Proof.
  unfold alphaTokens. rewrite <- alpha_re_spec.
  rewrite !list_elem_of_In. apply filter_In.
Qed.

(** *** Counting *)

Lemma get_set (m : list (jsstring * nat)) (k k' : jsstring) (v : nat) :
  OrdMap.get (OrdMap.set m k v) k'
  = if decide (k' = k) then Some v else OrdMap.get m k'.
Proof.
  induction m as [| [k0 v0] m IH]; simpl.
  - destruct (decide (k' = k)); reflexivity.
  - destruct (decide (k = k0)) as [-> | Hne]; simpl.
    + destruct (decide (k' = k0)); reflexivity.
    + destruct (decide (k' = k0)) as [-> | Hne'].
      * destruct (decide (k0 = k)); [congruence | reflexivity].
      * exact IH.
Qed.

Lemma keys_set (m : list (jsstring * nat)) (k : jsstring) (v : nat) :
  List.map fst (OrdMap.set m k v)
  = if bool_decide (k ∈ List.map fst m) then List.map fst m
    else List.map fst m ++ [k].
Proof.
  induction m as [| [k0 v0] m IH].
  - case_bool_decide as Hin; [by apply elem_of_nil in Hin | reflexivity].
  - cbn [OrdMap.set]. destruct (decide (k = k0)) as [-> | Hne].
    + clear IH. cbn [List.map fst].
      rewrite bool_decide_eq_true_2 by apply list_elem_of_here. reflexivity.
    + cbn [List.map fst]. rewrite IH.
      repeat case_bool_decide; try reflexivity.
      * exfalso. match goal with H : ¬ _ |- _ => apply H end.
        by apply list_elem_of_further.
      * exfalso.
        match goal with H : _ ∈ _ :: _ |- _ =>
          apply elem_of_cons in H as [? | ?] end; [congruence | contradiction].
Qed.

Lemma values_set_sum (m : list (jsstring * nat)) (k : jsstring) (d : nat) :
  sum_list (List.map snd (OrdMap.set m k (default 0 (OrdMap.get m k) + d)))
  = sum_list (List.map snd m) + d.
Proof.
  induction m as [| [k0 v0] m IH]; simpl.
  - lia.
  - destruct (decide (k = k0)) as [-> | Hne]; simpl; [lia |].
    rewrite IH. lia.
Qed.

Lemma fold_add_sum (l : list nat) (a : nat) :
  fold_left (fun x y => x + y) l a = a + sum_list l.
Proof.
  revert a; induction l as [| x l IH]; intros a; simpl; [lia |].
  rewrite IH. lia.
Qed.

Lemma occurrences_cons (x y : jsstring) (arr : list jsstring) :
  occurrences x (y :: arr)
  = (if decide (y = x) then 1 else 0) + occurrences x arr.
Proof.
  unfold occurrences. simpl. destruct (decide (y = x)) as [-> | Hne].
  - by rewrite bool_decide_eq_true_2.
  - by rewrite bool_decide_eq_false_2.
Qed.

Lemma fold_bump_get (arr : list jsstring) (m : list (jsstring * nat))
    (x : jsstring) :
  OrdMap.get (fold_left bump arr m) x
  = match occurrences x arr with
    | 0 => OrdMap.get m x
    | S n => Some (default 0 (OrdMap.get m x) + S n)
    end.
Proof.
  revert m; induction arr as [| y arr IH]; intros m; [reflexivity |].
  cbn [fold_left]. rewrite IH, occurrences_cons. unfold bump at 1 2.
  rewrite get_set. destruct (decide (y = x)) as [-> | Hne].
  - rewrite decide_True by reflexivity. simpl.
    destruct (occurrences x arr); f_equal; lia.
  - rewrite decide_False by congruence. reflexivity.
Qed.

Lemma fold_bump_keys (arr : list jsstring) (m : list (jsstring * nat)) :
  NoDup (List.map fst m) -> NoDup (List.map fst (fold_left bump arr m)).
Proof.
  revert m; induction arr as [| y arr IH]; intros m Hm; [exact Hm |].
  cbn [fold_left]. apply IH. unfold bump. rewrite keys_set.
  case_bool_decide as Hin; [exact Hm |].
  apply NoDup_app. split; [exact Hm |]. split.
  - intros z Hz [-> | []%elem_of_nil]%elem_of_cons. contradiction.
  - apply NoDup_singleton.
Qed.

Lemma fold_bump_sum (arr : list jsstring) (m : list (jsstring * nat)) :
  sum_list (List.map snd (fold_left bump arr m))
  = sum_list (List.map snd m) + length arr.
Proof.
  revert m; induction arr as [| y arr IH]; intros m; simpl; [lia |].
  rewrite IH. unfold bump. rewrite values_set_sum. lia.
Qed.

(** X4. [countItems] maps every item of the array to the number of its
    occurrences and has no entry for anything else; its keys are distinct
    and its counts add up to the length of the array. *)
Theorem countItems_counts_occurrences (arr : list jsstring) :
  (forall x, OrdMap.get (countItems arr) x
             = match occurrences x arr with
               | 0 => None
               | n => Some n
               end)
  /\ NoDup (List.map fst (OrdMap.entries (countItems arr)))
  /\ Metrics.sum_counts (countItems arr) = length arr.
Proof.
  unfold countItems. split; [| split].
  - intros x. rewrite fold_bump_get. simpl.
    destruct (occurrences x arr); reflexivity.
  - apply fold_bump_keys. constructor.
  - unfold Metrics.sum_counts, OrdMap.values.
    rewrite fold_add_sum, fold_bump_sum. simpl. lia.
Qed.

(** *** N-grams *)

(** X5. [getNgrams words n] has [length words + 1 - n] elements, the [i]-th
    being the [n] words from position [i] joined by single spaces; it is
    empty when there are fewer than [n] words. *)
Theorem getNgrams_windows (words : list jsstring) (n : nat) :
  length (getNgrams words n) = length words + 1 - n
  /\ (forall i, i + n <= length words ->
        getNgrams words n !! i
        = Some (join (lit " ") (take n (drop i words))))
  /\ (length words < n -> getNgrams words n = []).
Proof.
  unfold getNgrams. split; [| split].
  - by rewrite length_map, length_seq.
  - intros i Hi. rewrite lookup_map, lookup_seq_lt by lia. simpl.
    unfold slice. do 3 f_equal. lia.
  - intros Hlt. replace (length words + 1 - n) with 0 by lia. reflexivity.
Qed.

(** *** Sentences *)

Lemma sentSplit_here_some_spec (s : jsstring) (len : nat) :
  sentSplit_here s = Some len ->
  (forall k c, k < len - 1 -> s !! k = Some c -> is_terminator c = false)
  /\ exists c, s !! (len - 1) = Some c /\ is_terminator c = true.
Proof.
  revert len; induction s as [| d s IH]; intros len; simpl; [discriminate |].
  destruct (is_terminator d) eqn:Hd.
  - intros [= <-]. split; [intros k c Hk; lia |]. exists d. by split.
  - destruct (sentSplit_here s) as [n |] eqn:Hs; simpl; [| discriminate].
    intros [= <-]. destruct (IH n eq_refl) as [Hint (c & Hc & Ht)].
    pose proof (SpanFacts.sentSplit_here_bounds s n Hs) as Hn.
    split.
    + intros [| k] c0 Hk Hl; simpl in Hl.
      * by injection Hl as <-.
      * apply (Hint k); [lia | exact Hl].
    + exists c. split; [| exact Ht].
      replace (S n - 1) with (S (n - 1)) by lia. exact Hc.
Qed.

Lemma sentSplit_here_none_spec (s : jsstring) :
  sentSplit_here s = None -> Forall (fun c => is_terminator c = false) s.
Proof.
  induction s as [| d s IH]; simpl; [constructor |].
  destruct (is_terminator d) eqn:Hd; [discriminate |].
  destruct (sentSplit_here s); [discriminate |]. intros _.
  constructor; [exact Hd | by apply IH].
Qed.

Lemma sentSplit_search_none_here (s : jsstring) (idx : nat) :
  sentSplit_search s idx = None -> sentSplit_here s = None.
Proof.
  destruct s as [| c s]; [reflexivity |].
  rewrite SpanFacts.sentSplit_search_unfold.
  destruct (sentSplit_here (c :: s)); [discriminate | reflexivity].
Qed.

Lemma sentenceSpans_loop_terminated (fuel : nat) (text : jsstring) (i : nat)
    (spans : list (nat * nat)) :
  i <= length text -> length text - i < fuel ->
  Forall (terminated text) spans ->
  let r := sentenceSpans_loop fuel text i spans i in
  Forall (terminated text) r.1 /\ r.2 <= length text
  /\ unterminated_from text r.2.
Proof.
  revert i spans; induction fuel as [| fuel IH]; intros i spans Hi Hf Hsp;
    [lia |].
  cbn [sentenceSpans_loop].
  destruct (sentSplit_exec text i) as [[index len] |] eqn:He.
  - pose proof (SpanFacts.sentSplit_exec_some _ _ _ _ He) as (-> & Hpos & Hlen).
    revert He. unfold sentSplit_exec.
    destruct (_ <? i); [intros He; discriminate He |]. intros He.
    assert (Hh : sentSplit_here (drop i text) = Some len).
    { revert He. destruct (drop i text) as [| c s];
        [intros He; discriminate He |].
      rewrite SpanFacts.sentSplit_search_unfold.
      destruct (sentSplit_here (c :: s)) as [n |] eqn:Hn; intros He.
      - by injection He as <-.
      - rewrite SpanFacts.sentSplit_search_none in He; [discriminate |].
        by apply (SpanFacts.sentSplit_here_tail c). }
    apply sentSplit_here_some_spec in Hh as [Hint (c & Hc & Ht)].
    apply IH; [lia | lia |].
    apply Forall_app. split; [exact Hsp |]. apply Forall_singleton.
    split; simpl.
    + intros k c0 Hk Hl. apply (Hint (k - i)); [lia |].
      unfold jsstring, char in *. rewrite lookup_drop. replace (i + (k - i)) with k by lia. exact Hl.
    + exists c. split; [| exact Ht].
      unfold jsstring, char in *. rewrite lookup_drop in Hc.
      replace (i + len - 1) with (i + (len - 1)) by lia. exact Hc.
  - split; [exact Hsp |]. split; [exact Hi |]. simpl.
    revert He. unfold sentSplit_exec.
    destruct (_ <? i) eqn:Hlt; [apply Nat.ltb_lt in Hlt; lia |].
    intros He.
    apply sentSplit_search_none_here, sentSplit_here_none_spec in He.
    intros k c Hk Hl. rewrite Forall_forall in He. apply He.
    apply (list_elem_of_lookup_2 _ (k - i)).
    unfold jsstring, char in *. rewrite lookup_drop.
    replace (i + (k - i)) with k by lia. exact Hl.
Qed.

(** X6. The spans of [sentenceSpans] are cut right after each terminator:
    every span but possibly the last ends in [.], [!] or [?] and holds no
    other terminator, and a last span without one runs to the end of the
    text. *)
Theorem sentenceSpans_split_after_terminators (text : jsstring) :
  exists spans tail,
    sentenceSpans text = spans ++ tail
    /\ Forall (terminated text) spans
    /\ (tail = []
        \/ exists s, tail = [(s, length text)] /\ s < length text
                     /\ unterminated_from text s).
Proof.
  unfold sentenceSpans.
  pose proof (sentenceSpans_loop_terminated (S (length text)) text 0 []
                ltac:(lia) ltac:(lia) ltac:(constructor)) as Hl.
  destruct (sentenceSpans_loop (S (length text)) text 0 [] 0)
    as [spans lastEnd].
  simpl in Hl. destruct Hl as (Hsp & Hle & Hun).
  destruct (lastEnd <? length text) eqn:Hlt.
  - apply Nat.ltb_lt in Hlt. exists spans, [(lastEnd, length text)].
    split; [reflexivity |]. split; [exact Hsp |]. right.
    exists lastEnd. auto.
  - exists spans, []. rewrite app_nil_r. auto.
Qed.

(** *** Top entries *)

Lemma insert_sorted_length {A} (leb : A -> A -> bool) (x : A) (l : list A) :
  length (insert_sorted leb x l) = S (length l).
Proof.
  induction l as [| y l IH]; simpl; [reflexivity |].
  destruct (leb x y); simpl; by rewrite ?IH.
Qed.

Lemma sort_length {A} (leb : A -> A -> bool) (l : list A) :
  length (sort leb l) = length l.
Proof.
  induction l as [| x l IH]; simpl; [reflexivity |].
  by rewrite insert_sorted_length, IH.
Qed.

Lemma StronglySorted_take {A} (R : A -> A -> Prop) (l : list A) (k : nat) :
  StronglySorted R l -> StronglySorted R (take k l).
Proof.
  intros Hs; revert k; induction Hs as [| x l Hs IH Hx]; intros [| k]; simpl;
    try constructor; [apply IH | by apply Forall_take].
Qed.

Lemma StronglySorted_map {A B} (R : A -> A -> Prop) (R' : B -> B -> Prop)
    (g : A -> B) (l : list A) :
  (forall a b, R a b -> R' (g a) (g b)) ->
  StronglySorted R l -> StronglySorted R' (List.map g l).
Proof.
  intros Hg; induction 1 as [| x l Hs IH Hx]; simpl; constructor; [exact IH |].
  rewrite Forall_forall in Hx. apply Forall_forall. intros y Hy.
  apply list_elem_of_In, in_map_iff in Hy as (a & <- & Ha).
  apply Hg, Hx. by apply list_elem_of_In.
Qed.

Lemma sort_descending (entries : list (jsstring * Q)) :
  StronglySorted descending
    (sort (fun a b => Qle_bool (b.2 - a.2) 0) entries).
Proof.
  apply (ContrastFacts.sort_sorted _ descending); unfold descending.
  - intros x y Hc%Qle_bool_iff. lra.
  - intros x y Hc. destruct (Qlt_le_dec 0 (y.2 - x.2)) as [Hl | Hl]; [lra |].
    apply Qle_bool_iff in Hl. congruence.
  - intros x y z ? ?. lra.
Qed.

(** X7. [topKEntries] returns [min k n] of the [n] entries, in descending
    order of value, each with the value of an input entry and that entry's
    key transformed. *)
Theorem topKEntries_sorted_top (entries : list (jsstring * Q)) (k : nat)
    (keyTransform : jsstring -> jsstring) :
  let r := UtilsRest.topKEntries entries k keyTransform in
  length r = Nat.min k (length entries)
  /\ StronglySorted descending r
  /\ (forall e, e ∈ r ->
        exists w, (w, e.2) ∈ entries /\ e.1 = keyTransform w).
Proof.
  unfold UtilsRest.topKEntries, slice. cbn zeta. rewrite drop_0, Nat.sub_0_r.
  split; [| split].
  - by rewrite length_map, length_take, sort_length.
  - apply (StronglySorted_map descending).
    + intros [w v] [w' v'] Hd. exact Hd.
    + apply StronglySorted_take, sort_descending.
  - intros e He. apply list_elem_of_In, in_map_iff in He as ([w v] & <- & Hin).
    exists w. split; [| reflexivity]. simpl.
    apply list_elem_of_In, elem_of_take in Hin as (i & Hi & _).
    assert (Hall : Forall (fun e => e ∈ entries)
                     (sort (fun a b => Qle_bool (b.2 - a.2) 0) entries)).
    { apply ContrastFacts.sort_Forall, Forall_forall. auto. }
    rewrite Forall_forall in Hall. apply Hall.
    by eapply list_elem_of_lookup_2.
Qed.

End UtilsFacts.

(** ** The frequency table: loading and lookups *)

Module TableFacts.
Import Wordfreq Spec Shape Examples Inputs.

Lemma fill_bins_origin (bins : list (option (list jsstring))) (k : nat)
    (m : gmap jsstring Q) (w : jsstring) (z : Q) :
  fill_bins bins k m !! w = Some z ->
  m !! w = Some z
  \/ exists i ws, bins !! i = Some (Some ws) /\ w ∈ ws
                  /\ z = zipf_of_bin (k + i).
Proof.
  revert k m; induction bins as [| b bins IH]; intros k m Hl; simpl in Hl.
  - by left.
  - apply IH in Hl as [Hl | (i & ws & Hi & Hin & ->)].
    + destruct b as [[| x ws] |]; try by left.
      rewrite WordfreqFacts.set_words_lookup in Hl.
      case_bool_decide as Hin; [| by left].
      injection Hl as <-. right. exists 0, (x :: ws).
      split; [reflexivity |]. split; [exact Hin |]. by rewrite Nat.add_0_r.
    + right. exists (S i), ws. split; [exact Hi |]. split; [exact Hin |].
      f_equal. lia.
Qed.

(** X8. [loadWordfreq] accepts exactly the files whose header has format
    [cB] and version 1; for every other file it throws the error whose
    message is [Unexpected format: ] followed by the serialised header of
    that file. The table of an accepted file has default 0, every entry
    comes from a bin that lists the word, with the zipf value of that bin,
    and a word in no bin has no entry. *)
Theorem loadWordfreq_header_and_entries (data : Cbpack) :
  (valid_header data ->
   exists wf, loadWordfreq data = Ok wf /\ minZipf wf = 0%Q
     /\ (forall w z, wf_map wf !! w = Some z ->
           exists i ws, bins data !! i = Some (Some ws) /\ w ∈ ws
                        /\ z = zipf_of_bin i)
     /\ (forall w, (forall i ws, bins data !! i = Some (Some ws) -> w ∉ ws) ->
           wf_map wf !! w = None))
  /\ (~ valid_header data ->
      loadWordfreq data = Throw (unexpected_format (header data))).
Proof.
  split.
  - intros (h & Hh & Hf & Hv).
    rewrite (WordfreqFacts.loadWordfreq_accepts data h Hh Hf Hv).
    eexists. split; [reflexivity |]. split; [reflexivity |]. simpl. split.
    + intros w z Hl. apply fill_bins_origin in Hl as [Hl | Hl].
      * by rewrite lookup_empty in Hl.
      * exact Hl.
    + intros w Hno. rewrite WordfreqFacts.fill_bins_untouched by exact Hno.
      apply lookup_empty.
  - intros Hbad. unfold loadWordfreq. cbn zeta.
    destruct (header data) as [h |] eqn:Hh; [| reflexivity].
    destruct (bool_decide (format h = lit "cB")) eqn:Hf;
      [| reflexivity].
    destruct (version h =? 1)%Z eqn:Hv; [| reflexivity].
    exfalso. apply Hbad. exists h.
    apply bool_decide_eq_true in Hf. apply Z.eqb_eq in Hv. auto.
Qed.

Lemma zipf_of_bin_antitone (i j : nat) :
  i <= j -> (zipf_of_bin j <= zipf_of_bin i)%Q.
Proof.
  intros Hij. unfold zipf_of_bin, Qdiv.
  apply Qmult_le_compat_r; [| by vm_compute].
  apply Qplus_le_l. rewrite <- Zle_Qle. lia.
Qed.

(** X9. In a loaded table a word whose last bin comes earlier never has the
    smaller zipf value, and no value exceeds 9. *)
Theorem loadWordfreq_rank_order (data : Cbpack) (wf : WordfreqEn)
    (a b : jsstring) (i j : nat) :
  loadWordfreq data = Ok wf ->
  last_bin_of (bins data) a i -> last_bin_of (bins data) b j -> i <= j ->
  exists za zb,
    wf_map wf !! a = Some za /\ wf_map wf !! b = Some zb
    /\ (zb <= za)%Q /\ (za <= 9)%Q.
Proof.
  unfold loadWordfreq. intros Hload [(wsa & Hia & Hina) Hla]
    [(wsb & Hjb & Hinb) Hlb] Hij.
  destruct (header data) as [h |]; [| discriminate].
  destruct (bool_decide (format h = lit "cB") && (version h =? 1)%Z);
    [| discriminate].
  injection Hload as <-. simpl.
  exists (zipf_of_bin i), (zipf_of_bin j).
  split; [apply (WordfreqFacts.fill_bins_last _ 0 ∅ a i wsa Hia Hina Hla) |].
  split; [apply (WordfreqFacts.fill_bins_last _ 0 ∅ b j wsb Hjb Hinb Hlb) |].
  split; [by apply zipf_of_bin_antitone |].
  eapply Qle_trans; [apply (zipf_of_bin_antitone 0 i); lia | by vm_compute].
Qed.

Lemma loadWordfreq_rank_order_witness :
  exists za zb,
    fill_bins (bins two_words) 0 ∅ !! lit "the" = Some za
    /\ fill_bins (bins two_words) 0 ∅ !! lit "cat" = Some zb
    /\ (zb <= za)%Q /\ (za <= 9)%Q.
Proof.
  apply (loadWordfreq_rank_order two_words
           {| wf_map := fill_bins (bins two_words) 0 ∅; minZipf := 0 |}
           (lit "the") (lit "cat") 1 3).
  - reflexivity.
  - split.
    + exists [lit "the"]. split; [reflexivity | apply list_elem_of_here].
    + intros j ws' Hj Hb.
      destruct j as [| [| [| [| j]]]]; try lia; try discriminate Hb.
      injection Hb as <-.
      intros [Heq | []%elem_of_nil]%elem_of_cons. discriminate Heq.
  - split.
    + exists [lit "cat"]. split; [reflexivity | apply list_elem_of_here].
    + intros j ws' Hj Hb.
      destruct j as [| [| [| [| j]]]]; try lia; discriminate Hb.
  - lia.
Defined.

(** *** Curly quotes *)

Lemma uncurl_char_cases (c : char) :
  let d := (if (8221 =? (if 8220 =? (if 8217 =? (if 8216 =? c then 39 else c)
                                      then 39 else if 8216 =? c then 39 else c)
                         then 34
                         else if 8217 =? (if 8216 =? c then 39 else c)
                              then 39 else if 8216 =? c then 39 else c))
            then 34
            else if 8220 =? (if 8217 =? (if 8216 =? c then 39 else c)
                             then 39 else if 8216 =? c then 39 else c)
                 then 34
                 else if 8217 =? (if 8216 =? c then 39 else c)
                      then 39 else if 8216 =? c then 39 else c)%N in
  is_curly d = false /\ (is_curly c = false -> d = c).
Proof.
  cbn zeta. destruct (is_curly c) eqn:Ht.
  - unfold is_curly in Ht.
    repeat (apply orb_true_iff in Ht as [Ht | Ht]);
      apply N.eqb_eq in Ht; subst c; (split; [reflexivity | discriminate]).
  - assert (Hc := Ht). unfold is_curly in Hc.
    repeat (apply orb_false_iff in Hc as [Hc ?]).
    repeat match goal with
           | H : (c =? ?k)%N = false |- _ =>
               rewrite (N.eqb_sym k c), H; clear H
           end.
    auto.
Qed.

Lemma uncurlQuotes_map (s : jsstring) :
  uncurlQuotes s
  = List.map (fun c =>
      (if (8221 =? (if 8220 =? (if 8217 =? (if 8216 =? c then 39 else c)
                                then 39 else if 8216 =? c then 39 else c)
                   then 34
                   else if 8217 =? (if 8216 =? c then 39 else c)
                        then 39 else if 8216 =? c then 39 else c))
       then 34
       else if 8220 =? (if 8217 =? (if 8216 =? c then 39 else c)
                        then 39 else if 8216 =? c then 39 else c)
            then 34
            else if 8217 =? (if 8216 =? c then 39 else c)
                 then 39 else if 8216 =? c then 39 else c)%N) s.
Proof. unfold uncurlQuotes, replace_class. rewrite !map_map. reflexivity. Qed.

Lemma uncurlQuotes_idempotent (s : jsstring) :
  uncurlQuotes (uncurlQuotes s) = uncurlQuotes s.
Proof.
  rewrite !uncurlQuotes_map, map_map. apply map_ext. intros c.
  destruct (uncurl_char_cases c) as [Hd _]. by apply uncurl_char_cases.
Qed.

Section WithHost.
Context `{Host}.

(** X10. [zipfFrequency] gives a text with curly quotes the value of the
    same text with straight quotes; [uncurlQuotes] keeps the length and
    leaves no curly quote. *)
Theorem zipfFrequency_ignores_curly_quotes (wf : WordfreqEn) (s : jsstring) :
  zipfFrequency wf (InString (uncurlQuotes s)) = zipfFrequency wf (InString s)
  /\ length (uncurlQuotes s) = length s
  /\ Forall (fun c => is_curly c = false) (uncurlQuotes s).
Proof.
  split; [| split].
  - destruct s as [| c s]; [reflexivity |].
    unfold zipfFrequency, normalizeWord_en.
    rewrite uncurlQuotes_idempotent.
    rewrite uncurlQuotes_map at 1. reflexivity.
  - rewrite uncurlQuotes_map. apply length_map.
  - rewrite uncurlQuotes_map. apply Forall_forall. intros d Hd.
    apply list_elem_of_In, in_map_iff in Hd as (c & <- & _).
    apply uncurl_char_cases.
Qed.

End WithHost.

End TableFacts.

(** ** Binary search, merged groups and the tagged stream *)

Module IntervalFacts.
Import Utils PosTagger ContrastDetector Spec Shape Examples Inputs.

(** *** Binary search *)

(** X11. On an ascending array [bisectRight] returns the index that
    separates the elements at most [val] from the larger ones, [bisectLeft]
    the index that separates the elements below [val] from the others, and
    the second never exceeds the first. *)
Theorem bisect_partition_points (arr : list nat) (val : nat) :
  ascending arr ->
  partition_point (fun x => x <= val) (fun x => val < x) arr
                  (bisectRight arr val)
  /\ partition_point (fun x => x < val) (fun x => val <= x) arr
                     (bisectLeft arr val)
  /\ bisectLeft arr val <= bisectRight arr val.
Proof.
  intros Hasc.
  pose proof (ContrastFacts.bisectRight_spec arr val Hasc) as Hr.
  pose proof (ContrastFacts.bisectLeft_spec arr val Hasc) as Hl.
  split; [exact Hr |]. split; [exact Hl |].
  destruct Hr as (Hrlen & Hrlow & Hrhigh). destruct Hl as (Hllen & Hllow & Hlhigh).
  destruct (decide (bisectLeft arr val <= bisectRight arr val)) as [| Hgt];
    [assumption |].
  assert (Hin : bisectRight arr val < length arr) by (simpl in *; lia).
  destruct (lookup_lt_is_Some_2 arr (bisectRight arr val) Hin) as [x Hx].
  pose proof (Hrhigh _ x (Nat.le_refl _) Hx) as H1.
  assert (H2 : x < val) by (apply (Hllow (bisectRight arr val)); [lia | exact Hx]).
  simpl in H1. lia.
Qed.

Lemma bisect_partition_points_witness :
  partition_point (fun x => x <= 3) (fun x => 3 < x) [1; 3; 3; 7]
                  (bisectRight [1; 3; 3; 7] 3)
  /\ bisectRight [1; 3; 3; 7] 3 = 3 /\ bisectLeft [1; 3; 3; 7] 3 = 1.
Proof.
  split; [| split; reflexivity].
  apply (bisect_partition_points [1; 3; 3; 7] 3).
  intros i j x y Hij Hi Hj.
  destruct i as [| [| [| [| i]]]]; destruct j as [| [| [| [| j]]]];
    simpl in Hi, Hj; try discriminate; try lia;
    injection Hi as <-; injection Hj as <-; lia.
Defined.

(** *** The covering span range *)

Lemma tiles_last (a b : nat) (spans : list (nat * nat)) (s e : nat) :
  tiles a b spans -> last spans = Some (s, e) -> e = b.
Proof.
  revert a; induction spans as [| [s0 e0] spans IH]; intros a Ht Hl.
  - discriminate.
  - destruct Ht as (-> & Hlt & Hrest). destruct spans as [| p spans].
    + simpl in Hl, Hrest. injection Hl as -> ->. exact Hrest.
    + apply (IH e0 Hrest). exact Hl.
Qed.

Lemma map_lookup_fst (spans : list (nat * nat)) (i s e : nat) :
  spans !! i = Some (s, e) -> List.map fst spans !! i = Some s.
Proof. revert i; induction spans; intros [| i]; simpl; try discriminate; auto.
  by intros [= ->]. Qed.

Lemma map_lookup_snd (spans : list (nat * nat)) (i s e : nat) :
  spans !! i = Some (s, e) -> List.map snd spans !! i = Some e.
Proof. revert i; induction spans; intros [| i]; simpl; try discriminate; auto.
  by intros [= ->]. Qed.

(** X12. For spans that tile the text and a non-empty range inside the text,
    [coveredSentenceRange] returns the indices of the span that holds the
    first offset of the range and of the span that holds its last offset, in
    this order. *)
Theorem coveredSentenceRange_covers (n : nat) (spans : list (nat * nat))
    (start e : nat) :
  tiles 0 n spans -> start < e <= n ->
  exists l h sl el sh eh,
    coveredSentenceRange spans start e = Some (l, h)
    /\ l <= h
    /\ spans !! l = Some (sl, el) /\ sl <= start < el
    /\ spans !! h = Some (sh, eh) /\ sh < e <= eh.
Proof.
  intros Ht [Hse Hen].
  assert (Hne : spans <> []).
  { intros ->. simpl in Ht. lia. }
  pose proof (ContrastFacts.bisectRight_spec (List.map snd spans) start
                (ContrastFacts.tiles_ends_ascending _ _ _ Ht))
    as (_ & Hlow & Hhigh).
  pose proof (ContrastFacts.bisectLeft_spec (List.map fst spans) e
                (ContrastFacts.tiles_starts_ascending _ _ _ Ht))
    as (Hblen & Hblow & Hbhigh).
  rewrite length_map in Hblen.
  unfold coveredSentenceRange.
  set (lo := bisectRight (List.map snd spans) start) in *.
  set (b := bisectLeft (List.map fst spans) e) in *.
  assert (Hlen : 0 < length spans) by (destruct spans; [congruence | simpl; lia]).
  (* the last span ends at [n], beyond [start] *)
  assert (Hlo : lo < length spans).
  { destruct (decide (lo < length spans)) as [| Hge]; [assumption |].
    destruct (lookup_lt_is_Some_2 spans (length spans - 1) ltac:(lia))
      as [[s1 e1] Hs1].
    assert (e1 = n).
    { apply (tiles_last 0 n spans s1 e1 Ht). rewrite last_lookup.
      replace (Init.Nat.pred (length spans)) with (length spans - 1) by lia.
      exact Hs1. }
    pose proof (Hlow (length spans - 1) e1 ltac:(lia)
                  (map_lookup_snd _ _ _ _ Hs1)). lia. }
  (* the first span starts at 0, before [e] *)
  assert (Hb : 0 < b).
  { destruct (decide (0 < b)) as [| Hz]; [assumption |].
    destruct (lookup_lt_is_Some_2 spans 0 Hlen) as [[s0 e0] Hs0].
    pose proof (ContrastFacts.tiles_first _ _ _ _ _ Ht Hs0) as ->.
    pose proof (Hbhigh 0 0 ltac:(lia) (map_lookup_fst _ _ _ _ Hs0)). lia. }
  destruct (lookup_lt_is_Some_2 spans lo Hlo) as [[sl el] Hsl].
  destruct (lookup_lt_is_Some_2 spans (b - 1) ltac:(lia)) as [[sh eh] Hsh].
  assert (Hel : start < el)
    by apply (Hhigh lo el (Nat.le_refl _) (map_lookup_snd _ _ _ _ Hsl)).
  assert (Hsl' : sl <= start).
  { destruct lo as [| p] eqn:Hp.
    - apply (ContrastFacts.tiles_first _ _ _ _ _ Ht) in Hsl. lia.
    - destruct (lookup_lt_is_Some_2 spans p ltac:(lia)) as [[s1 e1] Hs1].
      pose proof (ContrastFacts.tiles_adjacent _ _ _ _ _ _ _ _ Ht Hs1 Hsl) as ->.
      apply (Hlow p e1); [lia | by eapply map_lookup_snd]. }
  assert (Hsh' : sh < e)
    by apply (Hblow (b - 1) sh ltac:(lia) (map_lookup_fst _ _ _ _ Hsh)).
  assert (Heh : e <= eh).
  { destruct (decide (b < length spans)) as [Hlt | Hge].
    - destruct (lookup_lt_is_Some_2 spans b Hlt) as [[s1 e1] Hs1].
      replace b with (S (b - 1)) in Hs1 by lia.
      pose proof (ContrastFacts.tiles_adjacent _ _ _ _ _ _ _ _ Ht Hsh Hs1) as ->.
      replace (S (b - 1)) with b in Hs1 by lia.
      apply (Hbhigh b eh (Nat.le_refl _)). by eapply map_lookup_fst.
    - assert (eh = n); [| lia].
      apply (tiles_last 0 n spans sh eh Ht). rewrite last_lookup.
      replace (Init.Nat.pred (length spans)) with (b - 1) by lia. exact Hsh. }
  assert (Hord : lo <= b - 1).
  { destruct (decide (lo <= b - 1)) as [| Hgt]; [assumption |].
    pose proof (ContrastFacts.tiles_before _ _ _ (b - 1) lo _ _ _ _ Ht
                  ltac:(lia) Hsh Hsl). lia. }
  exists lo, (b - 1), sl, el, sh, eh.
  replace (length spans =? 0) with false by (symmetry; apply Nat.eqb_neq; lia).
  replace (e <=? start) with false by (symmetry; apply Nat.leb_gt; lia).
  cbn [orb]. cbn zeta. fold lo. fold b.
  replace (length spans <=? lo) with false by (symmetry; apply Nat.leb_gt; lia).
  replace (Z.of_nat b - 1 <? 0)%Z with false by (symmetry; apply Z.ltb_ge; lia).
  replace (Z.of_nat b - 1 <? Z.of_nat lo)%Z with false
    by (symmetry; apply Z.ltb_ge; lia).
  cbn [orb]. replace (Z.to_nat (Z.of_nat b - 1)) with (b - 1) by lia.
  repeat split; try assumption; lia.
Qed.

Lemma coveredSentenceRange_covers_witness :
  exists l h, coveredSentenceRange three_spans 4 15 = Some (l, h) /\ l <= h.
Proof.
  destruct (coveredSentenceRange_covers 20 three_spans 4 15)
    as (l & h & sl & el & sh & eh & Hc & Hlh & _).
  - simpl. lia.
  - lia.
  - exists l, h. split; assumption.
Defined.

(** *** Merging *)

Lemma insert_sorted_elem {A} (leb : A -> A -> bool) (x y : A) (l : list A) :
  y ∈ insert_sorted leb x l <-> y = x \/ y ∈ l.
Proof.
  induction l as [| z l IH]; simpl.
  - rewrite list_elem_of_singleton, elem_of_nil. tauto.
  - destruct (leb x z).
    + by rewrite elem_of_cons.
    + rewrite !elem_of_cons, IH. tauto.
Qed.

Lemma sort_elem {A} (leb : A -> A -> bool) (y : A) (l : list A) :
  y ∈ sort leb l <-> y ∈ l.
Proof.
  induction l as [| x l IH]; simpl; [reflexivity |].
  by rewrite insert_sorted_elem, IH, elem_of_cons.
Qed.

Lemma covers_extend (cur it x : CandidateInterval) :
  covers cur x -> covers (extend cur it) x.
Proof. unfold covers, extend; simpl. lia. Qed.

Lemma merge_loop_covers (items : list CandidateInterval)
    (cur : CandidateInterval) (merged : list CandidateInterval)
    (x : CandidateInterval) :
  StronglySorted lo_le items -> Forall (lo_le cur) items ->
  x ∈ items \/ (exists g, g ∈ merged ++ [cur] /\ covers g x) ->
  exists g, g ∈ merge_loop items cur merged /\ covers g x.
Proof.
  revert cur merged; induction items as [| it rest IH];
    intros cur merged Hs Hlo Hx; cbn [merge_loop].
  - destruct Hx as [[]%elem_of_nil | Hx]. exact Hx.
  - apply StronglySorted_inv in Hs as [Hs Hrest].
    apply Forall_cons in Hlo as [Hit Hlo]. unfold lo_le in Hit.
    destruct (lo it <=? hi cur) eqn:Hov.
    + apply IH; [exact Hs | exact Hlo |].
      destruct Hx as [[-> | Hin]%elem_of_cons | (g & Hg & Hc)].
      * right. exists (extend cur it).
        split; [apply elem_of_app; right; apply list_elem_of_here |].
        unfold covers, extend; simpl. lia.
      * by left.
      * right. apply elem_of_app in Hg as [Hg | ->%list_elem_of_singleton].
        -- exists g. split; [apply elem_of_app; by left | exact Hc].
        -- exists (extend cur it).
           split; [apply elem_of_app; right; apply list_elem_of_here
                  | by apply covers_extend].
    + apply IH; [exact Hs | exact Hrest |].
      destruct Hx as [[-> | Hin]%elem_of_cons | (g & Hg & Hc)].
      * right. exists it.
        split; [apply elem_of_app; right; apply list_elem_of_here |].
        unfold covers. lia.
      * by left.
      * right. exists g. split; [apply elem_of_app; by left | exact Hc].
Qed.

Lemma merge_loop_labels (items : list CandidateInterval)
    (cur : CandidateInterval) (merged : list CandidateInterval)
    (P : CandidateInterval -> Prop) :
  (forall g it, P g -> P (extend g it)) ->
  Forall P items -> P cur -> Forall P merged ->
  Forall P (merge_loop items cur merged).
Proof.
  intros Hext. revert cur merged; induction items as [| it rest IH];
    intros cur merged Hitems Hcur Hm; cbn [merge_loop].
  - apply Forall_app. split; [exact Hm | by apply Forall_singleton].
  - apply Forall_cons in Hitems as [Hit Hitems].
    destruct (lo it <=? hi cur).
    + apply IH; auto.
    + apply IH; auto. apply Forall_app. split; [exact Hm | by apply Forall_singleton].
Qed.

Lemma merge_loop_length (items : list CandidateInterval)
    (cur : CandidateInterval) (merged : list CandidateInterval) :
  length (merge_loop items cur merged) <= length merged + S (length items).
Proof.
  revert cur merged; induction items as [| it rest IH]; intros cur merged;
    cbn [merge_loop].
  - rewrite length_app. simpl. lia.
  - destruct (lo it <=? hi cur).
    + specialize (IH (extend cur it) merged). simpl. lia.
    + specialize (IH it (merged ++ [cur])). rewrite length_app in IH.
      simpl in *. lia.
Qed.

Lemma mergeIntervals_length_le (items : list CandidateInterval) :
  length (mergeIntervals items) <= length items.
Proof.
  unfold mergeIntervals.
  pose proof (UtilsFacts.sort_length
                (fun a b => (cmp_interval a b <=? 0)%Z) items) as Hlen.
  destruct (sort _ items) as [| first rest]; [simpl; lia |].
  pose proof (merge_loop_length rest first []). simpl in *. lia.
Qed.

(** X13. [mergeIntervals] loses no candidate: the span range of every
    candidate lies inside the range of some group; every group takes its
    first span, raw start, pattern name and match text from one candidate;
    there are no more groups than candidates, and none exactly when there is
    no candidate. *)
Theorem mergeIntervals_covers_candidates (items : list CandidateInterval) :
  (forall x, x ∈ items ->
     exists g, g ∈ mergeIntervals items /\ covers g x)
  /\ (forall g, g ∈ mergeIntervals items ->
        exists it, it ∈ items /\ labelled_by g it)
  /\ length (mergeIntervals items) <= length items
  /\ (items = [] <-> mergeIntervals items = []).
Proof.
  unfold mergeIntervals.
  set (leb := fun a b => (cmp_interval a b <=? 0)%Z).
  pose proof (ContrastFacts.sort_sorted leb lo_le
                ContrastFacts.cmp_interval_le ContrastFacts.cmp_interval_gt
                ltac:(unfold lo_le; lia) items) as Hs.
  pose proof (fun y => sort_elem leb y items) as Hel.
  pose proof (UtilsFacts.sort_length leb items) as Hlen.
  destruct (sort leb items) as [| first rest] eqn:Hsort.
  - assert (items = []) as -> by (destruct items; [reflexivity | discriminate]).
    split; [intros x []%elem_of_nil |]. split; [intros g []%elem_of_nil |].
    split; [simpl; lia | tauto].
  - apply StronglySorted_inv in Hs as [Hs Hfirst]. split; [| split; [| split]].
    + intros x Hx. apply Hel in Hx.
      apply merge_loop_covers; [exact Hs | exact Hfirst |].
      apply elem_of_cons in Hx as [-> | Hx]; [| by left].
      right. exists first. split; [apply list_elem_of_here | unfold covers; lia].
    + intros g Hg.
      assert (Hl : Forall (fun g => exists it, it ∈ items /\ labelled_by g it)
                          (merge_loop rest first [])).
      { apply merge_loop_labels.
        - intros g0 it0 (it & Hin & Hlab). exists it. split; [exact Hin |].
          exact Hlab.
        - apply Forall_forall. intros it Hin. exists it.
          split; [apply Hel; by apply list_elem_of_further |].
          repeat split.
        - exists first. split; [apply Hel, list_elem_of_here | repeat split].
        - constructor. }
      rewrite Forall_forall in Hl. by apply Hl.
    + rewrite <- Hlen. pose proof (merge_loop_length rest first []).
      simpl in *. lia.
    + split; [intros ->; discriminate |].
      intros Hnil. pose proof (merge_loop_covers rest first [] first Hs Hfirst)
        as (g & Hg & _).
      * right. exists first. split; [apply list_elem_of_here | unfold covers; lia].
      * rewrite Hnil in Hg. by apply elem_of_nil in Hg.
Qed.

(** *** Results *)

Lemma flat_map_all_nil {A B} (f : A -> list B) (l : list A) :
  (forall x, f x = []) -> flat_map f l = [].
Proof.
  intros Hf; induction l as [| x l IH]; simpl; [reflexivity |].
  by rewrite Hf, IH.
Qed.

Lemma span_total_bound (n : nat) (groups : list CandidateInterval)
    (base : nat) :
  StronglySorted apart groups ->
  Forall (fun g => lo g <= hi g /\ hi g < n) groups ->
  Forall (fun g => base <= lo g) groups ->
  base <= n ->
  sum_list (List.map (fun g => hi g - lo g + 1) groups) <= n - base.
Proof.
  intros Hs; revert base; induction Hs as [| g groups Hs IH Hg];
    intros base Hin Hbase Hbn; simpl; [lia |].
  apply Forall_cons in Hin as [[Hlh Hhn] Hin].
  apply Forall_cons in Hbase as [Hb Hbase].
  specialize (IH (S (hi g)) Hin).
  assert (Hnext : Forall (fun g0 => S (hi g) <= lo g0) groups).
  { eapply Forall_impl; [exact Hg |]. unfold apart. intros g0 ?. lia. }
  specialize (IH Hnext ltac:(lia)). lia.
Qed.

Section WithHost.
Context `{Host}.
Variable STAGE1_REGEXES : list (jsstring * RegExp).
Variable STAGE2_REGEXES : list (jsstring * RegExp).

(** X14. On the empty text, whatever the pattern registries,
    [extractContrastMatches] returns no match and [scoreText] reports zero
    hits, zero characters and rate 0. *)
Theorem extractContrastMatches_empty_text :
  extractContrastMatches STAGE1_REGEXES STAGE2_REGEXES [] = []
  /\ scoreText STAGE1_REGEXES STAGE2_REGEXES []
     = {| hits := 0; chars := 0; rate_per_1k := 0; matches := [] |}.
Proof.
  assert (Hc : candidates STAGE1_REGEXES STAGE2_REGEXES [] = []).
  { unfold candidates, stage1_candidates, stage2_candidates. cbn zeta.
    change (sentenceSpans (normalizeText [])) with (@nil (nat * nat)).
    rewrite flat_map_all_nil.
    - destruct (hasPosTagger && (0 <? length STAGE2_REGEXES));
        [| reflexivity].
      apply flat_map_all_nil. intros [pname pregex].
      apply flat_map_all_nil. intros [index m0].
      destruct (streamToRaw _ _ _) as [[rs re] |]; reflexivity.
    - intros [pname pregex]. apply flat_map_all_nil. intros [index m0].
      reflexivity. }
  assert (He : extractContrastMatches STAGE1_REGEXES STAGE2_REGEXES [] = []).
  { unfold extractContrastMatches, merged_groups. by rewrite Hc. }
  split; [exact He |]. unfold scoreText. by rewrite He.
Qed.

Lemma contrast_results_counts (text : jsstring) :
  let results := extractContrastMatches STAGE1_REGEXES STAGE2_REGEXES text in
  let spans := sentenceSpans (normalizeText text) in
  Forall (fun m => 1 <= sentence_count m) results
  /\ sum_list (List.map sentence_count results) <= length spans.
Proof.
  cbn zeta. unfold extractContrastMatches. cbn zeta.
  set (spans := sentenceSpans (normalizeText text)).
  set (groups := merged_groups STAGE1_REGEXES STAGE2_REGEXES text).
  split.
  - apply Forall_forall. intros m Hm.
    apply list_elem_of_In, in_map_iff in Hm as (g & <- & _). simpl. lia.
  - rewrite map_map. simpl.
    destruct (ContrastFacts.mergeIntervals_apart spans _
                (ContrastFacts.candidates_well_placed
                   STAGE1_REGEXES STAGE2_REGEXES text)) as [Hs Hw].
    pose proof (span_total_bound (length spans) groups 0 Hs) as Hb.
    rewrite Nat.sub_0_r in Hb. apply Hb; [| | lia].
    + eapply Forall_impl; [exact Hw |]. unfold well_placed. intros g ?. lia.
    + apply Forall_forall. intros g _. lia.
Qed.

Lemma contrast_results_length (text : jsstring) :
  length (extractContrastMatches STAGE1_REGEXES STAGE2_REGEXES text)
  <= length (sentenceSpans (normalizeText text)).
Proof.
  destruct (contrast_results_counts text) as [Hone Hsum].
  eapply Nat.le_trans; [| exact Hsum].
  clear Hsum. induction Hone as [| m l Hm Hl IH]; simpl; lia.
Qed.

(** X15. Every contrast match covers at least one sentence, the sentence
    counts of all matches add up to at most the number of sentence spans,
    and there are no more matches than sentence spans or than candidates. *)
Theorem extractContrastMatches_sentence_counts (text : jsstring) :
  let results := extractContrastMatches STAGE1_REGEXES STAGE2_REGEXES text in
  let spans := sentenceSpans (normalizeText text) in
  Forall (fun m => 1 <= sentence_count m) results
  /\ sum_list (List.map sentence_count results) <= length spans
  /\ length results <= length spans
  /\ length results
     <= length (candidates STAGE1_REGEXES STAGE2_REGEXES text).
Proof.
  cbn zeta. destruct (contrast_results_counts text) as [Hone Hsum].
  split; [exact Hone |]. split; [exact Hsum |].
  split; [apply contrast_results_length |].
  unfold extractContrastMatches. cbn zeta.
  rewrite length_map. unfold merged_groups.
  apply mergeIntervals_length_le.
Qed.

End WithHost.

(** *** The piece table *)

Lemma join_empty_snoc (parts : list jsstring) (x : jsstring) :
  join [] (parts ++ [x]) = join [] parts ++ x.
Proof.
  induction parts as [| p parts IH]; [reflexivity |].
  destruct parts as [| q parts].
  - reflexivity.
  - change (join [] ((p :: q :: parts) ++ [x]))
      with (p ++ [] ++ join [] ((q :: parts) ++ [x])).
    rewrite IH. simpl. by rewrite app_assoc.
Qed.

Lemma chained_snoc (a b c : nat) (l : list (nat * nat)) :
  chained a b l -> b <= c -> chained a c (l ++ [(b, c)]).
Proof.
  revert a; induction l as [| [s e] l IH]; simpl; intros a Hl Hbc.
  - subst. auto.
  - destruct Hl as (-> & Hle & Hrest). auto.
Qed.

Lemma is_prefix_length (p s : jsstring) :
  is_prefix p s = true -> length p <= length s.
Proof.
  revert s; induction p as [| a p IH]; intros [| b s]; simpl;
    try discriminate; try lia.
  intros [_ Hp]%andb_true_iff. apply IH in Hp. lia.
Qed.

Lemma index_from_bounds (v s : jsstring) (base k : nat) :
  index_from v s base = Some k ->
  base <= k /\ k + length v <= base + length s.
Proof.
  revert base; induction s as [| c s IH]; intros base; cbn [index_from].
  - destruct (is_prefix v []) eqn:Hp; [| discriminate].
    intros [= <-]. apply is_prefix_length in Hp. lia.
  - destruct (is_prefix v (c :: s)) eqn:Hp.
    + intros [= <-]. apply is_prefix_length in Hp. simpl in *. lia.
    + intros Hk. apply IH in Hk. simpl. lia.
Qed.

Lemma indexOf_bounds (text value : jsstring) (from k : nat) :
  indexOf text value from = Some k ->
  Nat.min from (length text) <= k /\ k + length value <= length text.
Proof.
  unfold indexOf. intros Hk. apply index_from_bounds in Hk.
  rewrite length_drop in Hk. lia.
Qed.

Section PieceTable.
Context `{Host}.

Lemma tag_loop_pieces (text : jsstring) (posType : PosType)
    (tagged : list TaggedToken) (parts : list jsstring)
    (pieces : list piece) (streamPos rawPos : nat) :
  streamPos = length (join [] parts) ->
  chained 0 streamPos (List.map stream_range pieces) ->
  Forall (raw_in_text text) pieces ->
  let r := tag_loop text posType tagged parts pieces streamPos rawPos in
  chained 0 (length (join [] r.1)) (List.map stream_range r.2)
  /\ Forall (raw_in_text text) r.2.
Proof.
  revert parts pieces streamPos rawPos.
  induction tagged as [| token rest IH];
    intros parts pieces streamPos rawPos Hpos Hch Hraw; cbn [tag_loop].
  - simpl. subst. auto.
  - cbn zeta.
    destruct (indexOf text (tok_value token) rawPos) as [tokenStart |] eqn:Ht.
    + apply indexOf_bounds in Ht as [_ Hend].
      set (out := tag_out posType token) in *.
      assert (Hpos1 : streamPos + length out
                      = length (join [] (parts ++ [out]))).
      { rewrite join_empty_snoc, length_app. lia. }
      assert (Hch1 : chained 0 (streamPos + length out)
                       (List.map stream_range
                          (pieces ++ [(streamPos, streamPos + length out,
                                       tokenStart,
                                       tokenStart + length (tok_value token))]))).
      { rewrite map_app; apply chained_snoc; simpl; [exact Hch | lia]. }
      assert (Hraw1 : Forall (raw_in_text text)
                        (pieces ++ [(streamPos, streamPos + length out,
                                     tokenStart,
                                     tokenStart + length (tok_value token))])).
      { apply Forall_app. split; [exact Hraw |]. apply Forall_singleton.
        unfold raw_in_text; simpl. lia. }
      destruct rest as [| nextToken rest'].
      * apply IH; assumption.
      * assert (Hspace :
          let r := tag_loop text posType (nextToken :: rest')
                     ((parts ++ [out]) ++ [lit " "])
                     ((pieces ++ [(streamPos, streamPos + length out,
                                   tokenStart,
                                   tokenStart + length (tok_value token))])
                      ++ [(streamPos + length out, streamPos + length out + 1,
                           tokenStart + length (tok_value token),
                           tokenStart + length (tok_value token))])
                     (streamPos + length out + 1)
                     (tokenStart + length (tok_value token)) in
          chained 0 (length (join [] r.1)) (List.map stream_range r.2)
          /\ Forall (raw_in_text text) r.2).
        { apply IH.
          - rewrite join_empty_snoc, length_app, <- Hpos1. reflexivity.
          - rewrite map_app; apply chained_snoc; simpl; [exact Hch1 | lia].
          - apply Forall_app. split; [exact Hraw1 |]. apply Forall_singleton.
            unfold raw_in_text; simpl. lia. }
        destruct (indexOf text (tok_value nextToken)
                    (tokenStart + length (tok_value token)))
          as [nextPos |] eqn:Hn; [| exact Hspace].
        destruct (tokenStart + length (tok_value token) <? nextPos) eqn:Hlt;
          [| exact Hspace].
        apply Nat.ltb_lt in Hlt. apply indexOf_bounds in Hn as [_ Hnend].
        apply IH.
        -- rewrite join_empty_snoc, length_app, <- Hpos1. reflexivity.
        -- rewrite map_app; apply chained_snoc; simpl; [exact Hch1 | lia].
        -- apply Forall_app. split; [exact Hraw1 |]. apply Forall_singleton.
           unfold raw_in_text; simpl. lia.
    + apply IH; assumption.
Qed.

(** X16. The pieces of [tagStreamWithOffsets] chain through the tagged
    stream, each starting where the one before ends, from 0 to the length of
    the stream; every raw range is well formed and lies inside the text; a
    blank text gives the empty stream and no piece. *)
Theorem tagStreamWithOffsets_piece_table (text : jsstring)
    (posType : PosType) :
  let r := tagStreamWithOffsets text posType in
  chained 0 (length (stream r)) (List.map stream_range (pieces r))
  /\ Forall (raw_in_text text) (pieces r)
  /\ (trim text = [] -> stream r = [] /\ pieces r = []).
Proof.
  cbn zeta. unfold tagStreamWithOffsets.
  destruct (trim text) as [| c t] eqn:Htrim.
  - simpl. repeat split; constructor.
  - pose proof (tag_loop_pieces text posType (tagSentence text) [] [] 0 0
                  eq_refl eq_refl ltac:(constructor)) as Hl.
    destruct (tag_loop text posType (tagSentence text) [] [] 0 0)
      as [parts pcs].
    simpl in Hl |- *. destruct Hl as [Hch Hraw].
    split; [exact Hch |]. split; [exact Hraw | discriminate].
Qed.

End PieceTable.

End IntervalFacts.

(** ** Slop index, rankings and text metrics *)

Module AnalysisFacts.
Import Utils Metrics Spec Shape Examples Inputs.
Import UtilsFacts IntervalFacts.

Lemma num_nonneg (n : nat) : (0 <= num n)%Q.
Proof. unfold num, Qle; simpl. lia. Qed.

Lemma num_pos (n : nat) : 0 < n -> (0 < num n)%Q.
Proof. unfold num, Qlt; simpl. lia. Qed.

Lemma num_le (a b : nat) : a <= b -> (num a <= num b)%Q.
Proof. unfold num, Qle; simpl. lia. Qed.

Lemma num_plus (a b : nat) : (num (a + b) == num a + num b)%Q.
Proof. unfold num. rewrite Nat2Z.inj_add, inject_Z_plus. reflexivity. Qed.

Lemma ratio_unit (a b : nat) :
  a <= b -> 0 < b -> (0 <= num a / num b <= 1)%Q.
Proof.
  intros Hab Hb. pose proof (num_pos b Hb) as Hpos.
  pose proof (num_nonneg a) as Ha. pose proof (num_le a b Hab) as Hle.
  split.
  - apply Qle_shift_div_l; [exact Hpos | lra].
  - apply Qle_shift_div_r; [exact Hpos | lra].
Qed.

Lemma per_mille_bounds (a b : nat) :
  a <= b -> 0 < b -> (0 <= per_mille a b <= 1000)%Q.
Proof.
  intros Hab Hb. unfold per_mille.
  pose proof (ratio_unit a b Hab Hb). lra.
Qed.

(** *** computeSlopIndex *)

Lemma fold_hit_step (lexicon : gset jsstring) (trackHits : bool)
    (tokens : list jsstring) (k : nat) (m : option (list (jsstring * nat))) :
  fold_left (hit_step lexicon trackHits) tokens (k, m)
  = (k + length (hits_of lexicon tokens),
     match m with
     | Some m0 =>
         if trackHits then Some (fold_left bump (hits_of lexicon tokens) m0)
         else Some m0
     | None => None
     end).
Proof.
  revert k m; induction tokens as [| t tokens IH]; intros k m.
  - simpl. rewrite Nat.add_0_r. by destruct m, trackHits.
  - cbn [fold_left]. unfold hit_step at 2, hits_of. cbn [List.filter].
    fold (hits_of lexicon tokens).
    destruct (bool_decide (t ∈ lexicon)); cbn [fst snd].
    + rewrite IH. f_equal; [simpl; lia |].
      destruct m, trackHits; reflexivity.
    + apply IH.
Qed.

Lemma hits_of_empty_size (lexicon : gset jsstring) (items : list jsstring) :
  size lexicon = 0 -> hits_of lexicon items = [].
Proof.
  intros Hs%size_empty_inv. apply leibniz_equiv in Hs. subst.
  induction items as [| t items IH]; [reflexivity |].
  unfold hits_of in *. cbn [List.filter].
  rewrite bool_decide_eq_false_2; [exact IH | set_solver].
Qed.

Lemma hits_of_length (lexicon : gset jsstring) (items : list jsstring) :
  length (hits_of lexicon items) <= length items.
Proof.
  induction items as [| t items IH]; simpl; [lia |].
  unfold hits_of in *. cbn [List.filter].
  destruct (bool_decide _); simpl; lia.
Qed.

Lemma slice_cons {A} (x : A) (l : list A) (i n : nat) :
  slice (x :: l) (S i) (S i + n) = slice l i (i + n).
Proof. unfold slice. simpl. by replace (i + n - i) with (S (i + n) - S i) by lia. Qed.

Lemma trigram_windows_getNgrams (tokens : list jsstring) :
  trigram_windows tokens = getNgrams tokens 3.
Proof.
  unfold getNgrams.
  induction tokens as [| a rest IH]; [reflexivity |].
  cbn [trigram_windows].
  destruct rest as [| b [| c rest']]; [reflexivity | reflexivity |].
  rewrite IH.
  replace (length (a :: b :: c :: rest') + 1 - 3)
    with (S (length (b :: c :: rest') + 1 - 3)) by (simpl; lia).
  cbn [seq List.map]. f_equal.
  rewrite <- seq_shift, List.map_map. apply List.map_ext. intros i.
  by rewrite (slice_cons a (b :: c :: rest') i 3).
Qed.

Lemma getNgrams_length (words : list jsstring) (n : nat) :
  length (getNgrams words n) = length words + 1 - n.
Proof. unfold getNgrams. by rewrite length_map, length_seq. Qed.

Lemma hit_loop_guarded (lexicon : gset jsstring) (trackHits guard : bool)
    (items : list jsstring) :
  (guard = false -> hits_of lexicon items = []) ->
  (if guard
   then fold_left (hit_step lexicon trackHits) items
          (0, if trackHits then Some [] else None)
   else (0, if trackHits then Some [] else None))
  = (length (hits_of lexicon items),
     if trackHits then Some (countItems (hits_of lexicon items)) else None).
Proof.
  intros Hg. destruct guard.
  - rewrite fold_hit_step. by destruct trackHits.
  - rewrite (Hg eq_refl). by destruct trackHits.
Qed.

Lemma computeSlopIndex_eq (st : Stores) (tokens : list jsstring)
    (trackHits : bool) :
  tokens <> [] ->
  computeSlopIndex st tokens trackHits
  = let wh := hits_of (slopWords st) tokens in
    let th := hits_of (slopTrigrams st) (getNgrams tokens 3) in
    {| wordScore := per_mille (length wh) (length tokens);
       trigramScore := per_mille (length th) (length tokens);
       wordHits :=
         if trackHits then Some (sort_hits (countItems wh)) else None;
       trigramHits :=
         if trackHits then Some (sort_hits (countItems th)) else None |}.
Proof.
  intros Hne. unfold computeSlopIndex.
  destruct (length tokens =? 0) eqn:Hn.
  { apply Nat.eqb_eq in Hn. destruct tokens; [done | discriminate]. }
  rewrite (hit_loop_guarded (slopWords st) trackHits).
  2:{ intros Hs%Nat.ltb_ge. apply hits_of_empty_size. lia. }
  rewrite trigram_windows_getNgrams.
  rewrite (hit_loop_guarded (slopTrigrams st) trackHits).
  2:{ intros [Hs%Nat.ltb_ge | Hs%Nat.leb_gt]%andb_false_iff.
      - apply hits_of_empty_size. lia.
      - pose proof (getNgrams_length tokens 3) as Hl.
        destruct (getNgrams tokens 3); [reflexivity | simpl in Hl; lia]. }
  cbn zeta. by destruct trackHits.
Qed.

Lemma computeSlopIndex_ranges (st : Stores) (tokens : list jsstring)
    (trackHits : bool) :
  tokens <> [] ->
  let r := computeSlopIndex st tokens trackHits in
  (0 <= wordScore r <= 1000)%Q /\ (0 <= trigramScore r <= 1000)%Q.
Proof.
  intros Hne. cbn zeta. rewrite computeSlopIndex_eq by exact Hne. cbn zeta.
  cbn [wordScore trigramScore].
  assert (Hpos : 0 < length tokens) by (destruct tokens; [done | simpl; lia]).
  split.
  - apply per_mille_bounds; [apply hits_of_length | exact Hpos].
  - apply per_mille_bounds; [| exact Hpos].
    pose proof (hits_of_length (slopTrigrams st) (getNgrams tokens 3)).
    pose proof (getNgrams_length tokens 3). lia.
Qed.

(** X17. For a non-empty token list the word score of [computeSlopIndex] is
    the number of tokens in the slop-word set per thousand tokens, the
    trigram score the number of three-token windows in the slop-trigram set
    per thousand tokens, and both lie between 0 and 1000. *)
Theorem computeSlopIndex_scores (st : Stores) (tokens : list jsstring)
    (trackHits : bool) :
  tokens <> [] ->
  let r := computeSlopIndex st tokens trackHits in
  wordScore r
  = per_mille (length (hits_of (slopWords st) tokens)) (length tokens)
  /\ trigramScore r
     = per_mille (length (hits_of (slopTrigrams st) (getNgrams tokens 3)))
                 (length tokens)
  /\ (0 <= wordScore r <= 1000)%Q
  /\ (0 <= trigramScore r <= 1000)%Q.
Proof.
  intros Hne. cbn zeta.
  pose proof (computeSlopIndex_ranges st tokens trackHits Hne) as Hr.
  cbn zeta in Hr. revert Hr.
  rewrite computeSlopIndex_eq by exact Hne. cbn zeta.
  cbn [wordScore trigramScore]. intros [Hw Ht].
  split; [reflexivity |]. split; [reflexivity |]. by split.
Qed.

Lemma computeSlopIndex_scores_witness :
  wordScore (computeSlopIndex slop_stores delve_tokens false)
  = per_mille 1 6
  /\ trigramScore (computeSlopIndex slop_stores delve_tokens false)
     = per_mille 1 6.
Proof.
  destruct (computeSlopIndex_scores slop_stores delve_tokens false)
    as (Hw & Ht & _); [discriminate |].
  rewrite Hw, Ht. split; vm_compute; reflexivity.
Defined.

Lemma insert_sorted_perm {A} (leb : A -> A -> bool) (x : A) (l : list A) :
  insert_sorted leb x l ≡ₚ x :: l.
Proof.
  induction l as [| y l IH]; simpl; [reflexivity |].
  destruct (leb x y); [reflexivity |].
  rewrite IH. apply Permutation_swap.
Qed.

Lemma sort_perm {A} (leb : A -> A -> bool) (l : list A) : sort leb l ≡ₚ l.
Proof.
  induction l as [| x l IH]; simpl; [reflexivity |].
  by rewrite insert_sorted_perm, IH.
Qed.

Lemma sort_hits_table (m : list (jsstring * nat)) :
  StronglySorted by_count_desc (sort_hits m)
  /\ sort_hits m ≡ₚ m.
Proof.
  unfold sort_hits, OrdMap.entries. split; [| apply sort_perm].
  apply (ContrastFacts.sort_sorted _ by_count_desc); unfold by_count_desc.
  - intros x y Hc%Z.leb_le. lia.
  - intros x y Hc%Z.leb_gt. lia.
  - intros x y z. lia.
Qed.

Lemma get_elem (m : list (jsstring * nat)) (k : jsstring) (v : nat) :
  NoDup (List.map fst m) -> ((k, v) ∈ m <-> OrdMap.get m k = Some v).
Proof.
  induction m as [| [k0 v0] m IH]; simpl; intros Hnd.
  - rewrite elem_of_nil. split; [tauto | discriminate].
  - apply NoDup_cons in Hnd as [Hk0 Hnd]. rewrite elem_of_cons.
    destruct (decide (k = k0)) as [-> | Hne].
    + split.
      * intros [[= ->] | Hin]; [reflexivity |]. exfalso. apply Hk0.
        apply list_elem_of_fmap. by exists (k0, v).
      * intros [= ->]. by left.
    + rewrite <- (IH Hnd). split; [| tauto].
      intros [[= -> _] | Hin]; [done | exact Hin].
Qed.

Lemma occurrences_hits_of (lexicon : gset jsstring) (items : list jsstring)
    (w : jsstring) :
  occurrences w (hits_of lexicon items)
  = if bool_decide (w ∈ lexicon) then occurrences w items else 0.
Proof.
  induction items as [| t items IH].
  - by destruct (bool_decide _).
  - unfold hits_of in *. cbn [List.filter].
    destruct (bool_decide (t ∈ lexicon)) eqn:Ht.
    + rewrite !occurrences_cons, IH.
      destruct (bool_decide (w ∈ lexicon)) eqn:Hw; [reflexivity |].
      destruct (decide (t = w)) as [-> | _]; [congruence | reflexivity].
    + rewrite IH, occurrences_cons.
      destruct (bool_decide (w ∈ lexicon)) eqn:Hw; [| reflexivity].
      destruct (decide (t = w)) as [-> | _]; [congruence | reflexivity].
Qed.

Lemma countItems_get (arr : list jsstring) (x : jsstring) :
  OrdMap.get (countItems arr) x
  = match occurrences x arr with 0 => None | S n => Some (S n) end.
Proof. unfold countItems. rewrite fold_bump_get. by destruct (occurrences x arr). Qed.

Lemma countItems_NoDup (arr : list jsstring) :
  NoDup (List.map fst (countItems arr)).
Proof. apply fold_bump_keys. constructor. Qed.

Lemma hit_table_sort_hits (lexicon : gset jsstring) (items : list jsstring) :
  hit_table lexicon items (sort_hits (countItems (hits_of lexicon items))).
Proof.
  destruct (sort_hits_table (countItems (hits_of lexicon items)))
    as [Hsorted Hperm].
  split; [exact Hsorted |]. split.
  - rewrite Hperm. apply countItems_NoDup.
  - intros w c. rewrite Hperm, get_elem by apply countItems_NoDup.
    rewrite countItems_get, occurrences_hits_of.
    case_bool_decide as Hw.
    + destruct (occurrences w items) as [| k] eqn:Hk.
      * split; [discriminate | lia].
      * split; [intros [= <-]; repeat split; [exact Hw | lia] |].
        intros (_ & _ & ->). reflexivity.
    + split; [discriminate | tauto].
Qed.

(** X18. With hit tracking on, [computeSlopIndex] reports for words and for
    trigrams one entry for each lexicon phrase that occurs, with the number
    of its occurrences, in descending order of count, and the counts add up
    to the hits behind the score; with hit tracking off both lists are
    [null]. *)
Theorem computeSlopIndex_hit_lists (st : Stores) (tokens : list jsstring)
    (trackHits : bool) :
  tokens <> [] ->
  let r := computeSlopIndex st tokens trackHits in
  if trackHits then
    exists wh th,
      wordHits r = Some wh /\ trigramHits r = Some th
      /\ hit_table (slopWords st) tokens wh
      /\ hit_table (slopTrigrams st) (getNgrams tokens 3) th
      /\ wordScore r = per_mille (sum_counts wh) (length tokens)
      /\ trigramScore r = per_mille (sum_counts th) (length tokens)
  else wordHits r = None /\ trigramHits r = None.
Proof.
  intros Hne. cbn zeta. rewrite computeSlopIndex_eq by exact Hne. cbn zeta.
  destruct trackHits; [| by split].
  eexists _, _. split; [reflexivity |]. split; [reflexivity |].
  split; [apply hit_table_sort_hits |]. split; [apply hit_table_sort_hits |].
  cbn [wordScore trigramScore].
  assert (Hsum : forall arr, sum_counts (sort_hits (countItems arr))
                             = length arr).
  { intros arr. unfold sort_hits, OrdMap.entries, sum_counts, OrdMap.values.
    rewrite fold_add_sum, sort_perm. unfold countItems.
    rewrite fold_bump_sum. simpl. lia. }
  by rewrite !Hsum.
Qed.

Lemma computeSlopIndex_hit_lists_witness :
  exists wh th,
    wordHits (computeSlopIndex slop_stores delve_tokens true) = Some wh
    /\ trigramHits (computeSlopIndex slop_stores delve_tokens true) = Some th
    /\ hit_table (slopWords slop_stores) delve_tokens wh
    /\ hit_table (slopTrigrams slop_stores) (getNgrams delve_tokens 3) th.
Proof.
  destruct (computeSlopIndex_hit_lists slop_stores delve_tokens true)
    as (wh & th & Hw & Ht & Hwt & Htt & _); [discriminate |].
  exists wh, th. split; [exact Hw |]. split; [exact Ht |].
  split; [exact Hwt | exact Htt].
Defined.

(** *** rankOveruseWithCounts *)

Lemma min_positive_spec (m : gmap jsstring Q) :
  match min_positive m with
  | Some x => least_positive m x
  | None => forall k v, m !! k = Some v -> (v <= 0)%Q
  end.
Proof.
  unfold min_positive.
  apply (map_fold_weak_ind
    (fun (r : option Q) (m : gmap jsstring Q) =>
       match r with
       | Some x => least_positive m x
       | None => forall k v, m !! k = Some v -> (v <= 0)%Q
       end)).
  - intros k v Hk. by rewrite lookup_empty in Hk.
  - intros i x m0 r Hi IH.
    assert (Hkeep : forall y, least_positive m0 y ->
              ((0 < x)%Q -> (y <= x)%Q) -> least_positive (<[i:=x]> m0) y).
    { intros y (Hy & (k & Hk) & Hmin) Hx. split; [exact Hy |]. split.
      - exists k. rewrite lookup_insert_ne; [exact Hk | congruence].
      - intros k' v Hk' Hv. destruct (decide (k' = i)) as [-> | Hne].
        + rewrite lookup_insert_eq in Hk'. injection Hk' as <-. by apply Hx.
        + rewrite lookup_insert_ne in Hk' by congruence. by eapply Hmin. }
    assert (Hnew : (0 < x)%Q ->
              (forall k v, m0 !! k = Some v -> (0 < v)%Q -> (x <= v)%Q) ->
              least_positive (<[i:=x]> m0) x).
    { intros Hx Hmin. split; [exact Hx |]. split.
      - exists i. apply lookup_insert_eq.
      - intros k' v Hk' Hv. destruct (decide (k' = i)) as [-> | Hne].
        + rewrite lookup_insert_eq in Hk'. injection Hk' as <-. apply Qle_refl.
        + rewrite lookup_insert_ne in Hk' by congruence. by eapply Hmin. }
    unfold Qlt_bool.
    destruct (Qle_bool x 0) eqn:Hx0; cbn [negb andb].
    + apply Qle_bool_iff in Hx0. destruct r as [y |].
      * apply Hkeep; [exact IH | intros Hx; lra].
      * intros k v Hk. destruct (decide (k = i)) as [-> | Hne].
        -- rewrite lookup_insert_eq in Hk. by injection Hk as <-.
        -- rewrite lookup_insert_ne in Hk by congruence. by eapply IH.
    + assert (Hx : (0 < x)%Q).
      { destruct (Qlt_le_dec 0 x) as [Hl | Hl]; [exact Hl |].
        apply Qle_bool_iff in Hl. congruence. }
      destruct r as [y |].
      * destruct (Qle_bool y x) eqn:Hyx; cbn [negb].
        -- apply Qle_bool_iff in Hyx. apply Hkeep; [exact IH | done].
        -- assert (Hlt : (x < y)%Q).
           { destruct (Qlt_le_dec x y) as [Hl | Hl]; [exact Hl |].
             apply Qle_bool_iff in Hl. congruence. }
           apply Hnew; [exact Hx |]. intros k v Hk Hv.
           destruct IH as (_ & _ & Hmin). specialize (Hmin k v Hk Hv). lra.
      * apply Hnew; [exact Hx |]. intros k v Hk Hv.
        specialize (IH k v Hk). lra.
Qed.

Lemma floor_frequency_min_positive (m : gmap jsstring Q) :
  floor_frequency m (default tiny (min_positive m)).
Proof.
  pose proof (min_positive_spec m) as Hs. unfold floor_frequency.
  destruct (min_positive m) as [x |]; simpl; [by left | by right].
Qed.

Lemma sum_list_take_le (l : list nat) (k : nat) :
  sum_list (take k l) <= sum_list l.
Proof.
  revert k; induction l as [| x l IH]; intros [| k]; simpl; try lia.
  specialize (IH k). lia.
Qed.

Lemma sum_row_counts_sum (rows : list (jsstring * Q * nat)) :
  sum_row_counts rows = sum_list (List.map snd rows).
Proof.
  unfold sum_row_counts.
  assert (Hgen : forall a, fold_left (fun s (r : jsstring * Q * nat) =>
                                        s + r.2) rows a
                           = a + sum_list (List.map snd rows)).
  { induction rows as [| r rows IH]; intros a; simpl; [lia |].
    rewrite IH. lia. }
  by rewrite Hgen.
Qed.

Lemma countItems_total (arr : list jsstring) :
  sum_counts (countItems arr) = length arr.
Proof.
  unfold sum_counts, OrdMap.values, countItems.
  rewrite fold_add_sum, fold_bump_sum. simpl. lia.
Qed.

Lemma countItems_entry (arr : list jsstring) (x : jsstring) (c : nat) :
  (x, c) ∈ countItems arr <-> 0 < c /\ c = occurrences x arr.
Proof.
  rewrite get_elem by apply countItems_NoDup. rewrite countItems_get.
  destruct (occurrences x arr) as [| k].
  - split; [discriminate | lia].
  - split; [intros [= <-]; lia | intros [_ ->]; reflexivity].
Qed.

Lemma countItems_length (arr : list jsstring) :
  length (countItems arr) <= length arr.
Proof.
  unfold countItems.
  assert (Hgen : forall m : list (jsstring * nat),
            length (fold_left bump arr m) <= length m + length arr).
  { induction arr as [| x arr IH]; intros m; simpl; [lia |].
    etrans; [apply IH |].
    assert (Hset : forall (m' : list (jsstring * nat)) k v,
              length (OrdMap.set m' k v) <= S (length m')).
    { induction m' as [| [k0 v0] m' IHm]; intros k v; simpl; [lia |].
      destruct (decide (k = k0)); simpl; [lia |]. specialize (IHm k v). lia. }
    unfold bump. specialize (Hset m x (default 0 (OrdMap.get m x) + 1)). lia. }
  specialize (Hgen []). simpl in Hgen. lia.
Qed.

Lemma rankOveruseWithCounts_spec (ngrams : list jsstring)
    (humanFreqMap : gmap jsstring Q) (topK : nat) :
  let rows := rankOveruseWithCounts ngrams humanFreqMap topK in
  length rows <= topK
  /\ length rows <= length ngrams
  /\ StronglySorted by_ratio_desc rows
  /\ NoDup (List.map (fun r => r.1.1) rows)
  /\ sum_row_counts rows <= length ngrams
  /\ exists floor,
       floor_frequency humanFreqMap floor
       /\ forall ng ratio cnt, (ng, ratio, cnt) ∈ rows ->
            0 < cnt /\ cnt = occurrences ng ngrams
            /\ ratio = (num cnt / num (length ngrams)
                        / (default floor (humanFreqMap !! ng) + tiny))%Q.
Proof.
  cbn zeta. unfold rankOveruseWithCounts.
  pose proof (countItems_length ngrams) as Hclen.
  pose proof (countItems_total ngrams) as Hctot.
  rewrite countItems_total.
  destruct (length ngrams) as [| n0] eqn:Hlen.
  { simpl. split; [lia |]. split; [lia |]. split; [constructor |].
    split; [constructor |]. split; [apply Nat.le_0_l |].
    exists (default tiny (min_positive humanFreqMap)).
    split; [apply floor_frequency_min_positive |].
    intros ng ratio cnt Hin. by apply elem_of_nil in Hin. }
  cbn [Nat.eqb]. cbn zeta.
  set (floor := default tiny (min_positive humanFreqMap)).
  match goal with
  | |- context [sort ?l (List.map ?f ?e)] =>
      set (leb := l); set (rows := List.map f e); set (row := f) in *
  end.
  pose proof (sort_perm leb rows) as Hperm.
  assert (Hkeys : List.map (fun r : jsstring * Q * nat => r.1.1) rows
                  = List.map fst (countItems ngrams)).
  { unfold rows, OrdMap.entries. rewrite List.map_map.
    apply List.map_ext. by intros [ng cnt]. }
  assert (Hcnts : List.map snd rows = List.map snd (countItems ngrams)).
  { unfold rows, OrdMap.entries. rewrite List.map_map.
    apply List.map_ext. by intros [ng cnt]. }
  unfold slice. rewrite drop_0, Nat.sub_0_r.
  split; [rewrite length_take; lia |]. split.
  { rewrite length_take, (Permutation_length Hperm). unfold rows.
    rewrite length_map. unfold OrdMap.entries. lia. }
  split.
  { apply StronglySorted_take.
    apply (ContrastFacts.sort_sorted _ by_ratio_desc); unfold by_ratio_desc, leb.
    - intros x y Hc%Qle_bool_iff. lra.
    - intros x y Hc. destruct (Qlt_le_dec 0 (y.1.2 - x.1.2)) as [Hl | Hl];
        [lra |]. apply Qle_bool_iff in Hl. congruence.
    - intros x y z. lra. }
  split.
  { eapply sublist_NoDup;
      [| apply (fmap_sublist (fun r : jsstring * Q * nat => r.1.1)),
           sublist_take].
    change (NoDup (List.map (fun r : jsstring * Q * nat => r.1.1)
                            (sort leb rows))).
    rewrite Hperm, Hkeys. apply countItems_NoDup. }
  split.
  { rewrite sum_row_counts_sum, <- Hctot.
    unfold sum_counts, OrdMap.values. rewrite fold_add_sum. simpl.
    assert (Hs : sum_list (List.map snd rows)
                 = sum_list (List.map snd (sort leb rows)))
      by (by rewrite Hperm).
    rewrite <- Hcnts, Hs, <- firstn_map.
    apply sum_list_take_le. }
  exists floor. split; [apply floor_frequency_min_positive |].
  intros ng ratio cnt Hin.
  apply (fun H => elem_of_sublist _ _ _ H (sublist_take _ _)) in Hin.
  rewrite Hperm in Hin. unfold rows in Hin.
  apply list_elem_of_fmap in Hin as ([ng' cnt'] & Heq & Hin').
  unfold row in Heq. injection Heq as -> -> ->.
  apply countItems_entry in Hin' as [Hpos Hocc].
  repeat split; assumption.
Qed.

(** X19. For a table without a negative frequency,
    [rankOveruseWithCounts] returns at most [topK] rows, in descending
    order of ratio, one for a distinct n-gram each; a row carries the number
    of occurrences of its n-gram and the ratio of its share of all n-grams
    to its human frequency plus [1e-12], a divisor that is at least
    [1e-12]; the human frequency of an unlisted n-gram is the least
    positive one of the table, or [1e-12] when the table has none; the
    counts of the rows add up to at most the number of n-grams. *)
Theorem rankOveruseWithCounts_rows (ngrams : list jsstring)
    (humanFreqMap : gmap jsstring Q) (topK : nat) :
  no_negative_frequency humanFreqMap ->
  let rows := rankOveruseWithCounts ngrams humanFreqMap topK in
  length rows <= topK
  /\ length rows <= length ngrams
  /\ StronglySorted by_ratio_desc rows
  /\ NoDup (List.map (fun r => r.1.1) rows)
  /\ sum_row_counts rows <= length ngrams
  /\ exists floor,
       floor_frequency humanFreqMap floor
       /\ forall ng ratio cnt, (ng, ratio, cnt) ∈ rows ->
            0 < cnt /\ cnt = occurrences ng ngrams
            /\ (tiny <= default floor (humanFreqMap !! ng) + tiny)%Q
            /\ ratio = (num cnt / num (length ngrams)
                        / (default floor (humanFreqMap !! ng) + tiny))%Q.
Proof.
  intros Hnn. cbn zeta.
  destruct (rankOveruseWithCounts_spec ngrams humanFreqMap topK)
    as (Hk & Hlen & Hsorted & Hnd & Hsum & floor & Hfloor & Hrows).
  split; [exact Hk |]. split; [exact Hlen |]. split; [exact Hsorted |].
  split; [exact Hnd |]. split; [exact Hsum |].
  exists floor. split; [exact Hfloor |].
  intros ng ratio cnt Hin. destruct (Hrows ng ratio cnt Hin) as (Hc & Ho & Hr).
  split; [exact Hc |]. split; [exact Ho |]. split; [| exact Hr].
  assert (H0 : (0 <= default floor (humanFreqMap !! ng))%Q).
  { destruct (humanFreqMap !! ng) as [v |] eqn:Hv; simpl.
    - by apply (Hnn ng).
    - destruct Hfloor as [(Hpos & _) | [_ ->]]; [lra |].
      unfold tiny, Qle; simpl; lia. }
  lra.
Qed.

Lemma rankOveruseWithCounts_rows_witness :
  sum_row_counts (rankOveruseWithCounts three_bigrams half_table 40) <= 3.
Proof.
  destruct (rankOveruseWithCounts_rows three_bigrams half_table 40)
    as (_ & _ & _ & _ & Hsum & _); [| exact Hsum].
  intros k v Hk. unfold half_table in Hk.
  apply lookup_singleton_Some in Hk as [_ <-].
  unfold Qle; simpl; lia.
Defined.

(** *** Lexical diversity *)

Lemma unique_count_le (tokens : list jsstring) :
  unique_count tokens <= length tokens.
Proof.
  unfold unique_count. induction tokens as [| t tokens IH]; simpl; [lia |].
  destruct (decide_rel elem_of t tokens); simpl; lia.
Qed.

Lemma unique_count_pos (tokens : list jsstring) :
  tokens <> [] -> 1 <= unique_count tokens.
Proof.
  unfold unique_count. destruct tokens as [| t tokens]; [done |]. intros _.
  assert (Hin : t ∈ remove_dups (t :: tokens))
    by (apply elem_of_remove_dups, list_elem_of_here).
  destruct (remove_dups (t :: tokens)); [by apply elem_of_nil in Hin |].
  simpl. lia.
Qed.

Lemma unique_count_distinct (tokens d : list jsstring) :
  NoDup d -> (forall x, x ∈ d <-> x ∈ tokens) ->
  unique_count tokens = length d.
Proof.
  intros Hnd Hsame. unfold unique_count. apply Permutation_length.
  apply NoDup_Permutation; [apply NoDup_remove_dups | exact Hnd |].
  intros x. by rewrite elem_of_remove_dups, Hsame.
Qed.

Lemma slice_length_window {A} (l : list A) (i w : nat) :
  i + w <= length l -> length (slice l i (i + w)) = w.
Proof. intros Hi. unfold slice. rewrite length_take, length_drop. lia. Qed.

Lemma window_ttr_bounds (tokens : list jsstring) (i w : nat) :
  0 < w -> i + w <= length tokens ->
  (1 / num w
   <= num (unique_count (slice tokens i (i + w))) / num w <= 1)%Q.
Proof.
  intros Hw Hi. pose proof (slice_length_window tokens i w Hi) as Hlen.
  pose proof (unique_count_le (slice tokens i (i + w))) as Hle.
  assert (Hne : slice tokens i (i + w) <> []).
  { intros He. rewrite He in Hlen. simpl in Hlen. lia. }
  pose proof (unique_count_pos _ Hne) as Hpos.
  rewrite Hlen in Hle.
  pose proof (num_pos w Hw) as Hwq.
  pose proof (num_le _ _ Hle) as H1. pose proof (num_le _ _ Hpos) as H2.
  change (num 1) with 1%Q in H2.
  split.
  - unfold Qdiv. apply Qmult_le_compat_r; [exact H2 |].
    apply Qlt_le_weak, Qinv_lt_0_compat, Hwq.
  - apply Qle_shift_div_r; [exact Hwq | lra].
Qed.

Lemma mattr_loop (tokens : list jsstring) (w : nat) (idx : list nat)
    (s : Q) (c : nat) :
  0 < w -> Forall (fun i => i + w <= length tokens) idx ->
  let r := fold_left (fun '(sumTTR, windowCount) i =>
             let windowTokens := slice tokens i (i + w) in
             let windowTTR := (num (unique_count windowTokens) / num w)%Q in
             ((sumTTR + windowTTR)%Q, S windowCount)) idx (s, c) in
  r.2 = c + length idx
  /\ (s + num (length idx) * (1 / num w) <= r.1
      <= s + num (length idx))%Q.
Proof.
  intros Hw. revert s c. induction idx as [| i idx IH]; intros s c Hidx.
  - cbn [fold_left length fst snd]. change (num 0) with 0%Q.
    split; [lia | lra].
  - apply Forall_cons in Hidx as [Hi Hidx]. cbn [fold_left]. cbn zeta.
    specialize (IH (s + num (unique_count (slice tokens i (i + w))) / num w)%Q
                  (S c) Hidx).
    cbn zeta in IH. destruct IH as [Hc Hs].
    pose proof (window_ttr_bounds tokens i w Hw Hi) as Hb.
    split; [rewrite Hc; simpl; lia |].
    change (length (i :: idx)) with (1 + length idx).
    rewrite num_plus. change (num 1) with 1%Q. lra.
Qed.

Lemma computeMATTR_cases (tokens : list jsstring) (windowSize : nat) :
  0 < windowSize ->
  (tokens = [] -> computeMATTR tokens windowSize = 0%Q)
  /\ (tokens <> [] -> (0 < computeMATTR tokens windowSize <= 1)%Q)
  /\ (tokens <> [] -> length tokens < windowSize ->
      computeMATTR tokens windowSize
      = (num (unique_count tokens) / num (length tokens))%Q).
Proof.
  intros Hw. unfold computeMATTR.
  destruct tokens as [| t tokens']; [| set (tokens := t :: tokens')].
  { simpl. split; [reflexivity |]. split; done. }
  assert (Hlen : 0 < length tokens) by (simpl; lia).
  replace (length tokens =? 0) with false
    by (symmetry; apply Nat.eqb_neq; lia).
  pose proof (num_pos _ Hlen) as Htq. pose proof (num_pos _ Hw) as Hwq.
  assert (Hwin : windowSize <= length tokens ->
    let r := fold_left (fun '(sumTTR, windowCount) i =>
               let windowTokens := slice tokens i (i + windowSize) in
               let windowTTR :=
                 (num (unique_count windowTokens) / num windowSize)%Q in
               ((sumTTR + windowTTR)%Q, S windowCount))
               (seq 0 (length tokens - windowSize + 1)) (0%Q, 0) in
    (1 / num windowSize <= r.1 / num r.2 <= 1)%Q).
  { intros Hle. cbn zeta.
    pose proof (mattr_loop tokens windowSize
                  (seq 0 (length tokens - windowSize + 1)) 0%Q 0 Hw) as Hl.
    cbn zeta in Hl. destruct Hl as [Hc Hs].
    { apply Forall_forall. intros i Hi%elem_of_seq. lia. }
    rewrite length_seq in Hc, Hs. rewrite Hc. simpl (0 + _).
    assert (Hk : 0 < length tokens - windowSize + 1) by lia.
    pose proof (num_pos _ Hk) as Hkq.
    destruct Hs as [Hs1 Hs2]. split.
    - apply Qle_shift_div_l; [exact Hkq |].
      rewrite Qplus_0_l, Qmult_comm in Hs1. exact Hs1.
    - apply Qle_shift_div_r; [exact Hkq |].
      rewrite Qplus_0_l in Hs2. rewrite Qmult_1_l. exact Hs2. }
  split; [done |].
  assert (Hinv : (0 < 1 / num windowSize)%Q).
  { unfold Qdiv. rewrite Qmult_1_l. by apply Qinv_lt_0_compat. }
  split.
  - intros _. destruct (windowSize <=? length tokens) eqn:Hcmp.
    + apply Nat.leb_le in Hcmp. specialize (Hwin Hcmp). cbn zeta in Hwin.
      destruct (fold_left _ _ _) as [s c]. simpl in Hwin |- *. lra.
    + pose proof (unique_count_le tokens) as Hle.
      pose proof (unique_count_pos tokens ltac:(done)) as Hpos.
      pose proof (ratio_unit _ _ Hle Hlen) as [_ Hub].
      split; [| exact Hub].
      apply Qlt_shift_div_l; [exact Htq |].
      pose proof (num_pos _ Hpos). lra.
  - intros _ Hshort. apply Nat.leb_gt in Hshort. by rewrite Hshort.
Qed.

Lemma unique_count_NoDup (tokens : list jsstring) :
  NoDup tokens -> unique_count tokens = length tokens.
Proof. intros Hnd. by apply unique_count_distinct. Qed.

Lemma slice_NoDup {A} (l : list A) (i j : nat) :
  NoDup l -> NoDup (slice l i j).
Proof.
  intros Hnd. unfold slice.
  eapply sublist_NoDup; [exact Hnd |].
  etrans; [apply sublist_take | apply sublist_drop].
Qed.

Lemma mattr_loop_distinct (tokens : list jsstring) (w : nat)
    (idx : list nat) (s : Q) (c : nat) :
  0 < w -> NoDup tokens ->
  Forall (fun i => i + w <= length tokens) idx ->
  let r := fold_left (fun '(sumTTR, windowCount) i =>
             let windowTokens := slice tokens i (i + w) in
             let windowTTR := (num (unique_count windowTokens) / num w)%Q in
             ((sumTTR + windowTTR)%Q, S windowCount)) idx (s, c) in
  r.2 = c + length idx /\ (r.1 == s + num (length idx))%Q.
Proof.
  intros Hw Hnd. revert s c. induction idx as [| i idx IH]; intros s c Hidx.
  - cbn [fold_left length fst snd]. change (num 0) with 0%Q.
    split; [lia | ring].
  - apply Forall_cons in Hidx as [Hi Hidx]. cbn [fold_left]. cbn zeta.
    specialize (IH (s + num (unique_count (slice tokens i (i + w))) / num w)%Q
                  (S c) Hidx).
    cbn zeta in IH. destruct IH as [Hc Hs].
    split; [rewrite Hc; simpl; lia |].
    rewrite Hs, unique_count_NoDup by (by apply slice_NoDup).
    rewrite slice_length_window by exact Hi.
    change (length (i :: idx)) with (1 + length idx).
    rewrite num_plus. change (num 1) with 1%Q.
    pose proof (num_pos w Hw). field. lra.
Qed.

Lemma computeMATTR_distinct (tokens : list jsstring) (windowSize : nat) :
  0 < windowSize -> tokens <> [] -> NoDup tokens ->
  (computeMATTR tokens windowSize == 1)%Q.
Proof.
  intros Hw Hne Hnd. unfold computeMATTR.
  assert (Hlen : 0 < length tokens) by (destruct tokens; [done | simpl; lia]).
  replace (length tokens =? 0) with false
    by (symmetry; apply Nat.eqb_neq; lia).
  pose proof (num_pos _ Hlen) as Htq.
  destruct (windowSize <=? length tokens) eqn:Hcmp.
  - apply Nat.leb_le in Hcmp.
    pose proof (mattr_loop_distinct tokens windowSize
                  (seq 0 (length tokens - windowSize + 1)) 0%Q 0 Hw Hnd)
      as Hl.
    cbn zeta in Hl. destruct Hl as [Hc Hs].
    { apply Forall_forall. intros i Hi%elem_of_seq. lia. }
    rewrite length_seq in Hc, Hs.
    destruct (fold_left _ _ _) as [s c]. cbn [fst snd] in Hc, Hs.
    rewrite Hs, Hc. simpl (0 + _).
    assert (Hk : 0 < length tokens - windowSize + 1) by lia.
    pose proof (num_pos _ Hk). field. lra.
  - rewrite unique_count_NoDup by exact Hnd. field. lra.
Qed.

Lemma computeMATTR_unit (tokens : list jsstring) (windowSize : nat) :
  0 < windowSize -> (0 <= computeMATTR tokens windowSize <= 1)%Q.
Proof.
  intros Hw. destruct (computeMATTR_cases tokens windowSize Hw)
    as (Hnil & Hpos & _).
  destruct tokens as [| t tokens].
  - rewrite Hnil by reflexivity. lra.
  - specialize (Hpos ltac:(done)). lra.
Qed.

(** X20. For a positive window size [computeMATTR] is 0 on no tokens and
    otherwise lies in (0, 1]; it is the plain type-token ratio when the
    tokens are fewer than the window, and it is 1 when no token occurs
    twice. *)
Theorem computeMATTR_bounds (tokens : list jsstring) (windowSize : nat) :
  0 < windowSize ->
  (tokens = [] -> computeMATTR tokens windowSize = 0%Q)
  /\ (tokens <> [] -> (0 < computeMATTR tokens windowSize <= 1)%Q)
  /\ (tokens <> [] -> length tokens < windowSize ->
      computeMATTR tokens windowSize
      = (num (unique_count tokens) / num (length tokens))%Q)
  /\ (tokens <> [] -> NoDup tokens ->
      (computeMATTR tokens windowSize == 1)%Q).
Proof.
  intros Hw. destruct (computeMATTR_cases tokens windowSize Hw)
    as (Hnil & Hunit & Hshort).
  split; [exact Hnil |]. split; [exact Hunit |]. split; [exact Hshort |].
  by apply computeMATTR_distinct.
Qed.

Lemma computeMATTR_bounds_witness :
  (0 < computeMATTR (List.map lit ["a"; "b"; "a"]%string) 2 <= 1)%Q.
Proof.
  apply (computeMATTR_bounds (List.map lit ["a"; "b"; "a"]%string) 2);
    [simpl; lia | discriminate].
Defined.

Lemma computeLexicalDiversity_ranges (tokens : list jsstring) :
  let r := computeLexicalDiversity tokens in
  ld_total_words r = length tokens
  /\ (0 <= type_token_ratio r <= 1)%Q
  /\ (0 <= mattr_500 r <= 1)%Q.
Proof.
  cbn zeta. unfold computeLexicalDiversity.
  destruct tokens as [| t tokens']; [| set (tokens := t :: tokens')].
  - simpl. split; [reflexivity |]. split; lra.
  - assert (Hlen : 0 < length tokens) by (simpl; lia).
    replace (length tokens =? 0) with false
      by (symmetry; apply Nat.eqb_neq; lia).
    cbn [ld_total_words type_token_ratio mattr_500].
    split; [reflexivity |].
    split; [apply ratio_unit; [apply unique_count_le | exact Hlen] |].
    apply computeMATTR_unit; lia.
Qed.

(** X21. The fields of [computeLexicalDiversity] agree with one another:
    [total_words] is the number of tokens, [unique_words] the number of
    distinct tokens and at most [total_words], [type_token_ratio] their
    quotient, both ratios lie between 0 and 1, and [mattr_500] equals
    [type_token_ratio] below 500 tokens. *)
Theorem computeLexicalDiversity_consistent (tokens : list jsstring) :
  let r := computeLexicalDiversity tokens in
  ld_total_words r = length tokens
  /\ unique_words r <= ld_total_words r
  /\ (tokens <> [] -> 1 <= unique_words r)
  /\ (forall d, NoDup d -> (forall x, x ∈ d <-> x ∈ tokens) ->
      unique_words r = length d)
  /\ (type_token_ratio r
      == num (unique_words r) / num (ld_total_words r))%Q
  /\ (0 <= type_token_ratio r <= 1)%Q
  /\ (0 <= mattr_500 r <= 1)%Q
  /\ (length tokens < 500 -> mattr_500 r = type_token_ratio r).
Proof.
  cbn zeta. unfold computeLexicalDiversity.
  destruct tokens as [| t tokens']; [| set (tokens := t :: tokens')].
  - simpl. split; [reflexivity |]. split; [lia |]. split; [done |].
    split.
    { intros d Hnd Hsame. destruct d as [| x d]; [reflexivity |].
      exfalso. eapply elem_of_nil, Hsame, list_elem_of_here. }
    split; [reflexivity |]. split; [lra |]. split; [lra | reflexivity].
  - assert (Hlen : 0 < length tokens) by (simpl; lia).
    replace (length tokens =? 0) with false
      by (symmetry; apply Nat.eqb_neq; lia).
    cbn [ld_total_words unique_words type_token_ratio mattr_500].
    split; [reflexivity |]. split; [apply unique_count_le |].
    split; [intros _; by apply unique_count_pos |].
    split; [intros d; apply unique_count_distinct |].
    split; [reflexivity |].
    split; [apply ratio_unit; [apply unique_count_le | exact Hlen] |].
    split; [apply computeMATTR_unit; lia |].
    intros Hshort.
    destruct (computeMATTR_cases tokens 500 ltac:(lia)) as (_ & _ & Heq).
    apply Heq; [done | exact Hshort].
Qed.

(** *** Dialogue frequency *)

Lemma quote_count_le (text : jsstring) :
  length (List.filter is_double_quote text) <= length text.
Proof.
  induction text as [| c text IH]; simpl; [lia |].
  destruct (is_double_quote c); simpl; lia.
Qed.

Lemma computeDialogueFrequency_eq (text : jsstring) :
  text <> [] ->
  (computeDialogueFrequency text
   == num (length (List.filter is_double_quote text))
      / num (length text) * 500)%Q.
Proof.
  intros Hne. unfold computeDialogueFrequency.
  assert (Hlen : 0 < length text) by (destruct text; [done | simpl; lia]).
  replace (length text =? 0) with false
    by (symmetry; apply Nat.eqb_neq; lia).
  pose proof (num_pos _ Hlen) as Hq. field. lra.
Qed.

Lemma computeDialogueFrequency_range (text : jsstring) :
  (0 <= computeDialogueFrequency text <= 500)%Q.
Proof.
  destruct text as [| c text'];
    [unfold computeDialogueFrequency; simpl; lra |].
  rewrite computeDialogueFrequency_eq by done.
  pose proof (ratio_unit _ _ (quote_count_le (c :: text'))
                ltac:(simpl; lia)). lra.
Qed.

(** X22. [computeDialogueFrequency] lies between 0 and 500; it is 0 for a
    text without double quotes and 500 for a non-empty text of double quotes
    only. *)
Theorem computeDialogueFrequency_bounds (text : jsstring) :
  (0 <= computeDialogueFrequency text <= 500)%Q
  /\ (Forall (fun c => is_double_quote c = false) text ->
      computeDialogueFrequency text == 0)%Q
  /\ (Forall (fun c => is_double_quote c = true) text -> text <> [] ->
      computeDialogueFrequency text == 500)%Q.
Proof.
  split; [apply computeDialogueFrequency_range |]. split.
  - intros Hno. destruct text as [| c text']; [reflexivity |].
    rewrite computeDialogueFrequency_eq by done.
    replace (List.filter is_double_quote (c :: text')) with (@nil char).
    + change (num (length [])) with 0%Q.
      unfold Qdiv. rewrite Qmult_0_l. reflexivity.
    + symmetry. induction Hno as [| d text Hd _ IH]; [reflexivity |].
      simpl. by rewrite Hd.
  - intros Hall Hne. rewrite computeDialogueFrequency_eq by exact Hne.
    replace (List.filter is_double_quote text) with text.
    + assert (Hlen : 0 < length text)
        by (destruct text; [done | simpl; lia]).
      pose proof (num_pos _ Hlen). field. lra.
    + clear Hne. induction Hall as [| d text Hd _ IH]; [reflexivity |].
      simpl. rewrite Hd. by f_equal.
Qed.

(** *** Syllables *)

Lemma vowel_groups_le (word : jsstring) : vowel_groups word <= length word.
Proof.
  induction word as [word IH] using (induction_ltof1 _ (@length char)).
  unfold ltof in IH.
  destruct word as [| c [| d rest]]; simpl.
  - lia.
  - destruct (is_vowel c); simpl; lia.
  - pose proof (IH rest ltac:(simpl; lia)) as IH1.
    pose proof (IH (d :: rest) ltac:(simpl; lia)) as IH2. simpl in IH2.
    destruct (is_vowel c), (is_vowel d); lia.
Qed.

Lemma strip_suffix_length (word : jsstring) :
  length (strip_suffix word) <= length word.
Proof.
  unfold strip_suffix.
  pose proof (length_rev word) as Hr.
  destruct (rev word) as [| c1 [| c2 rest]]; [lia | lia |].
  simpl in Hr.
  destruct (_ && _ && _).
  { rewrite length_rev. destruct rest; simpl in *; lia. }
  destruct (_ && _); [rewrite length_rev; lia |].
  destruct (_ && _); [rewrite length_rev; lia | lia].
Qed.

Lemma strip_leading_y_length (word : jsstring) :
  length (strip_leading_y word) <= length word.
Proof.
  destruct word as [| c rest]; simpl; [lia |].
  destruct (c =? 121)%N; simpl; lia.
Qed.

(** *** mergePossessives *)

Lemma strip_possessive_spec (w b : jsstring) :
  strip_possessive w = Some b <-> w = b ++ lit "'s".
Proof.
  unfold strip_possessive. change (lit "'s") with [39%N; 115%N].
  split.
  - intros Hs. rewrite <- (rev_involutive w).
    destruct (rev w) as [| s [| q rest]]; try discriminate.
    destruct (s =? 115)%N eqn:H1; [| discriminate].
    destruct (q =? 39)%N eqn:H2; [| discriminate].
    apply N.eqb_eq in H1, H2. subst. injection Hs as <-.
    simpl. by rewrite <- app_assoc.
  - intros ->. rewrite rev_app_distr. simpl. by rewrite rev_involutive.
Qed.

Lemma merge_key_code (word : jsstring) :
  match strip_possessive word with
  | Some ((_ :: _) as baseWord) =>
      if bool_decide (word ∈ KNOWN_CONTRACTIONS_S) then word else baseWord
  | _ => word
  end = merge_key word.
Proof.
  unfold merge_key. cbn zeta.
  destruct (strip_possessive word) as [b |] eqn:Hs.
  - apply strip_possessive_spec in Hs. subst word.
    change (lit "'s") with [39%N; 115%N].
    rewrite length_app. simpl (length [_; _]).
    replace (length b + 2 - 2) with (length b) by lia.
    rewrite drop_app_length, take_app_length.
    destruct b as [| c b].
    + rewrite bool_decide_eq_false_2; [reflexivity |]. simpl. lia.
    + case_bool_decide as Hk.
      * rewrite bool_decide_eq_false_2; [reflexivity | tauto].
      * rewrite bool_decide_eq_true_2; [reflexivity |].
        split; [reflexivity |]. split; [simpl; lia | exact Hk].
  - rewrite bool_decide_eq_false_2; [reflexivity |].
    intros (Hd & Hn & _).
    assert (Hw : word = take (length word - 2) word ++ lit "'s")
      by (by rewrite <- Hd, take_drop).
    apply strip_possessive_spec in Hw. congruence.
Qed.

Lemma mergePossessives_fold (wordCounts : list (jsstring * nat)) :
  mergePossessives wordCounts
  = fold_left (fun merged e => add_count merged (merge_key e.1) e.2)
              wordCounts [].
Proof.
  unfold mergePossessives. generalize (@nil (jsstring * nat)).
  induction wordCounts as [| [word count] wc IH]; intros m; [reflexivity |].
  cbn [fold_left fst snd]. rewrite <- IH, <- merge_key_code. f_equal.
  destruct (strip_possessive word) as [[| c b] |]; try reflexivity.
  by destruct (bool_decide _).
Qed.

Lemma add_count_get (m : list (jsstring * nat)) (k k' : jsstring)
    (d : nat) :
  OrdMap.get (add_count m k d) k'
  = if decide (k' = k) then Some (default 0 (OrdMap.get m k) + d)
    else OrdMap.get m k'.
Proof. unfold add_count. apply get_set. Qed.

Lemma add_count_keys (m : list (jsstring * nat)) (k : jsstring) (d : nat) :
  NoDup (List.map fst m) -> NoDup (List.map fst (add_count m k d)).
Proof.
  intros Hm. unfold add_count. rewrite keys_set.
  case_bool_decide as Hin; [exact Hm |].
  apply NoDup_app. split; [exact Hm |]. split.
  - intros x Hx [-> | []%elem_of_nil]%elem_of_cons. contradiction.
  - apply NoDup_singleton.
Qed.

Lemma merged_total_none (k : jsstring) (wc : list (jsstring * nat)) :
  ~ Exists (fun e => merge_key e.1 = k) wc -> merged_total k wc = 0.
Proof.
  unfold merged_total. induction wc as [| e wc IH]; intros Hno;
    [reflexivity |].
  cbn [List.filter]. rewrite bool_decide_eq_false_2.
  - apply IH. intros Hex. by apply Hno, Exists_cons_tl.
  - intros Hk. by apply Hno, Exists_cons_hd.
Qed.

Lemma fold_add_count (wc : list (jsstring * nat))
    (m : list (jsstring * nat)) :
  let r := fold_left (fun merged e => add_count merged (merge_key e.1) e.2)
                     wc m in
  (NoDup (List.map fst m) -> NoDup (List.map fst r))
  /\ sum_list (List.map snd r)
     = sum_list (List.map snd m) + sum_list (List.map snd wc)
  /\ forall k, OrdMap.get r k
       = if bool_decide (Exists (fun e => merge_key e.1 = k) wc)
         then Some (default 0 (OrdMap.get m k) + merged_total k wc)
         else OrdMap.get m k.
Proof.
  cbn zeta. revert m. induction wc as [| [w c] wc IH]; intros m.
  - split; [done |]. split; [simpl; lia |]. intros k.
    rewrite bool_decide_eq_false_2; [reflexivity |].
    by intros ?%Exists_nil.
  - cbn [fold_left fst snd].
    destruct (IH (add_count m (merge_key w) c)) as (Hnd & Hsum & Hget).
    split; [intros Hm; by apply Hnd, add_count_keys |]. split.
    + rewrite Hsum. unfold add_count. rewrite values_set_sum. simpl. lia.
    + intros k. rewrite Hget, add_count_get.
      unfold merged_total. cbn [List.filter fst].
      destruct (decide (k = merge_key w)) as [-> | Hne].
      * rewrite (bool_decide_eq_true_2 (merge_key w = merge_key w)) by done.
        rewrite (bool_decide_eq_true_2 (Exists _ ((w, c) :: wc)))
          by (by apply Exists_cons_hd).
        cbn [List.map snd sum_list default].
        fold (merged_total (merge_key w) wc).
        case_bool_decide as Hex; simpl; f_equal; [lia |].
        rewrite (merged_total_none _ _ Hex). lia.
      * rewrite (bool_decide_eq_false_2 (merge_key w = k)) by congruence.
        case_bool_decide as Hex.
        -- rewrite bool_decide_eq_true_2; [reflexivity |].
           by apply Exists_cons_tl.
        -- rewrite bool_decide_eq_false_2; [reflexivity |].
           intros [Heq | Hex']%Exists_cons; [simpl in Heq; congruence | done].
Qed.

Lemma mergePossessives_sum_keys (wordCounts : list (jsstring * nat)) :
  sum_counts (mergePossessives wordCounts)
  = sum_list (List.map snd wordCounts)
  /\ NoDup (List.map fst (mergePossessives wordCounts)).
Proof.
  rewrite mergePossessives_fold.
  destruct (fold_add_count wordCounts []) as (Hnd & Hsum & _).
  split; [| apply Hnd; constructor].
  unfold sum_counts, OrdMap.values. rewrite fold_add_sum, Hsum.
  simpl. lia.
Qed.

(** X23. [mergePossessives] keeps the total count; its keys are distinct,
    and the count under a key is the sum of the counts of the words filed
    under it, a word being filed under itself without a final ['s] unless it
    is a known contraction or nothing else is left. *)
Theorem mergePossessives_groups (wordCounts : list (jsstring * nat)) :
  let merged := mergePossessives wordCounts in
  sum_counts merged = sum_list (List.map snd wordCounts)
  /\ NoDup (List.map fst merged)
  /\ forall k c,
       OrdMap.get merged k = Some c
       <-> (exists e, e ∈ wordCounts /\ merge_key e.1 = k)
           /\ c = merged_total k wordCounts.
Proof.
  cbn zeta.
  destruct (mergePossessives_sum_keys wordCounts) as [Htot Hkeys].
  split; [exact Htot |]. split; [exact Hkeys |].
  rewrite mergePossessives_fold.
  destruct (fold_add_count wordCounts []) as (_ & _ & Hget).
  intros k c. rewrite Hget. simpl.
  case_bool_decide as Hex.
  - apply Exists_exists in Hex. split.
    + intros [= <-]. split; [| reflexivity].
      exact Hex.
    + intros [_ ->]. reflexivity.
  - split; [discriminate |]. intros [Hex' _].
    exfalso. by apply Hex, Exists_exists.
Qed.

(** *** filterNumericWords *)

Lemma mostly_digits_code (word : jsstring) :
  (0 <? length word)
  && Qlt_bool 0.2 (num (length (List.filter is_digit word))
                   / num (length word))
  = mostly_digits word.
Proof.
  unfold mostly_digits.
  set (d := length (List.filter is_digit word)).
  assert (Hd : d <= length word).
  { subst d. clear. induction word as [| c w IH]; simpl; [lia |].
    destruct (is_digit c); simpl; lia. }
  destruct (length word) as [| n] eqn:Hn.
  { simpl. symmetry. apply Nat.ltb_ge. lia. }
  change (0 <? S n) with true. cbn [andb]. unfold Qlt_bool.
  assert (Hq : (0 < num (S n))%Q) by (apply num_pos; lia).
  destruct (S n <? 5 * d) eqn:Hc.
  - apply Nat.ltb_lt in Hc. apply negb_true_iff.
    destruct (Qle_bool (num d / num (S n)) 0.2) eqn:Hle; [| reflexivity].
    exfalso. apply Qle_bool_iff in Hle.
    assert (Hm : (num d <= 0.2 * num (S n))%Q).
    { apply (Qmult_le_compat_r _ _ (num (S n))) in Hle; [| lra].
      unfold Qdiv in Hle.
      rewrite <- Qmult_assoc, (Qmult_comm (/ _)), Qmult_inv_r, Qmult_1_r
        in Hle by lra. exact Hle. }
    assert (Hlt : (num (S n) < 5 * num d)%Q).
    { unfold num in *. rewrite <- (inject_Z_mult 5), <- Zlt_Qlt. lia. }
    lra.
  - apply Nat.ltb_ge in Hc. apply negb_false_iff, Qle_bool_iff.
    apply Qle_shift_div_r; [exact Hq |].
    assert (Hle : (5 * num d <= num (S n))%Q).
    { unfold num. rewrite <- (inject_Z_mult 5), <- Zle_Qle. lia. }
    lra.
Qed.

Lemma set_fresh (m : list (jsstring * nat)) (k : jsstring) (v : nat) :
  k ∉ List.map fst m -> OrdMap.set m k v = m ++ [(k, v)].
Proof.
  induction m as [| [k0 v0] m IH]; simpl; intros Hk; [reflexivity |].
  apply not_elem_of_cons in Hk as [Hne Hk].
  destruct (decide (k = k0)); [done |]. by rewrite IH.
Qed.

Lemma filterNumericWords_fold (wc acc : list (jsstring * nat)) :
  NoDup (List.map fst (acc ++ wc)) ->
  fold_left (fun filtered '(word, count) =>
    let digitCount := length (List.filter is_digit word) in
    if (0 <? length word)
       && Qlt_bool 0.2 (num digitCount / num (length word))
    then filtered
    else OrdMap.set filtered word count) wc acc
  = acc ++ List.filter (fun e => negb (mostly_digits e.1)) wc.
Proof.
  revert acc. induction wc as [| [w c] wc IH]; intros acc Hnd.
  - simpl. by rewrite app_nil_r.
  - cbn [fold_left List.filter fst]. cbn zeta. rewrite mostly_digits_code.
    rewrite map_app in Hnd. apply NoDup_app in Hnd as (Hacc & Hdisj & Hwc).
    simpl in Hwc. apply NoDup_cons in Hwc as [Hw Hwc].
    destruct (mostly_digits w); cbn [negb].
    + apply IH. rewrite map_app. apply NoDup_app.
      split; [exact Hacc |]. split; [| exact Hwc].
      intros x Hx Hx'. apply (Hdisj x Hx). simpl. by apply list_elem_of_further.
    + rewrite set_fresh.
      2:{ intros Hin. apply (Hdisj w Hin). simpl. apply list_elem_of_here. }
      rewrite IH; [by rewrite <- app_assoc |].
      rewrite !map_app. simpl. rewrite <- app_assoc. simpl.
      apply NoDup_app. split; [exact Hacc |]. split.
      * intros x Hx Hx'. apply (Hdisj x Hx). exact Hx'.
      * simpl. by apply NoDup_cons.
Qed.

(** X24. On the entries of a map, which have distinct keys,
    [filterNumericWords] keeps exactly the entries whose word has at most
    one digit in five code units, with their counts and in their order. *)
Theorem filterNumericWords_keeps_order (wordCounts : list (jsstring * nat)) :
  NoDup (List.map fst wordCounts) ->
  MetricsRest.filterNumericWords wordCounts
  = List.filter (fun e => negb (mostly_digits e.1)) wordCounts.
Proof.
  intros Hnd. unfold MetricsRest.filterNumericWords.
  by rewrite filterNumericWords_fold.
Qed.

Lemma filterNumericWords_keeps_order_witness :
  MetricsRest.filterNumericWords
    [(lit "abc", 1); (lit "a1", 2); (lit "route66", 3)]
  = [(lit "abc", 1)].
Proof.
  rewrite filterNumericWords_keeps_order; [reflexivity |].
  refine (bool_decide_unpack _ _). vm_compute. exact I.
Defined.

(** *** Sentences *)

Lemma terminators_here_cases (c : char) (s : jsstring) :
  match terminators_here (c :: s) with
  | None => is_terminator c = false
  | Some n => 0 < n
  end.
Proof.
  unfold terminators_here. cbn [take_while].
  destruct (is_terminator c); simpl; [lia | reflexivity].
Qed.

Lemma split_aux_terminator_free (s cur : jsstring) (skip : nat) :
  terminator_free cur ->
  Forall terminator_free (split_aux terminators_here s cur skip).
Proof.
  revert cur skip. induction s as [| c s IH]; intros cur skip Hcur.
  - simpl. by apply Forall_singleton.
  - cbn [split_aux]. destruct skip as [| k]; [| by apply IH].
    pose proof (terminators_here_cases c s) as Hc.
    destruct (terminators_here (c :: s)) as [[| len'] |].
    + lia.
    + constructor; [exact Hcur |]. apply IH. constructor.
    + apply IH. apply Forall_app. split; [exact Hcur |].
      by apply Forall_singleton.
Qed.

Lemma split_aux_total (here : jsstring -> option nat) (s cur : jsstring)
    (skip : nat) :
  sum_list (List.map (@length char) (split_aux here s cur skip))
  <= length cur + length s.
Proof.
  revert cur skip. induction s as [| c s IH]; intros cur skip.
  - simpl. lia.
  - cbn [split_aux]. destruct skip as [| k].
    + destruct (here (c :: s)) as [[| len'] |].
      * specialize (IH (cur ++ [c]) 0). rewrite length_app in IH.
        simpl in *. lia.
      * specialize (IH [] len'). simpl in *. lia.
      * specialize (IH (cur ++ [c]) 0). rewrite length_app in IH.
        simpl in *. lia.
    + specialize (IH cur k). simpl. lia.
Qed.

Lemma split_aux_whole (s cur : jsstring) :
  terminator_free s ->
  split_aux terminators_here s cur 0 = [cur ++ s].
Proof.
  intros Hs. revert cur. induction Hs as [| c s Hc Hs IH]; intros cur.
  - simpl. by rewrite app_nil_r.
  - cbn [split_aux]. unfold terminators_here at 1. cbn [take_while].
    rewrite Hc. simpl length. cbn iota.
    rewrite IH. by rewrite <- app_assoc.
Qed.

Lemma sum_filter_le {A} (f : A -> nat) (p : A -> bool) (l : list A) :
  sum_list (List.map f (List.filter p l)) <= sum_list (List.map f l).
Proof.
  induction l as [| x l IH]; simpl; [lia |].
  destruct (p x); simpl; lia.
Qed.

Lemma nonblank_nonempty (s : jsstring) :
  nonblank s = true -> trim s <> [] /\ 1 <= length s.
Proof.
  unfold nonblank. intros Hn%Nat.ltb_lt.
  split; [intros He; rewrite He in Hn; simpl in Hn; lia |].
  destruct s; [| simpl; lia]. simpl in Hn. lia.
Qed.

(** X25. The sentences counted by [computeVocabLevel] and
    [computeAverageSentenceLength] hold no terminator and are not blank;
    together they are no longer than the text, so there are at most as many
    as code units; a non-blank text without terminator is one sentence. *)
Theorem sentences_of_pieces (text : jsstring) :
  let sentences := sentences_of text in
  Forall (fun s => terminator_free s /\ trim s <> []) sentences
  /\ sum_list (List.map (@length char) sentences) <= length text
  /\ length sentences <= length text
  /\ (terminator_free text -> trim text <> [] -> sentences = [text]).
Proof.
  cbn zeta. unfold sentences_of, split.
  pose proof (split_aux_terminator_free text [] 0 ltac:(constructor)) as Hfree.
  pose proof (split_aux_total terminators_here text [] 0) as Htot.
  set (pieces := split_aux terminators_here text [] 0) in *.
  assert (Hshape : Forall (fun s => terminator_free s /\ trim s <> []
                                    /\ 1 <= length s)
                          (List.filter nonblank pieces)).
  { apply Forall_forall. intros s Hs.
    apply list_elem_of_In, filter_In in Hs as [Hin Hnb].
    rewrite Forall_forall in Hfree.
    split; [by apply Hfree, list_elem_of_In |].
    by apply nonblank_nonempty. }
  assert (Hsum : sum_list (List.map (@length char)
                             (List.filter nonblank pieces))
                 <= length text).
  { etrans; [apply sum_filter_le |]. simpl in Htot. lia. }
  split; [eapply Forall_impl; [exact Hshape |];
          intros s (Hf & Ht & _); by split |].
  split; [exact Hsum |]. split.
  - eapply Nat.le_trans; [| exact Hsum]. clear -Hshape.
    induction Hshape as [| s l (_ & _ & Hs) _ IH]; simpl; lia.
  - intros Hfree' Hne. unfold pieces.
    rewrite split_aux_whole by exact Hfree'. simpl.
    unfold nonblank. destruct (trim text) eqn:Ht; [done | reflexivity].
Qed.

Section WithHost.
Context `{Host}.
Variable STAGE1_REGEXES : list (jsstring * ContrastDetector.RegExp).
Variable STAGE2_REGEXES : list (jsstring * ContrastDetector.RegExp).

(** *** Syllables *)

(** X26. [countSyllables] counts at least one syllable and at most as many
    as the lower-cased word has code units, and exactly one for a word of
    three code units or fewer. *)
Theorem countSyllables_range (word : jsstring) :
  1 <= countSyllables word
  /\ countSyllables word <= Nat.max 1 (length (toLowerCase word))
  /\ (length (toLowerCase word) <= 3 -> countSyllables word = 1).
Proof.
  unfold countSyllables.
  destruct (length (toLowerCase word) <=? 3) eqn:Hshort.
  { split; [lia |]. split; [lia | done]. }
  apply Nat.leb_gt in Hshort.
  pose proof (vowel_groups_le (strip_leading_y (strip_suffix (toLowerCase word)))).
  pose proof (strip_leading_y_length (strip_suffix (toLowerCase word))).
  pose proof (strip_suffix_length (toLowerCase word)).
  destruct (vowel_groups _); split; try lia; split; lia.
Qed.

(** *** Over-represented words *)

Lemma lookupFrequency_positive (st : Stores) (word : jsstring) (f : Q) :
  lookupFrequency st word = Some f ->
  (0 < f)%Q /\ exists wf, wordfreq st = Some wf
                          /\ f = Wordfreq.frequency wf word.
Proof.
  unfold lookupFrequency. destruct (wordfreq st) as [wf |]; [| discriminate].
  cbn zeta. destruct (Qlt_bool 0 _) eqn:Hpos; [| discriminate].
  intros [= <-]. split; [| by exists wf].
  unfold Qlt_bool in Hpos. apply negb_true_iff in Hpos.
  destruct (Qlt_le_dec 0 (Wordfreq.frequency wf word)) as [Hl | Hl];
    [exact Hl |].
  apply Qle_bool_iff in Hl. congruence.
Qed.

(** X27. The over-represented words are at most 100, in descending order of
    ratio; each occurs at least twice, has a positive baseline frequency and
    a ratio above 1.5 equal to its share of the content tokens divided by
    that baseline; without a frequency table there are none; the bigram and
    trigram lists are the first 100 rows of the rankings. *)
Theorem over_represented_words (st : Stores) (toksContent : list jsstring)
    (topBCounts topTCounts : list (jsstring * Q * nat)) :
  let r := over_represented st toksContent topBCounts topTCounts in
  let wordCounts := mergePossessives (countItems toksContent) in
  length (tor_words r) <= 100
  /\ StronglySorted by_overrep_desc (tor_words r)
  /\ (forall o, o ∈ tor_words r ->
        OrdMap.get wordCounts (or_phrase o) = Some (or_count o)
        /\ 2 <= or_count o
        /\ (1.5 < or_ratio o)%Q
        /\ exists baselineFreq,
             lookupFrequency st (or_phrase o) = Some baselineFreq
             /\ (0 < baselineFreq)%Q
             /\ or_ratio o
                = (num (or_count o) / num (length toksContent)
                   / baselineFreq)%Q)
  /\ (wordfreq st = None -> tor_words r = [])
  /\ tor_bigrams r = List.map to_overrep (take 100 topBCounts)
  /\ tor_trigrams r = List.map to_overrep (take 100 topTCounts).
Proof.
  cbn zeta. unfold over_represented. cbn zeta.
  cbn [tor_words tor_bigrams tor_trigrams].
  destruct (mergePossessives_sum_keys (countItems toksContent))
    as (Htot & Hnd).
  rewrite Htot.
  replace (sum_list (List.map snd (countItems toksContent)))
    with (length toksContent).
  2:{ pose proof (countItems_total toksContent) as Hc.
      unfold sum_counts, OrdMap.values in Hc. rewrite fold_add_sum in Hc.
      simpl in Hc. lia. }
  set (wordCounts := mergePossessives (countItems toksContent)) in *.
  match goal with
  | |- context [sort ?l (flat_map ?f ?e)] =>
      set (leb := l); set (rows := flat_map f e); set (pick := f) in *
  end.
  unfold slice. rewrite !drop_0, !Nat.sub_0_r.
  split; [rewrite length_take; lia |]. split.
  { apply StronglySorted_take.
    apply (ContrastFacts.sort_sorted _ by_overrep_desc);
      unfold by_overrep_desc, leb.
    - intros x y Hc%Qle_bool_iff. lra.
    - intros x y Hc.
      destruct (Qlt_le_dec 0 (or_ratio y - or_ratio x)) as [Hl | Hl];
        [lra |]. apply Qle_bool_iff in Hl. congruence.
    - intros x y z. lra. }
  split.
  { intros o Hin.
    apply (fun H => elem_of_sublist _ _ _ H (sublist_take _ _)) in Hin.
    apply sort_elem in Hin. unfold rows in Hin.
    apply list_elem_of_In, in_flat_map in Hin as ([w cnt] & Hw & Hin).
    apply list_elem_of_In in Hw. unfold OrdMap.entries in Hw.
    apply get_elem in Hw; [| exact Hnd].
    unfold pick in Hin.
    destruct (lookupFrequency st w) as [baselineFreq |] eqn:Hf; [| done].
    destruct (Qlt_bool 1.5 _ && (2 <=? cnt)) eqn:Hc; [| done].
    destruct Hin as [<- | []]. cbn [or_phrase or_count or_ratio].
    apply andb_true_iff in Hc as [Hr Hc2].
    split; [exact Hw |]. split; [by apply Nat.leb_le |]. split.
    - unfold Qlt_bool in Hr. apply negb_true_iff in Hr.
      match goal with
      | |- (_ < ?x)%Q =>
          destruct (Qlt_le_dec 1.5 x) as [Hl | Hl]; [exact Hl |];
          apply Qle_bool_iff in Hl; congruence
      end.
    - exists baselineFreq. split; [exact Hf |].
      split; [by apply lookupFrequency_positive in Hf as [? _] | reflexivity]. }
  split; [| by split].
  intros Hnone.
  assert (Hrows : rows = []).
  { unfold rows. apply flat_map_all_nil. intros [w cnt]. unfold pick.
    unfold lookupFrequency. by rewrite Hnone. }
  by rewrite Hrows.
Qed.

(** *** analyzeText *)

Lemma computeSlopScore_range (w t c : Q) :
  (0 <= computeSlopScore w t c <= 100)%Q.
Proof.
  unfold computeSlopScore. cbn zeta.
  pose proof (ScoreFacts.normalizeValue_bounds w slop_words_range).
  pose proof (ScoreFacts.normalizeValue_bounds t slop_trigrams_range).
  pose proof (ScoreFacts.normalizeValue_bounds c contrast_range).
  lra.
Qed.

Lemma tiles_count (a b : nat) (spans : list (nat * nat)) :
  tiles a b spans -> length spans <= b - a.
Proof.
  revert a; induction spans as [| [s e] spans IH]; simpl; intros a Ht;
    [lia |].
  destruct Ht as (-> & Hlt & Hrest).
  pose proof (SpanFacts.tiles_le _ _ _ Hrest). apply IH in Hrest. lia.
Qed.

Lemma contrast_results_le_chars (text : jsstring) :
  length (ContrastDetector.extractContrastMatches
            STAGE1_REGEXES STAGE2_REGEXES text)
  <= length text.
Proof.
  etrans; [apply contrast_results_length |].
  pose proof (SpanFacts.sentenceSpans_tiles (normalizeText text)) as Ht.
  apply tiles_count in Ht.
  assert (Hlen : length (normalizeText text) = length text)
    by (by rewrite normalizeText_map, length_map).
  lia.
Qed.

Lemma quotient_nonneg (a b : nat) : (0 <= num a / num b)%Q.
Proof.
  destruct b as [| b].
  - change (num 0) with 0%Q. unfold Qdiv, Qinv; simpl.
    rewrite Qmult_0_r. lra.
  - apply Qle_shift_div_l; [apply num_pos; lia |].
    pose proof (num_nonneg a). lra.
Qed.

Lemma words_per_block_nonneg (words blocks : nat) :
  (0 <= (if blocks =? 0 then 0 else num words / num blocks))%Q.
Proof. destruct (blocks =? 0); [lra | apply quotient_nonneg]. Qed.

(** X28. The result of [analyzeText] reports the file name of the options,
    the length of the text and the number of alphabetic tokens; its slop
    score lies in [0, 100], the two slop rates and the contrast rate in [0,
    1000], the repetition score in [0, 2000], both diversity ratios in [0,
    1], the dialogue frequency in [0, 500], and no metric is negative. *)
Theorem analyzeText_metric_ranges (st : Stores) (text : jsstring)
    (options : AnalyzeOptions) :
  let r := analyzeText STAGE1_REGEXES STAGE2_REGEXES st text options in
  let m := metrics r in
  ar_file r = file options
  /\ total_chars r = length text
  /\ total_words r = length (alphaTokens (wordsOnlyLower text))
  /\ ld_total_words (lexical_diversity m) = total_words r
  /\ within 0 100 (slop_score r)
  /\ within 0 1000 (slop_words_per_1k m)
  /\ within 0 1000 (slop_trigrams_per_1k m)
  /\ within 0 2000 (ngram_repetition_score m)
  /\ within 0 1000 (not_x_but_y_per_1k_chars m)
  /\ within 0 1 (mattr_500 (lexical_diversity m))
  /\ within 0 1 (type_token_ratio (lexical_diversity m))
  /\ within 0 500 (dialogue_frequency m)
  /\ (0 <= vocab_level m)%Q
  /\ (0 <= avg_sentence_length m)%Q
  /\ (0 <= avg_paragraph_length m)%Q.
Proof.
  cbn zeta. unfold analyzeText, within. cbn zeta.
  set (toks := alphaTokens (wordsOnlyLower text)).
  destruct (length toks =? 0) eqn:Hn.
  { apply Nat.eqb_eq in Hn. simpl. rewrite Hn.
    repeat (split; [first [reflexivity | lra] |]). lra. }
  apply Nat.eqb_neq in Hn.
  assert (Hne : toks <> []) by (intros He; by rewrite He in Hn).
  cbn [ar_file total_chars total_words slop_score metrics
       slop_words_per_1k slop_trigrams_per_1k ngram_repetition_score
       not_x_but_y_per_1k_chars lexical_diversity vocab_level
       avg_sentence_length avg_paragraph_length dialogue_frequency].
  destruct (computeSlopIndex_ranges st toks
              (includeWordHits options || includeTrigramHits options) Hne)
    as (Hw & Ht).
  destruct (computeLexicalDiversity_ranges toks) as (Hld & Httr & Hmattr).
  split; [reflexivity |]. split; [reflexivity |]. split; [reflexivity |].
  split; [exact Hld |]. split; [apply computeSlopScore_range |].
  split; [exact Hw |]. split; [exact Ht |]. split.
  { set (content := contentTokens toks).
    destruct (0 <? length content) eqn:Hc; [| lra].
    apply Nat.ltb_lt in Hc.
    destruct (rankOveruseWithCounts_spec (makeNgrams content 2)
                (humanBigramFreq st) 40) as (_ & _ & _ & _ & Hb & _).
    destruct (rankOveruseWithCounts_spec (makeNgrams content 3)
                (humanTrigramFreq st) 40) as (_ & _ & _ & _ & Ht3 & _).
    unfold makeNgrams in *. rewrite getNgrams_length in Hb, Ht3.
    remember (sum_row_counts (rankOveruseWithCounts (getNgrams content 2)
                (humanBigramFreq st) 40)) as b eqn:Eb.
    remember (sum_row_counts (rankOveruseWithCounts (getNgrams content 3)
                (humanTrigramFreq st) 40)) as t3 eqn:Et.
    clear Eb Et.
    assert (Hsum : b + t3 <= 2 * length content) by lia.
    pose proof (num_pos _ Hc) as Hq.
    pose proof (num_le _ _ Hsum) as Hle.
    pose proof (num_nonneg (b + t3)) as Hnn.
    assert (H2 : (num (2 * length content) == 2 * num (length content))%Q).
    { unfold num. rewrite Nat2Z.inj_mul, inject_Z_mult. reflexivity. }
    assert (Hr : (0 <= num (b + t3) / num (length content) <= 2)%Q).
    { split.
      - apply Qle_shift_div_l; [exact Hq | lra].
      - apply Qle_shift_div_r; [exact Hq | lra]. }
    lra. }
  split.
  { destruct (0 <? length text) eqn:Hc; [| lra].
    apply Nat.ltb_lt in Hc.
    pose proof (ratio_unit _ _ (contrast_results_le_chars text) Hc). lra. }
  split; [exact Hmattr |]. split; [exact Httr |].
  split; [apply computeDialogueFrequency_range |]. split.
  { unfold computeVocabLevel. cbn zeta.
    match goal with
    | |- (0 <= if ?b then _ else _)%Q =>
        destruct b; [apply Qle_refl | apply Q.le_max_l]
    end. }
  split.
  - unfold computeAverageSentenceLength. cbn zeta.
    apply words_per_block_nonneg.
  - unfold computeAverageParagraphLength. cbn zeta.
    apply words_per_block_nonneg.
Qed.

(** X29. For a text with at least one alphabetic token, [analyzeText] fills
    each optional field exactly when its flag is set; the word and trigram
    hit lists it then reports hold every lexicon phrase that occurs among
    the tokens, with its number of occurrences, most frequent first. *)
Theorem analyzeText_optional_fields (st : Stores) (text : jsstring)
    (options : AnalyzeOptions) :
  let r := analyzeText STAGE1_REGEXES STAGE2_REGEXES st text options in
  let toks := alphaTokens (wordsOnlyLower text) in
  toks <> [] ->
  (if includeWordHits options
   then exists hits, slop_word_hits r = Some hits
                     /\ hit_table (slopWords st) toks hits
   else slop_word_hits r = None)
  /\ (if includeTrigramHits options
      then exists hits, slop_trigram_hits r = Some hits
                        /\ hit_table (slopTrigrams st) (getNgrams toks 3) hits
      else slop_trigram_hits r = None)
  /\ (is_Some (top_over_represented r)
      <-> includeOverRepresented options = true)
  /\ (is_Some (contrast_matches r)
      <-> includeContrastMatches options = true).
Proof.
  cbn zeta. intros Hne. unfold analyzeText. cbn zeta.
  set (toks := alphaTokens (wordsOnlyLower text)) in *.
  replace (length toks =? 0) with false
    by (symmetry; apply Nat.eqb_neq; destruct toks; [done | simpl; lia]).
  cbn [slop_word_hits slop_trigram_hits top_over_represented
       contrast_matches].
  rewrite computeSlopIndex_eq by exact Hne. cbn zeta.
  cbn [wordHits trigramHits].
  split; [| split; [| split]].
  - destruct (includeWordHits options); [| reflexivity].
    cbn [orb default]. eexists. split; [reflexivity |].
    apply hit_table_sort_hits.
  - destruct (includeTrigramHits options); [| reflexivity].
    rewrite orb_true_r. cbn [default]. eexists. split; [reflexivity |].
    apply hit_table_sort_hits.
  - destruct (includeOverRepresented options).
    + split; [done | intros _; by eexists].
    + split; [intros [? ?]; discriminate | discriminate].
  - destruct (includeContrastMatches options).
    + split; [done | intros _; by eexists].
    + split; [intros [? ?]; discriminate | discriminate].
Qed.

End WithHost.

Lemma analyzeText_optional_fields_witness :
  exists hits,
    slop_word_hits
      (@analyzeText ascii_host [] [] slop_stores
         (lit "We delve into a rich tapestry.") with_hits) = Some hits
    /\ hit_table (slopWords slop_stores)
         (alphaTokens (@wordsOnlyLower ascii_host
                         (lit "We delve into a rich tapestry."))) hits.
Proof.
  destruct (@analyzeText_optional_fields ascii_host [] [] slop_stores
              (lit "We delve into a rich tapestry.") with_hits)
    as (Hw & _); [vm_compute; discriminate |].
  exact Hw.
Defined.

End AnalysisFacts.

(** ** The human baseline: what the tables hold *)

Module BaselineFacts.
Import Utils Metrics Spec Shape Examples Inputs.
Import UtilsFacts.

Lemma freq_le_total (l : list ProfileEntry) (it : ProfileEntry) :
  Forall (fun e => (0 <= freq_of e)%Q) l -> it ∈ l ->
  (0 <= list_total l)%Q /\ (freq_of it <= list_total l)%Q.
Proof.
  intros Hnn. revert it. induction Hnn as [| e l He Hl IH]; intros it Hin.
  - by apply elem_of_nil in Hin.
  - assert (Htot : (list_total (e :: l) == freq_of e + list_total l)%Q).
    { unfold list_total at 1. cbn [fold_left].
      rewrite ProfileFacts.total_from_acc. ring. }
    assert (Hl0 : (0 <= list_total l)%Q).
    { destruct l as [| e' l']; [unfold list_total; simpl; lra |].
      apply (IH e'), list_elem_of_here. }
    rewrite Htot. split; [lra |].
    apply elem_of_cons in Hin as [-> | Hin]; [lra |].
    destruct (IH it Hin). lra.
Qed.

Section WithHost.
Context `{Host}.

Lemma ngram_tokens_words (it : ProfileEntry) :
  Forall letters (ngram_tokens it).
Proof.
  unfold ngram_tokens, runs.
  eapply Forall_impl; [apply runs_aux_shape; constructor |].
  intros t [Hne Hall]. split; [exact Hne |].
  clear Hne. induction Hall as [| c t Hc _ IH]; [reflexivity |].
  simpl. by rewrite Hc.
Qed.

Lemma norm_probabilities (l : list ProfileEntry) :
  Forall (fun e => (0 <= freq_of e)%Q) l -> baseline_table l (norm l ∅).
Proof.
  intros Hnn. split.
  - intros k v Hk.
    destruct (ProfileFacts.norm_normalized l) as [Hval _].
    destruct (Hval k v Hk) as (it & Hin & Hkept & -> & ->).
    destruct (freq_le_total l it Hnn Hin) as [Htot Hle].
    assert (Hpos : (0 < list_total l)%Q).
    { unfold norm in Hk. destruct (Qle_bool (list_total l) 0) eqn:Hc.
      - by rewrite lookup_empty in Hk.
      - destruct (Qlt_le_dec 0 (list_total l)) as [Hl | Hl]; [exact Hl |].
        apply Qle_bool_iff in Hl. congruence. }
    split.
    + rewrite Forall_forall in Hnn. specialize (Hnn it Hin). split.
      * apply Qle_shift_div_l; [exact Hpos | lra].
      * apply Qle_shift_div_r; [exact Hpos | lra].
    + exists (ngram_tokens it). split; [exact Hkept |].
      split; [apply ngram_tokens_words | reflexivity].
  - intros Hle. unfold norm. apply Qle_bool_iff in Hle. by rewrite Hle.
Qed.


End WithHost.


End BaselineFacts.
